(** * lerobot-annotate: the temporal annotation pipeline, embedded and verified

    A shallow embedding of the algorithmic core of the annotator
    (app.py and the ai_plugin_impl package) together with theorems about it:
    interval-to-sample assignment and the export label maps (app.py),
    merging and persistence of generated segments (engine.py), structured
    output extraction (json_parse.py), episode timing (adapter.py and
    DataManager._calculate_video_offsets) and the media cache (sampler.py).

    Conventions of the embedding.
    - A Python float is a rational number [Q] kept in lowest terms.  Every
      comparison the code makes between floats is an order comparison, on
      which finite floats and the rationals they denote agree; the rounding
      error of [+] and [/] is not modelled.  [round(x, 3)] is the nearest
      multiple of 1/1000, ties to the even multiple.
    - A Python [str] is a [string] whose characters are code points below
      256; ordering of strings is by code point, as in Python.
    - A [dict] used as a map is a [gmap]; a dict or list whose order matters
      is a list.  Exceptions are values of [exn] carried by [result].
    - What lies outside the repository (hashing, float formatting, the
      ffmpeg process, the inference service) is taken as a parameter. *)

From Stdlib Require Import QArith Qabs Qround Lqa Lia OrderedTypeEx Ascii.
From stdpp Require Import gmap strings list sorting pretty.

Open Scope Q_scope.

(** ** Python values and control *)

Module Py.

Inductive exn :=
  | ValueError (msg : string)
  | JSONDecodeError
  | TypeError
  | RuntimeError (msg : string).

Inductive result (A : Type) :=
  | Ok (a : A)
  | Raise (e : exn).
Arguments Ok {A} a.
Arguments Raise {A} e.

#[global] Instance result_ret : MRet result := λ A a, Ok a.
#[global] Instance result_bind : MBind result := λ A B f m,
  match m with Ok a => f a | Raise e => Raise e end.

Definition returns {A} (m : result A) : Prop := ∃ a, m = Ok a.

(** [for x in l: out.append(f(x))], stopping at the first exception. *)
Fixpoint for_each {A B} (f : A → result B) (l : list A) : result (list B) :=
  match l with
  | [] => Ok []
  | x :: l' => y ← f x; ys ← for_each f l'; Ok (y :: ys)
  end.

(** Float comparisons [a <= b], [a < b] and the two-argument [max]. *)
Definition fle (a b : Q) : bool := Qle_bool a b.
Definition flt (a b : Q) : bool := negb (Qle_bool b a).
Definition fmax (a b : Q) : Q := if flt a b then b else a.
Definition fmin (a b : Q) : Q := if flt b a then b else a.

(** Nearest integer, ties to even. *)
Definition round_half_even (q : Q) : Z :=
  let n := Qnum q in
  let d := Zpos (Qden q) in
  let fl := (n / d)%Z in
  let r := (2 * (n mod d))%Z in
  if (r <? d)%Z then fl
  else if (d <? r)%Z then (fl + 1)%Z
  else if Z.even fl then fl else (fl + 1)%Z.

(** [round(x, 3)]. *)
Definition round3 (x : Q) : Q := Qred (round_half_even (x * 1000) # 1000).

(** The value stored under a string-valued key of a dict: the key may be
    missing, hold [None], or hold a string. *)
Inductive field :=
  | Absent
  | PyNone
  | Str (s : string).

(** [d.get(key, default)] for a string default. *)
Definition get (f : field) (default : string) : field :=
  match f with Absent => Str default | _ => f end.

(** [v or ""]: falsy values ([None], the empty string) become [""]. *)
Definition or_empty (f : field) : string :=
  match f with Str s => s | _ => "" end.

(** Truthiness of such a value. *)
Definition truthy (f : field) : bool :=
  match f with Str s => negb (String.eqb s "") | _ => false end.

(** [str(v)]. *)
Definition str (f : field) : string :=
  match f with Str s => s | PyNone => "None" | Absent => "" end.

(** [sep.join(items)]: every item must be a string. *)
Fixpoint join (sep : string) (items : list field) : result string :=
  match items with
  | [] => Ok ""
  | [Str s] => Ok s
  | Str s :: rest => r ← join sep rest; Ok (s +:+ sep +:+ r)
  | _ :: _ => Raise TypeError
  end.

(** Whitespace in the sense of [str.isspace], for code points below 256. *)
Definition is_space (c : Ascii.ascii) : bool :=
  let n := Ascii.nat_of_ascii c in
  ((9 <=? n) && (n <=? 13) || (28 <=? n) && (n <=? 32)
   || (n =? 133) || (n =? 160))%nat.

Fixpoint lstrip (s : string) : string :=
  match s with
  | String c s' => if is_space c then lstrip s' else s
  | EmptyString => EmptyString
  end.

(** [s.strip()] *)
Definition strip (s : string) : string :=
  String.rev (lstrip (String.rev (lstrip s))).

(** [sorted(l)] for a strict order [lt]: stable, so of two elements that
    compare equal the one that came first stays first. *)
Section Sorted.
Context {A : Type} (lt : A → A → bool).

Fixpoint insert_sorted (x : A) (l : list A) : list A :=
  match l with
  | [] => [x]
  | y :: l' => if lt y x then y :: insert_sorted x l' else x :: y :: l'
  end.

Definition sorted (l : list A) : list A := foldr insert_sorted [] l.
End Sorted.

End Py.

(** ** app.py: annotations, export maps and interval assignment *)

Module App.
Import Py.

(** A segment dict.  [start] and [end] are floats when present; the other
    keys hold strings or [None]. *)
Record segment := {
  start : option Q;
  end_ : option Q;
  label : field;
  user_prompt : field;
  robot_utterance : field;
  robot_response : field;
  skill : field;
  scenario_type : field;
  response_type : field;
}.

(** [{"start": s, "end": e, "label": l}] *)
Definition subtask (s e : Q) (l : string) : segment :=
  {| start := Some s; end_ := Some e; label := Str l;
     user_prompt := Absent; robot_utterance := Absent; robot_response := Absent;
     skill := Absent; scenario_type := Absent; response_type := Absent |}.

(** [float(seg.get("start", 0))] and [float(seg.get("end", 0))] *)
Definition seg_start (seg : segment) : Q := default 0 (start seg).
Definition seg_end (seg : segment) : Q := default 0 (end_ seg).

Record qa_label := { frame_idx : Z }.

Record EpisodeAnnotations := {
  subtasks : list segment;
  high_levels : list segment;
  qa_labels : list qa_label;
}.

(** [DataManager.annotations : dict[int, EpisodeAnnotations]], in insertion
    order. *)
Definition annotations := list (Z * EpisodeAnnotations).

Definition make_task_key (seg : segment) : result string :=
  join "||" [ get (user_prompt seg) "";
              get (robot_utterance seg) "";
              Str (or_empty (get (skill seg) ""));
              get (scenario_type seg) "";
              get (response_type seg) "" ].

(** The two values of [label_key] passed by [export_dataset]. *)
Inductive label_key := key_label | key_task_key.

(** The label looked up in the mapping for a matched segment:
    [seg.get(label_key, "")], replaced by [make_task_key(seg)] when
    [label_key == "task_key"]. *)
Definition seg_label (key : label_key) (seg : segment) : result field :=
  match key with
  | key_label => Ok (get (label seg) "")
  | key_task_key => k ← make_task_key seg; Ok (Str k)
  end.

(** [mapping.get(label, -1)]; [None] is never a key of the mapping. *)
Definition mapping_get (mapping : gmap string Z) (lbl : field) : Z :=
  match lbl with
  | Str s => default (-1)%Z (mapping !! s)
  | _ => (-1)%Z
  end.

Definition lt_start (a b : segment) : bool := flt (seg_start a) (seg_start b).

(** The test of the inner loop for the segment at position [seg_idx] of
    [n] sorted segments. *)
Definition seg_matches (n seg_idx : nat) (seg : segment) (ts : Q) : bool :=
  let is_last := bool_decide (seg_idx = (n - 1)%nat) in
  (fle (seg_start seg) ts && flt ts (seg_end seg)) || (is_last && fle ts (seg_end seg)).

(** The inner loop: the first matching segment decides and ends the scan. *)
Fixpoint scan_segments (mapping : gmap string Z) (key : label_key) (ts : Q)
    (n seg_idx : nat) (segs : list segment) : result Z :=
  match segs with
  | [] => Ok (-1)%Z
  | seg :: rest =>
      if seg_matches n seg_idx seg ts then
        lbl ← seg_label key seg; Ok (mapping_get mapping lbl)
      else scan_segments mapping key ts n (S seg_idx) rest
  end.

Definition assign_indices_by_segments (timestamps : list Q) (segments : list segment)
    (mapping : gmap string Z) (key : label_key) : result (list Z) :=
  match segments with
  | [] => Ok (replicate (length timestamps) (-1)%Z)
  | _ =>
      let segments_sorted := sorted lt_start segments in
      for_each (λ ts, scan_segments mapping key ts (length segments_sorted) 0 segments_sorted)
               timestamps
  end.

(** [{x for ... if ...}] followed by [sorted(...)]: the distinct elements in
    ascending order. *)
Definition subtask_labels_of (ann : EpisodeAnnotations) : list string :=
  omap (λ seg, if truthy (label seg) then Some (or_empty (label seg)) else None)
       (subtasks ann).

Definition enumerate {A} (l : list A) : list (nat * A) := zip (seq 0 (length l)) l.

(** [{label: idx for idx, label in enumerate(labels)}] *)
Definition index_map (labels : list string) : gmap string Z :=
  foldl (λ m p, <[p.2 := Z.of_nat p.1]> m) ∅ (enumerate labels).

(** Returns the rows of the table (label, index) and the map. *)
Definition build_subtasks_dataframe (anns : annotations)
    : list (string * Z) * gmap string Z :=
  let labels :=
    sorted String.ltb
      (elements (list_to_set (anns.*2 ≫= subtask_labels_of) : gset string)) in
  let data := (λ p, (p.2, Z.of_nat p.1)) <$> enumerate labels in
  (data, index_map labels).

(** One turn of the double loop of [build_high_level_dataframe]. *)
Definition add_task (st : list segment * gmap string Z) (seg : segment)
    : result (list segment * gmap string Z) :=
  key ← make_task_key seg;
  match st.2 !! key with
  | Some _ => Ok st
  | None => Ok (st.1 ++ [seg], <[key := Z.of_nat (size st.2)]> st.2)
  end.

(** [for x in l: st = f(st, x)], stopping at the first exception. *)
Fixpoint fold_result {S A} (f : S → A → result S) (st : S) (l : list A) : result S :=
  match l with
  | [] => Ok st
  | x :: l' => st' ← f st x; fold_result f st' l'
  end.

(** Returns the list [tasks] (one segment per distinct key, from which the
    rows of the table are formatted) and [task_map]. *)
Definition build_high_level_dataframe (anns : annotations)
    : result (list segment * gmap string Z) :=
  fold_result add_task ([], ∅) (anns.*2 ≫= high_levels).

(** A row of a data file, as far as export reads it. *)
Record sample_row := { episode_index : Z; timestamp : Q }.

(** [self.annotations.get(ep_idx)] *)
Definition annotations_get (anns : annotations) (ep : Z) : option EpisodeAnnotations :=
  (λ r, r.2.2) <$> list_find (λ p : Z * EpisodeAnnotations, p.1 = ep) anns.

(** [df["episode_index"].unique()]: distinct values in order of appearance. *)
Fixpoint unique_from (seen : list Z) (l : list Z) : list Z :=
  match l with
  | [] => []
  | x :: l' =>
      if decide (x ∈ seen) then unique_from seen l'
      else x :: unique_from (x :: seen) l'
  end.
Definition unique (l : list Z) : list Z := unique_from [] l.

(** [df["episode_index"] == ep_idx] *)
Definition ep_mask (df : list sample_row) (ep : Z) : list bool :=
  (λ r, bool_decide (episode_index r = ep)) <$> df.

(** [df.loc[mask, column]] *)
Fixpoint select {A} (mask : list bool) (l : list A) : list A :=
  match mask, l with
  | b :: mask', x :: l' => if b then x :: select mask' l' else select mask' l'
  | _, _ => []
  end.

(** [df.loc[mask, column] = vals], for as many values as the mask selects. *)
Fixpoint assign_masked (mask : list bool) (vals col : list Z) : list Z :=
  match mask, col with
  | b :: mask', c :: col' =>
      if b then
        match vals with
        | v :: vals' => v :: assign_masked mask' vals' col'
        | [] => c :: col'
        end
      else c :: assign_masked mask' vals col'
  | _, _ => col
  end.

(** [if segments and mapping: df.loc[ep_mask, column] = assign_indices_by_segments(...)] *)
Definition project_column (df : list sample_row) (mask : list bool)
    (segments : list segment) (mapping : gmap string Z) (key : label_key)
    (col : list Z) : result (list Z) :=
  if bool_decide (segments ≠ []) && bool_decide (mapping ≠ ∅) then
    vals ← assign_indices_by_segments (select mask (timestamp <$> df)) segments mapping key;
    Ok (assign_masked mask vals col)
  else Ok col.

Record columns := { subtask_index : list Z; task_index_high_level : list Z }.

(** The body of [for ep_idx in df["episode_index"].unique()]. *)
Definition export_episode (subtask_map task_map : gmap string Z) (anns : annotations)
    (df : list sample_row) (cols : columns) (ep : Z) : result columns :=
  match annotations_get anns ep with
  | None => Ok cols
  | Some ann =>
      let mask := ep_mask df ep in
      sub ← project_column df mask (subtasks ann) subtask_map key_label (subtask_index cols);
      task ← project_column df mask (high_levels ann) task_map key_task_key
               (task_index_high_level cols);
      Ok {| subtask_index := sub; task_index_high_level := task |}
  end.

(** [export_dataset], as far as the two label columns of one data file go:
    the two maps are built once from all annotations, the columns start at
    -1, and every episode present in the file is projected with these maps. *)
Definition export_dataset (anns : annotations) (df : list sample_row) : result columns :=
  let '(_, subtask_map) := build_subtasks_dataframe anns in
  '(_, task_map) ← build_high_level_dataframe anns;
  fold_result (export_episode subtask_map task_map anns df)
    {| subtask_index := replicate (length df) (-1)%Z;
       task_index_high_level := replicate (length df) (-1)%Z |}
    (unique (episode_index <$> df)).

(** Specification vocabulary: the distinct elements of a list in order of
    first occurrence. *)
Fixpoint first_seen_from (seen : list string) (l : list string) : list string :=
  match l with
  | [] => []
  | x :: l' =>
      if decide (x ∈ seen) then first_seen_from seen l'
      else x :: first_seen_from (x :: seen) l'
  end.
Definition first_seen (l : list string) : list string := first_seen_from [] l.

(** The map sends each string of [order] to its position in [order], and
    has no other key. *)
Definition indexes (m : gmap string Z) (order : list string) : Prop :=
  ∀ k z, m !! k = Some z ↔ ∃ i : nat, z = Z.of_nat i ∧ order !! i = Some k.

(** Specification vocabulary: the segment at position [k] of [n] sorted
    segments covers [ts]. *)
Definition covers (n k : nat) (seg : segment) (ts : Q) : Prop :=
  (seg_start seg <= ts ∧ ts < seg_end seg) ∨ (k = (n - 1)%nat ∧ ts <= seg_end seg).

(** [k] is the first position of [segs] whose segment covers [ts]. *)
Definition first_cover (segs : list segment) (ts : Q) (k : nat) (seg : segment) : Prop :=
  segs !! k = Some seg ∧ covers (length segs) k seg ts ∧
  ∀ j s, (j < k)%nat → segs !! j = Some s → ¬ covers (length segs) j s ts.

Definition no_cover (segs : list segment) (ts : Q) : Prop :=
  ∀ k seg, segs !! k = Some seg → ¬ covers (length segs) k seg ts.

(** [v] is the value interval assignment owes to [ts] over the sorted
    segments [segs]: the mapping's index of the label of the first covering
    segment, or -1 when no segment covers [ts]. *)
Definition cover_value (mapping : gmap string Z) (key : label_key)
    (segs : list segment) (ts : Q) (v : Z) : Prop :=
  (∃ k seg lbl, first_cover segs ts k seg ∧ seg_label key seg = Ok lbl ∧
                v = mapping_get mapping lbl)
  ∨ (no_cover segs ts ∧ v = (-1)%Z).

(** The value export owes to a sample row in one of the two label columns:
    -1 without annotations for its episode, else its [cover_value]. *)
Definition row_value (mapping : gmap string Z) (key : label_key)
    (segments : option (list segment)) (ts : Q) (v : Z) : Prop :=
  match segments with
  | None => v = (-1)%Z
  | Some segs => cover_value mapping key (sorted lt_start segs) ts v
  end.

(** The label is not a key of the mapping. *)
Definition unmapped (mapping : gmap string Z) (lbl : field) : Prop :=
  match lbl with Str s => mapping !! s = None | _ => True end.

End App.

(** ** ai_plugin_impl/engine.py: merging and persisting generated segments *)

Module Engine.
Import Py App.

(** The test of [_merge_adjacent_subtasks]: same label string and
    [prev.end >= s.start]. *)
Definition mergeable (prev s : segment) : bool :=
  String.eqb (str (get (label prev) "")) (str (get (label s) ""))
  && fle (seg_start s) (seg_end prev).

(** [prev["end"] = max(float(prev.get("end", 0.0)), float(s.get("end", 0.0)))] *)
Definition extend (prev s : segment) : segment :=
  {| start := start prev; end_ := Some (fmax (seg_end prev) (seg_end s));
     label := label prev; user_prompt := user_prompt prev;
     robot_utterance := robot_utterance prev; robot_response := robot_response prev;
     skill := skill prev; scenario_type := scenario_type prev;
     response_type := response_type prev |}.

(** One turn of the first loop: [out[-1]] is extended in place, or a copy of
    [s] is appended. *)
Definition merge_step (out : list segment) (s : segment) : list segment :=
  match last out with
  | None => [s]
  | Some prev =>
      if mergeable prev s then removelast out ++ [extend prev s] else out ++ [s]
  end.

(** One turn of the second loop. *)
Definition round_segment (s : segment) : segment :=
  {| start := Some (round3 (seg_start s)); end_ := Some (round3 (seg_end s));
     label := label s; user_prompt := user_prompt s;
     robot_utterance := robot_utterance s; robot_response := robot_response s;
     skill := skill s; scenario_type := scenario_type s;
     response_type := response_type s |}.

Definition _merge_adjacent_subtasks (segments : list segment) : list segment :=
  match segments with
  | [] => []
  | _ => round_segment <$> foldl merge_step [] segments
  end.

(** Specification of the merge, by recursion on the input: [prev] is the
    segment accumulated so far, compared with each next segment in turn. *)
Fixpoint merge_chain (prev : segment) (rest : list segment) : list segment :=
  match rest with
  | [] => [prev]
  | s :: rest' =>
      if mergeable prev s then merge_chain (extend prev s) rest'
      else prev :: merge_chain s rest'
  end.

Inductive mode := replace | append.

(** The fields of [AutoSubtasksRequest] and [AutoVQARequest] that decide
    where generation resumes and how its result is stored. *)
Record request := {
  req_episode_index : Z;
  req_mode : mode;
  start_time_s : option Q;
  resume_from_last : option bool;
  merge_adjacent : option bool;
}.

(** [bool(x)] for an optional flag. *)
Definition flag (b : option bool) : bool := default false b.

Definition empty_annotations : EpisodeAnnotations :=
  {| subtasks := []; high_levels := []; qa_labels := [] |}.

(** [DataManager.get_episode_annotations]: the entry is created on first
    access.  Returns the store and the entry. *)
Definition get_episode_annotations (anns : annotations) (ep : Z)
    : annotations * EpisodeAnnotations :=
  match annotations_get anns ep with
  | Some ann => (anns, ann)
  | None => (anns ++ [(ep, empty_annotations)], empty_annotations)
  end.

(** Assignment to an attribute of the entry of [ep], which the store shares. *)
Fixpoint update_annotations (anns : annotations) (ep : Z)
    (f : EpisodeAnnotations → EpisodeAnnotations) : annotations :=
  match anns with
  | [] => []
  | (e, ann) :: anns' =>
      if decide (e = ep) then (e, f ann) :: anns'
      else (e, ann) :: update_annotations anns' ep f
  end.

Definition set_subtasks (segs : list segment) (ann : EpisodeAnnotations) :=
  {| subtasks := segs; high_levels := high_levels ann; qa_labels := qa_labels ann |}.
Definition set_high_levels (segs : list segment) (ann : EpisodeAnnotations) :=
  {| subtasks := subtasks ann; high_levels := segs; qa_labels := qa_labels ann |}.

(** [float(l[-1]["end"])] under [try], [None] on failure or for an empty list. *)
Definition last_end (l : list segment) : option Q := last l ≫= end_.

(** ["k" in s] *)
Definition has (f : field) : bool := match f with Absent => false | _ => true end.

(** The schema normalisation of [generate_subtasks]: [robot_response] is
    renamed to [robot_utterance] when the latter is missing, and an empty
    [robot_response] is dropped. *)
Definition normalize (s : segment) : segment :=
  let s1 :=
    if negb (has (robot_utterance s)) && has (robot_response s) then
      {| start := start s; end_ := end_ s; label := label s;
         user_prompt := user_prompt s; robot_utterance := robot_response s;
         robot_response := Absent; skill := skill s;
         scenario_type := scenario_type s; response_type := response_type s |}
    else s in
  let dropped :=
    {| start := start s1; end_ := end_ s1; label := label s1;
       user_prompt := user_prompt s1; robot_utterance := robot_utterance s1;
       robot_response := Absent; skill := skill s1;
       scenario_type := scenario_type s1; response_type := response_type s1 |} in
  match robot_response s1 with
  | Absent => s1
  | PyNone => dropped
  | Str v => if String.eqb (strip v) "" then dropped else s1
  end.

Section Generation.
(** The two generators, with the inference service, the media cache and the
    configuration they read: given the request and the resolved start time,
    they return the new segments or raise. *)
Context (subtask_generator vqa_generator : request → option Q → result (list segment)).

(** [start_time_s], resumed from the end of the last stored segment when
    the request asks for it. *)
Definition resolve_start (req : request) (anns : annotations)
    (stored : EpisodeAnnotations → list segment) : annotations * option Q :=
  match start_time_s req with
  | None =>
      if flag (resume_from_last req) then
        let '(anns0, ann0) := get_episode_annotations anns (req_episode_index req) in
        (anns0, last_end (stored ann0))
      else (anns, None)
  | Some t => (anns, Some t)
  end.

(** Returns the store after the call and the result of the call. *)
Definition generate_subtasks (req : request) (anns : annotations)
    : annotations * result (list segment) :=
  let '(anns0, start) := resolve_start req anns subtasks in
  match subtask_generator req start with
  | Raise e => (anns0, Raise e)
  | Ok segments =>
      let segments :=
        if flag (merge_adjacent req) then _merge_adjacent_subtasks segments
        else segments in
      let segments := normalize <$> segments in
      let '(anns1, ann) := get_episode_annotations anns0 (req_episode_index req) in
      let stored :=
        match req_mode req with
        | replace => segments
        | append => subtasks ann ++ segments
        end in
      (update_annotations anns1 (req_episode_index req) (set_subtasks stored), Ok segments)
  end.

Definition generate_fake_vqa (req : request) (anns : annotations)
    : annotations * result (list segment) :=
  let '(anns0, start) := resolve_start req anns high_levels in
  match vqa_generator req start with
  | Raise e => (anns0, Raise e)
  | Ok segments =>
      let '(anns1, ann) := get_episode_annotations anns0 (req_episode_index req) in
      let effective_mode := if flag (resume_from_last req) then append else req_mode req in
      let stored :=
        match effective_mode with
        | replace => segments
        | append => high_levels ann ++ segments
        end in
      (update_annotations anns1 (req_episode_index req) (set_high_levels stored), Ok segments)
  end.
End Generation.

End Engine.

(** ** ai_plugin_impl/json_parse.py: structured output extraction *)

(** A model of the standard library's [json.loads] on strings of code points
    below 256: the JSON grammar with Python's extensions ([NaN], [Infinity],
    [-Infinity]), strict strings, and nothing but JSON whitespace around the
    value.  A Python [dict] is kept as the list of its members in textual
    order; a decoded string is a list of code points. *)
Module Json.
Import Py.

Inductive value :=
  | JNull
  | JBool (b : bool)
  | JInt (z : Z)
  | JFloat (literal : string)
  | JConst (name : string)
  | JString (s : list N)
  | JArray (items : list value)
  | JObject (members : list (list N * value)).

Definition dquote : Ascii.ascii := "034"%char.
Definition backslash : Ascii.ascii := "092"%char.

Definition code (c : Ascii.ascii) : N := Ascii.N_of_ascii c.

Definition is_ws (c : Ascii.ascii) : bool :=
  (code c =? 32)%N || (code c =? 9)%N || (code c =? 10)%N || (code c =? 13)%N.

Fixpoint skip_ws (s : string) : string :=
  match s with
  | String c s' => if is_ws c then skip_ws s' else s
  | EmptyString => EmptyString
  end.

(** The rest of [s] after the prefix [p], if [s] starts with [p]. *)
Fixpoint after_prefix (p s : string) : option string :=
  match p, s with
  | EmptyString, _ => Some s
  | String a p', String b s' => if Ascii.eqb a b then after_prefix p' s' else None
  | _, _ => None
  end.

Definition is_digit (c : Ascii.ascii) : bool := (48 <=? code c)%N && (code c <=? 57)%N.

(** The longest run of digits at the head of [s], and what follows. *)
Fixpoint digits (s : string) : string * string :=
  match s with
  | String c s' =>
      if is_digit c then let '(d, r) := digits s' in (String c d, r) else (EmptyString, s)
  | EmptyString => (EmptyString, EmptyString)
  end.

Definition decimal (d : string) : Z :=
  foldl (λ acc c, (10 * acc + Z.of_N (code c - 48))%Z) 0%Z (String.list_ascii_of_string d).

(** [NUMBER_RE]: an optional minus sign, then 0 or a non-zero digit and
    digits; optionally a dot and digits; optionally e or E, a sign and
    digits.  An integer without fraction and exponent is an [int]. *)
Definition match_number (s : string) : option (value * string) :=
  let '(neg, s1) := match after_prefix "-" s with Some r => (true, r) | None => (false, s) end in
  let int_part :=
    match s1 with
    | String c s2 =>
        if Ascii.eqb c "0" then Some ("0"%string, s2)
        else if is_digit c then let '(d, r) := digits s2 in Some (String c d, r)
        else None
    | EmptyString => None
    end in
  match int_part with
  | None => None
  | Some (ip, r1) =>
      let '(frac, r2) :=
        match after_prefix "." r1 with
        | Some r => match digits r with
                    | (EmptyString, _) => (EmptyString, r1)
                    | (d, r') => ("." +:+ d, r')
                    end
        | None => (EmptyString, r1)
        end in
      let '(ex, r3) :=
        match r2 with
        | String e r =>
            if Ascii.eqb e "e" || Ascii.eqb e "E" then
              let '(sign, r') :=
                match r with
                | String c r'' =>
                    if Ascii.eqb c "+" || Ascii.eqb c "-" then (String c EmptyString, r'')
                    else (EmptyString, r)
                | EmptyString => (EmptyString, r)
                end in
              match digits r' with
              | (EmptyString, _) => (EmptyString, r2)
              | (d, r'') => (String e sign +:+ d, r'')
              end
            else (EmptyString, r2)
        | EmptyString => (EmptyString, r2)
        end in
      let sign := if neg then "-"%string else EmptyString in
      match frac, ex with
      | EmptyString, EmptyString =>
          Some (JInt (if neg then - decimal ip else decimal ip), r3)
      | _, _ => Some (JFloat (sign +:+ ip +:+ frac +:+ ex), r3)
      end
  end.

Definition hex_digit (c : Ascii.ascii) : option N :=
  let n := code c in
  if (48 <=? n)%N && (n <=? 57)%N then Some (n - 48)%N
  else if (97 <=? n)%N && (n <=? 102)%N then Some (n - 87)%N
  else if (65 <=? n)%N && (n <=? 70)%N then Some (n - 55)%N
  else None.

(** Four hexadecimal digits. *)
Definition hex4 (s : string) : option (N * string) :=
  match s with
  | String a (String b (String c (String d r))) =>
      x ← hex_digit a; y ← hex_digit b; z ← hex_digit c; w ← hex_digit d;
      Some ((((x * 16 + y) * 16 + z) * 16 + w)%N, r)
  | _ => None
  end.

(** [scanstring], after the opening quote: the decoded string and the rest
    after the closing quote. *)
Fixpoint scanstring (fuel : nat) (s : string) : option (list N * string) :=
  match fuel with
  | O => None
  | S fuel' =>
      match s with
      | EmptyString => None
      | String c r =>
          if Ascii.eqb c dquote then Some ([], r)
          else if Ascii.eqb c backslash then
            match r with
            | EmptyString => None
            | String e r' =>
                let simple (n : N) :=
                  '(cs, rest) ← scanstring fuel' r'; Some (n :: cs, rest) in
                if Ascii.eqb e dquote then simple 34%N
                else if Ascii.eqb e backslash then simple 92%N
                else if Ascii.eqb e "/" then simple 47%N
                else if Ascii.eqb e "b" then simple 8%N
                else if Ascii.eqb e "f" then simple 12%N
                else if Ascii.eqb e "n" then simple 10%N
                else if Ascii.eqb e "r" then simple 13%N
                else if Ascii.eqb e "t" then simple 9%N
                else if Ascii.eqb e "u" then
                  '(u, r1) ← hex4 r';
                  let pair :=
                    if (55296 <=? u)%N && (u <=? 56319)%N then
                      r2 ← after_prefix (String backslash "u") r1;
                      '(u2, r3) ← hex4 r2;
                      if (56320 <=? u2)%N && (u2 <=? 57343)%N then
                        Some ((65536 + (u - 55296) * 1024 + (u2 - 56320))%N, r3)
                      else None
                    else None in
                  let '(n, r4) := default (u, r1) pair in
                  '(cs, rest) ← scanstring fuel' r4; Some (n :: cs, rest)
                else None
            end
          else if (code c <? 32)%N then None
          else '(cs, rest) ← scanstring fuel' r; Some (code c :: cs, rest)
      end
  end.

(** [scan_once], with [JSONObject] and [JSONArray] after their first member:
    the value at the head of [s] and the rest. *)
Fixpoint scan_once (fuel : nat) (s : string) : option (value * string) :=
  match fuel with
  | O => None
  | S fuel' =>
      match s with
      | EmptyString => None
      | String c r =>
          if Ascii.eqb c dquote then
            '(str, rest) ← scanstring (String.length r) r; Some (JString str, rest)
          else if Ascii.eqb c "{" then
            match skip_ws r with
            | String c1 r1 =>
                if Ascii.eqb c1 "}" then Some (JObject [], r1)
                else if Ascii.eqb c1 dquote then
                  '(ms, rest) ← members fuel' r1; Some (JObject ms, rest)
                else None
            | EmptyString => None
            end
          else if Ascii.eqb c "[" then
            match skip_ws r with
            | String c1 r1 =>
                if Ascii.eqb c1 "]" then Some (JArray [], r1)
                else '(vs, rest) ← elements fuel' (String c1 r1); Some (JArray vs, rest)
            | EmptyString => None
            end
          else
            match after_prefix "null" s, after_prefix "true" s, after_prefix "false" s with
            | Some rest, _, _ => Some (JNull, rest)
            | _, Some rest, _ => Some (JBool true, rest)
            | _, _, Some rest => Some (JBool false, rest)
            | _, _, _ =>
                match match_number s with
                | Some r => Some r
                | None =>
                    match after_prefix "NaN" s, after_prefix "Infinity" s,
                          after_prefix "-Infinity" s with
                    | Some rest, _, _ => Some (JConst "NaN", rest)
                    | _, Some rest, _ => Some (JConst "Infinity", rest)
                    | _, _, Some rest => Some (JConst "-Infinity", rest)
                    | _, _, _ => None
                    end
                end
            end
      end
  end
(** The members of an object, from just after the quote that opens a key. *)
with members (fuel : nat) (s : string) : option (list (list N * value) * string) :=
  match fuel with
  | O => None
  | S fuel' =>
      '(key, r1) ← scanstring (String.length s) s;
      r2 ← after_prefix ":" (skip_ws r1);
      '(v, r3) ← scan_once fuel' (skip_ws r2);
      match skip_ws r3 with
      | String c r4 =>
          if Ascii.eqb c "}" then Some ([(key, v)], r4)
          else if Ascii.eqb c "," then
            r5 ← after_prefix (String dquote EmptyString) (skip_ws r4);
            '(ms, rest) ← members fuel' r5; Some ((key, v) :: ms, rest)
          else None
      | EmptyString => None
      end
  end
(** The items of an array, from the first character of an item. *)
with elements (fuel : nat) (s : string) : option (list value * string) :=
  match fuel with
  | O => None
  | S fuel' =>
      '(v, r1) ← scan_once fuel' s;
      match skip_ws r1 with
      | String c r2 =>
          if Ascii.eqb c "]" then Some ([v], r2)
          else if Ascii.eqb c "," then
            '(vs, rest) ← elements fuel' (skip_ws r2); Some (v :: vs, rest)
          else None
      | EmptyString => None
      end
  end.

(** [json.loads(s)]: [None] stands for [JSONDecodeError]. *)
Definition loads (s : string) : option value :=
  '(v, rest) ← scan_once (S (String.length s)) (skip_ws s);
  match skip_ws rest with
  | EmptyString => Some v
  | _ => None
  end.

End Json.

Module JsonParse.
Import Py.

(** [_JSON_BLOCK_RE], matched ignoring case: a fence of three backquotes,
    optionally the word json, optional whitespace, then group 1 (an opening
    brace, as few characters as possible, a closing brace), optional
    whitespace and a closing fence. *)

Definition lower (c : Ascii.ascii) : Ascii.ascii :=
  let n := Ascii.nat_of_ascii c in
  if ((65 <=? n) && (n <=? 90))%nat then Ascii.ascii_of_nat (n + 32) else c.

(** The rest of [s] after the prefix [p], compared without case. *)
Fixpoint after_prefix_nocase (p s : string) : option string :=
  match p, s with
  | EmptyString, _ => Some s
  | String a p', String b s' =>
      if Ascii.eqb (lower a) (lower b) then after_prefix_nocase p' s' else None
  | _, _ => None
  end.

Definition fence : string := "```".

(** The rest of the pattern after the opening brace: the shortest run of
    characters ending in a closing brace that optional whitespace and a
    fence follow.  Returns the run, brace included. *)
Fixpoint lazy_body (s : string) : option string :=
  match s with
  | EmptyString => None
  | String c r =>
      if Ascii.eqb c "}" && bool_decide (is_Some (Json.after_prefix fence (lstrip r)))
      then Some (String c EmptyString)
      else b ← lazy_body r; Some (String c b)
  end.

(** A match of the pattern at the head of [s]: its group 1. *)
Definition match_block (s : string) : option string :=
  r1 ← Json.after_prefix fence s;
  let r2 := default r1 (after_prefix_nocase "json" r1) in
  match lstrip r2 with
  | String c r3 => if Ascii.eqb c "{" then b ← lazy_body r3; Some (String c b) else None
  | EmptyString => None
  end.

(** [_JSON_BLOCK_RE.search(text)]: group 1 of the leftmost match. *)
Fixpoint search (s : string) : option string :=
  match match_block s with
  | Some g => Some g
  | None => match s with
            | EmptyString => None
            | String _ r => search r
            end
  end.

(** [text.find(c)] and [text.rfind(c)]; [None] stands for -1. *)
Fixpoint find (c : Ascii.ascii) (s : string) : option nat :=
  match s with
  | EmptyString => None
  | String a r => if Ascii.eqb a c then Some 0%nat else S <$> find c r
  end.

Fixpoint rfind (c : Ascii.ascii) (s : string) : option nat :=
  match s with
  | EmptyString => None
  | String a r =>
      match rfind c r with
      | Some i => Some (S i)
      | None => if Ascii.eqb a c then Some 0%nat else None
      end
  end.

Abbreviation dict := (list (list N * Json.value)).

Section Extract.
(** [json.loads]; [None] stands for an exception. *)
Context (json_loads : string → option Json.value).

(** [obj = json.loads(candidate)] outside any [try], followed by
    [if isinstance(obj, dict): return obj]: [Ok None] when the function
    goes on. *)
Definition loads_dict (candidate : string) : result (option dict) :=
  match json_loads candidate with
  | None => Raise JSONDecodeError
  | Some (Json.JObject d) => Ok (Some d)
  | Some _ => Ok None
  end.

(** The third candidate, [text[start : end + 1]], when there is one. *)
Definition braces (text : string) : option string :=
  match find "{" text, rfind "}" text with
  | Some start, Some end_ =>
      if (start <? end_)%nat then Some (String.substring start (end_ + 1 - start) text)
      else None
  | _, _ => None
  end.

Definition extract_json_object (text : string) : result dict :=
  let text := strip text in
  if String.eqb text "" then Raise (ValueError "empty model output") else
  match json_loads text with
  | Some (Json.JObject d) => Ok d
  | _ =>
      fenced ← match search text with
               | Some candidate => loads_dict candidate
               | None => Ok None
               end;
      match fenced with
      | Some d => Ok d
      | None =>
          braced ← match braces text with
                   | Some candidate => loads_dict candidate
                   | None => Ok None
                   end;
          match braced with
          | Some d => Ok d
          | None => Raise (ValueError "could not parse JSON object from model output")
          end
      end
  end.
End Extract.

End JsonParse.

(** ** Episode timing: ai_plugin_impl/adapter.py and
       [DataManager._calculate_video_offsets] of app.py *)

Module Adapter.
Import Py.

(** A row of the episode metadata table.  The integer columns are present
    or not; [cells] holds the non-null cells of the float columns by column
    name (a null or NaN cell has no entry). *)
Record episode_row := {
  ep_index : Z;
  ep_length : option Z;
  dataset_from_index : option Z;
  dataset_to_index : option Z;
  cells : gmap string Q;
}.

Record dataframe := { columns : list string; rows : list episode_row }.

(** [info.json], as far as timing reads it. *)
Record info_json := { info_fps : option Q }.

Record manager := {
  info : option info_json;
  episodes_df : option dataframe;
  video_key : option string;
}.

Record EpisodeTiming := {
  fps : Q;
  length : Z;
  duration : Q;
  video_start_time : Q;
  video_end_time : Q;
}.

(** [int(row.get("length", row.get("dataset_to_index", 0) - row.get("dataset_from_index", 0)))] *)
Definition row_length (row : episode_row) : Z :=
  match ep_length row with
  | Some n => n
  | None => (default 0 (dataset_to_index row) - default 0 (dataset_from_index row))%Z
  end.

(** [length / fps if fps else 0.0] *)
Definition duration_of (len : Z) (fps : Q) : Q :=
  if Qeq_bool fps 0 then 0 else Qred (inject_Z len / fps).

Definition from_ts_col (video_key : string) : string :=
  "videos/" +:+ video_key +:+ "/from_timestamp".
Definition to_ts_col (video_key : string) : string :=
  "videos/" +:+ video_key +:+ "/to_timestamp".

(** The entry computed for one row. *)
Definition row_offsets (df : dataframe) (video_key : string) (fps : Q)
    (row : episode_row) : Q * Q :=
  let has_timestamp_cols :=
    bool_decide (from_ts_col video_key ∈ columns df)
    && bool_decide (to_ts_col video_key ∈ columns df) in
  let fallback := (0, duration_of (row_length row) fps) in
  if has_timestamp_cols then
    match cells row !! from_ts_col video_key, cells row !! to_ts_col video_key with
    | Some from_ts, Some to_ts => (from_ts, to_ts)
    | _, _ => fallback
    end
  else fallback.

(** The result dict maps an episode index to (video_start_time,
    video_end_time); a later row with the same index overwrites. *)
Definition _calculate_video_offsets (episodes_df : option dataframe)
    (video_key : string) (fps : Q) : gmap Z (Q * Q) :=
  match episodes_df with
  | None => ∅
  | Some df =>
      foldl (λ result row, <[ep_index row := row_offsets df video_key fps row]> result)
            ∅ (rows df)
  end.

(** Truthiness of an optional string, and [a or b]. *)
Definition nonempty (s : option string) : bool :=
  match s with Some s => negb (String.eqb s "") | None => false end.
Definition or_else (a b : option string) : option string := if nonempty a then a else b.

Definition get_episode_timing (m : manager) (episode_index : Z)
    (video_key_arg : option string) : result EpisodeTiming :=
  match episodes_df m, info m with
  | Some df, Some inf =>
      let video_key := or_else video_key_arg (video_key m) in
      let fps := default 30 (info_fps inf) in
      match filter (λ r, ep_index r = episode_index) (rows df) with
      | [] => Raise (ValueError "Episode not found")
      | row :: _ =>
          let length := row_length row in
          let duration := duration_of length fps in
          let '(video_start_time, video_end_time) :=
            if nonempty video_key then
              let offsets := _calculate_video_offsets (Some df) (default "" video_key) fps in
              match offsets !! episode_index with
              | Some info => info
              | None => (0, duration)
              end
            else (0, duration) in
          Ok {| fps := fps; length := length; duration := duration;
                video_start_time := video_start_time;
                video_end_time := video_end_time |}
      end
  | _, _ => Raise (ValueError "dataset not loaded")
  end.

(** Specification vocabulary: the metadata of [row] carries explicit
    offsets [from_ts], [to_ts] for the video stream [key]. *)
Definition explicit_offsets (df : dataframe) (key : option string)
    (row : episode_row) (from_ts to_ts : Q) : Prop :=
  ∃ k, key = Some k ∧ k ≠ "" ∧
       from_ts_col k ∈ columns df ∧ to_ts_col k ∈ columns df ∧
       cells row !! from_ts_col k = Some from_ts ∧
       cells row !! to_ts_col k = Some to_ts.

Definition no_offsets (df : dataframe) (key : option string) (row : episode_row) : Prop :=
  ∀ from_ts to_ts, ¬ explicit_offsets df key row from_ts to_ts.

End Adapter.

(** ** ai_plugin_impl/sampler.py: the media cache *)

Module Sampler.
Import Py.

(** The files of the machine: contents by path. *)
Abbreviation files := (gmap string (list Byte.byte)).

(** What the module calls outside the repository. *)
Class Externals := {
  (** [hashlib.sha1(s.encode("utf-8")).hexdigest()] *)
  sha1_hexdigest : string → string;
  (** [f"{x:.nf}"] *)
  format_fixed : nat → Q → string;
  (** [f"{x}"] *)
  format_float : Q → string;
  (** [subprocess.run(cmd, check=True, ...)]: the files after the run and,
      for a non-zero exit status, the text of stderr. *)
  ffmpeg : list string → files → files * option string;
}.

(** What an operation does to the machine, in order. *)
Inductive event :=
  | Mkdir (path : string)
  | Run (cmd : list string)
  | Rename (src dst : string).

Record world := { fs : files; trace : list event }.

Record FrameSampler := { cache_dir : string; image_max_side : Z }.

(** [cache_dir / name] *)
Definition child (dir name : string) : string := dir +:+ "/" +:+ name.

(** [p.exists() and p.stat().st_size > 0] *)
Definition valid (f : files) (p : string) : bool :=
  match f !! p with
  | Some (_ :: _) => true
  | _ => false
  end.

Definition record (e : event) (w : world) : world :=
  {| fs := fs w; trace := trace w ++ [e] |}.

(** [subprocess.run(cmd, ...)] in a world. *)
Definition run `{Externals} (cmd : list string) (w : world) : world * option string :=
  let '(f, err) := ffmpeg cmd (fs w) in
  ({| fs := f; trace := trace w ++ [Run cmd] |}, err).

Section Sampler.
Context `{Externals} (self : FrameSampler).

Definition _sha1 (s : string) : string := sha1_hexdigest s.

Definition _frame_path (video_path : string) (ts_sec : Q) : string :=
  let key := _sha1 (video_path +:+ "|" +:+ format_fixed 6 ts_sec +:+ "|"
                    +:+ pretty (image_max_side self)) in
  child (cache_dir self) ("frame_" +:+ key +:+ ".jpg").

Definition frame_cmd (video_path : string) (ts_sec : Q) (out_path : string)
    : list string :=
  let s := pretty (image_max_side self) in
  let vf := "scale=if(gt(iw\,ih)\," +:+ s +:+ "\,-2):if(gt(iw\,ih)\,-2\," +:+ s
            +:+ "):flags=bicubic" in
  [ "ffmpeg"; "-hide_banner"; "-loglevel"; "error"; "-ss"; format_float ts_sec;
    "-i"; video_path; "-frames:v"; "1"; "-q:v"; "2"; "-vf"; vf; "-y"; out_path ].

(** Returns the result of the call and the world after it. *)
Definition extract_frame (w : world) (video_path : string) (ts_sec : Q)
    : result string * world :=
  let out_path := _frame_path video_path ts_sec in
  if valid (fs w) out_path then (Ok out_path, w)
  else
    let cmd := frame_cmd video_path ts_sec out_path in
    let w1 := record (Mkdir (cache_dir self)) w in
    let '(w2, err) := run cmd w1 in
    match err with
    | Some stderr => (Raise (RuntimeError ("ffmpeg failed: " +:+ stderr)), w2)
    | None =>
        if valid (fs w2) out_path then (Ok out_path, w2)
        else (Raise (RuntimeError "ffmpeg produced empty frame"), w2)
    end.

Definition _clip_path (video_path : string) (start_sec end_sec fps : Q) : string :=
  let key := _sha1 (video_path +:+ "|" +:+ format_fixed 3 start_sec +:+ "|"
                    +:+ format_fixed 3 end_sec +:+ "|" +:+ format_fixed 3 fps +:+ "|"
                    +:+ pretty (image_max_side self)) in
  child (cache_dir self) ("clip_" +:+ key +:+ ".mp4").

(** [if end_sec <= start_sec: end_sec = start_sec + 0.05] *)
Definition clamp_end (start_sec end_sec : Q) : Q :=
  if fle end_sec start_sec then Qred (start_sec + (5 # 100)) else end_sec.

(** [if fps <= 1e-6: fps = 1.0] *)
Definition clamp_fps (fps : Q) : Q :=
  if fle fps (1 # 1000000) then 1 else fps.

Definition clip_cmd (video_path : string) (start_sec end_sec fps : Q)
    (out_path : string) : list string :=
  let s := pretty (image_max_side self) in
  let scale := "scale=" +:+ s +:+ ":" +:+ s
               +:+ ":force_original_aspect_ratio=decrease:flags=bicubic" in
  let make_even := "pad=ceil(iw/2)*2:ceil(ih/2)*2" in
  let vf := "fps=" +:+ format_float fps +:+ "," +:+ scale +:+ "," +:+ make_even in
  [ "ffmpeg"; "-hide_banner"; "-loglevel"; "error"; "-ss"; format_float start_sec;
    "-to"; format_float end_sec; "-i"; video_path; "-an"; "-vf"; vf;
    "-c:v"; "libx264"; "-pix_fmt"; "yuv420p"; "-movflags"; "+faststart";
    "-y"; out_path ].

Definition extract_clip (w : world) (video_path : string) (start_sec end_sec fps : Q)
    : result string * world :=
  let end_sec := clamp_end start_sec end_sec in
  let fps := clamp_fps fps in
  let out_path := _clip_path video_path start_sec end_sec fps in
  if valid (fs w) out_path then (Ok out_path, w)
  else
    let cmd := clip_cmd video_path start_sec end_sec fps out_path in
    let w1 := record (Mkdir (cache_dir self)) w in
    let '(w2, err) := run cmd w1 in
    match err with
    | Some stderr => (Raise (RuntimeError ("ffmpeg clip failed: " +:+ stderr)), w2)
    | None =>
        if valid (fs w2) out_path then (Ok out_path, w2)
        else (Raise (RuntimeError "ffmpeg produced empty clip"), w2)
    end.

(** The two operations of the cache, by their arguments. *)
Inductive operation :=
  | frame (ts_sec : Q)
  | clip (start_sec end_sec fps : Q).

Definition extract (w : world) (video_path : string) (op : operation)
    : result string * world :=
  match op with
  | frame ts_sec => extract_frame w video_path ts_sec
  | clip start_sec end_sec fps => extract_clip w video_path start_sec end_sec fps
  end.
End Sampler.

(** Specification vocabulary. *)

(** The number of transcoder runs in a trace. *)
Definition is_run (e : event) : bool := match e with Run _ => true | _ => false end.
Definition transcoder_runs (tr : list event) : nat :=
  length (List.filter is_run tr).

(** The events of [w1] that [w] does not have yet. *)
Definition new_events (w w1 : world) : list event := drop (length (trace w)) (trace w1).

(** Every transcoder run of [tr] wrote to a path other than [final], and a
    rename to [final] is part of [tr]. *)
Definition writes_via_rename (tr : list event) (final : string) : Prop :=
  ∀ cmd, Run cmd ∈ tr → last cmd ≠ Some final ∧ ∃ tmp, Rename tmp final ∈ tr.

End Sampler.

(** ** app.py: question flags and byte ranges *)

Module AppRest.
Import Py App.

(** [round(x, n)] for [scale] = 10^n. *)
Definition round_to (scale : positive) (x : Q) : Q :=
  Qred (round_half_even (x * (Z.pos scale # 1)) # scale).

(** [float(fps) if fps else 30.0] *)
Definition fps_or_default (fps : Q) : Q := if Qeq_bool fps 0 then 30 else fps.

(** A row of the table of question labels. *)
Record qa_row := {
  qa_episode_index : Z;
  qa_frame_idx : Z;
  qa_timestamp : Q;
}.

(** [build_qa_labels_dataframe]: one row per question label, with the
    timestamp of its frame rounded to six decimals. *)
Definition build_qa_labels_dataframe (anns : annotations) (fps : Q) : list qa_row :=
  let fps := fps_or_default fps in
  '(ep_idx, ann) ← anns;
  (λ item,
     let ts := if flt 0 fps then Qred (inject_Z (frame_idx item) / fps) else 0 in
     {| qa_episode_index := ep_idx; qa_frame_idx := frame_idx item;
        qa_timestamp := round_to 1000000 ts |}) <$> qa_labels ann.

Definition assign_vqa_flags (timestamps : list Q) (qa_labels : list qa_label) (fps : Q)
    : list Z :=
  match qa_labels with
  | [] => replicate (length timestamps) 0%Z
  | _ =>
      let frame_set : gset Z := list_to_set (frame_idx <$> qa_labels) in
      if decide (frame_set = ∅) then replicate (length timestamps) 0%Z
      else
        let fps := fps_or_default fps in
        (λ ts, if decide (round_half_even (ts * fps) ∈ frame_set) then 1%Z else 0%Z)
          <$> timestamps
  end.

(** [parse_range]: the header must start with [bytes=], digits, a dash;
    digits after the dash are optional.  (The interpreter's limit on the
    length of a decimal literal passed to [int] is not modelled.) *)
Definition parse_range (range_header : string) (file_size : Z) : option (Z * Z) :=
  rest ← Json.after_prefix "bytes=" range_header;
  let '(first, rest1) := Json.digits rest in
  if String.eqb first "" then None
  else
    rest2 ← Json.after_prefix "-" rest1;
    let '(second, _) := Json.digits rest2 in
    let start := Json.decimal first in
    let end_ := if String.eqb second "" then (file_size - 1)%Z else Json.decimal second in
    if (file_size <=? start)%Z then None
    else Some (start, Z.min end_ (file_size - 1)).

(** The labelling of one data file in [export_dataset], for the two label
    columns: both start at -1 and every episode present in the file is
    projected with the given maps. *)
Definition label_file (subtask_map task_map : gmap string Z) (anns : annotations)
    (df : list sample_row) : result columns :=
  fold_result (export_episode subtask_map task_map anns df)
    {| subtask_index := replicate (length df) (-1)%Z;
       task_index_high_level := replicate (length df) (-1)%Z |}
    (unique (episode_index <$> df)).

(** The request body of the annotation route, as validated by the schema:
    of a high-level segment only [skill], [scenario_type] and
    [response_type] may be left out. *)
Record SegmentSubtask := { sub_start : Q; sub_end : Q; sub_label : string }.

Record SegmentHighLevel := {
  hl_start : Q;
  hl_end : Q;
  hl_user_prompt : string;
  hl_robot_utterance : string;
  hl_skill : option string;
  hl_scenario_type : option string;
  hl_response_type : option string;
}.

Record EpisodeAnnotationsPayload := {
  payload_episode_index : Z;
  payload_subtasks : list SegmentSubtask;
  payload_high_levels : list SegmentHighLevel;
  payload_qa_labels : list qa_label;
}.

(** The value that [seg.dict()] holds for an optional field: the key is
    always there, with [None] for a field that was left out. *)
Definition optional (v : option string) : field :=
  match v with Some s => Str s | None => PyNone end.

(** [seg.dict()] *)
Definition subtask_dict (seg : SegmentSubtask) : segment :=
  subtask (sub_start seg) (sub_end seg) (sub_label seg).

Definition high_level_dict (seg : SegmentHighLevel) : segment :=
  {| start := Some (hl_start seg); end_ := Some (hl_end seg); label := Absent;
     user_prompt := Str (hl_user_prompt seg);
     robot_utterance := Str (hl_robot_utterance seg);
     robot_response := Absent;
     skill := optional (hl_skill seg);
     scenario_type := optional (hl_scenario_type seg);
     response_type := optional (hl_response_type seg) |}.

(** [d[k] = v]: an existing key keeps its place, a new one goes last. *)
Fixpoint dict_set (anns : annotations) (ep : Z) (ann : EpisodeAnnotations) : annotations :=
  match anns with
  | [] => [(ep, ann)]
  | (e, a) :: anns' =>
      if decide (e = ep) then (e, ann) :: anns' else (e, a) :: dict_set anns' ep ann
  end.

(** [DataManager.set_episode_annotations], on the annotations in memory. *)
Definition set_episode_annotations (anns : annotations)
    (payload : EpisodeAnnotationsPayload) : annotations :=
  dict_set anns (payload_episode_index payload)
    {| subtasks := subtask_dict <$> payload_subtasks payload;
       high_levels := high_level_dict <$> payload_high_levels payload;
       qa_labels := payload_qa_labels payload |}.

End AppRest.

(** ** ai_plugin_impl/strategy_subtask.py: windows over an episode *)

Module StrategySubtask.
Import Py App Adapter.

(** [_clip_fps(num_frames, duration_s, min_fps=, max_fps=)] *)
Definition _clip_fps (num_frames : Z) (duration_s min_fps max_fps : Q) : Q :=
  let duration_s := fmax duration_s (1 # 1000) in
  let num_frames := Z.max num_frames 1 in
  let fps := Qred (inject_Z num_frames / duration_s) in
  let fps := if flt fps min_fps then min_fps else fps in
  if flt max_fps fps then max_fps else fps.

(** [_linspace_times(start, end, n)] *)
Definition _linspace_times (start end_sec : Q) (n : Z) : list Q :=
  if (n <=? 1)%Z then [start]
  else if fle end_sec start then [start]
  else
    let step := Qred ((end_sec - start) / inject_Z (n - 1)) in
    (λ i, Qred (start + inject_Z i * step)) <$> seqZ 0 n.

(** What one turn of the labelling loop hands to the sampler and the model. *)
Record window := {
  abs_start : Q;
  abs_end : Q;
  clip_fps : Q;
  seg_start_s : Q;
  seg_end_s : Q;
}.

Section Generate.
(** The clip of a window is sampled and the model is asked for its label:
    the text under [label] of the reply, or the exception of the sampler, the
    client or the extraction. *)
Context (reply_label : window → result string).
(** The episode summary and the video path, computed before the loop. *)
Context (prepare : result unit).

(** [_predict_label_over_segment]: the label is stripped and must not be
    empty. *)
Definition _predict_label_over_segment (w : window) : result string :=
  text ← reply_label w;
  let label := strip text in
  if String.eqb label "" then Raise (ValueError "model returned empty label")
  else Ok label.

Definition window_at (timing : EpisodeTiming) (stride_s : Q) (segment_frames : Z)
    (t : Q) : window :=
  let seg_start := t in
  let seg_end := fmin (duration timing) (Qred (seg_start + stride_s)) in
  let vst := video_start_time timing in
  let vet := video_end_time timing in
  {| abs_start := fmin (fmax (Qred (vst + seg_start)) vst) (Qred (vet - (1 # 1000)));
     abs_end := fmin (fmax (Qred (vst + seg_end)) (Qred (vst + seg_start + (1 # 1000)))) vet;
     clip_fps := _clip_fps segment_frames (fmax (1 # 1000) (Qred (seg_end - seg_start)))
                   (1 # 2) 6;
     seg_start_s := seg_start;
     seg_end_s := seg_end |}.

(** [while t < duration and steps < max_steps], with [steps_left] standing
    for [max_steps - steps]. *)
Fixpoint label_windows (timing : EpisodeTiming) (stride_s : Q) (segment_frames : Z)
    (steps_left : nat) (t : Q) (segments : list segment) : result (list segment) :=
  match steps_left with
  | O => Ok segments
  | S steps_left' =>
      if flt t (duration timing) then
        let w := window_at timing stride_s segment_frames t in
        label ← _predict_label_over_segment w;
        label_windows timing stride_s segment_frames steps_left' (Qred (t + stride_s))
          (segments ++ [subtask (round3 (seg_start_s w)) (round3 (seg_end_s w)) label])
      else Ok segments
  end.

(** The start of the first window: [max(0.0, min(t0, max(0.0, duration - 1e-3)))]. *)
Definition first_start (dur : Q) (start_time_s : option Q) : Q :=
  fmax 0 (fmin (default 0 start_time_s) (fmax 0 (Qred (dur - (1 # 1000))))).

(** [AutoSubtaskGenerator.generate] *)
Definition generate (m : manager) (episode_index : Z) (stride_s : Q)
    (segment_frames max_steps : Z) (start_time_s : option Q) : result (list segment) :=
  timing ← get_episode_timing m episode_index None;
  if fle (duration timing) 0 then Ok []
  else
    let stride_s := fmax (1 # 1000000) stride_s in
    let max_steps := Z.max 1 max_steps in
    let segment_frames := Z.max 1 segment_frames in
    _ ← prepare;
    label_windows timing stride_s segment_frames (Z.to_nat max_steps)
      (first_start (duration timing) start_time_s) [].
End Generate.

End StrategySubtask.

(** ** ai_plugin_impl/strategy_vqa.py: deduplicated question windows *)

Module StrategyVqa.
Import Py App Adapter.

(** [str.lower] on code points below 256. *)
Definition lower (c : Ascii.ascii) : Ascii.ascii :=
  let n := Ascii.nat_of_ascii c in
  if ((65 <=? n) && (n <=? 90) || (192 <=? n) && (n <=? 222) && negb (n =? 215))%nat
  then Ascii.ascii_of_nat (n + 32) else c.

Fixpoint map_string (f : Ascii.ascii → Ascii.ascii) (s : string) : string :=
  match s with
  | EmptyString => EmptyString
  | String c r => String (f c) (map_string f r)
  end.

(** [re.sub(r"\s+", " ", s)]; [in_run] tells that the previous character was
    whitespace. *)
Fixpoint collapse_spaces (in_run : bool) (s : string) : string :=
  match s with
  | EmptyString => EmptyString
  | String c r =>
      if is_space c then
        if in_run then collapse_spaces true r else String " " (collapse_spaces true r)
      else String c (collapse_spaces false r)
  end.

(** A character of the class [a-z0-9 ]. *)
Definition kept (c : Ascii.ascii) : bool :=
  let n := Ascii.nat_of_ascii c in
  ((97 <=? n) && (n <=? 122) || (48 <=? n) && (n <=? 57) || (n =? 32))%nat.

Fixpoint filter_string (p : Ascii.ascii → bool) (s : string) : string :=
  match s with
  | EmptyString => EmptyString
  | String c r => if p c then String c (filter_string p r) else filter_string p r
  end.

Definition _norm_q (s : string) : string :=
  let s := map_string lower s in
  let s := strip (collapse_spaces false s) in
  filter_string kept s.

(** The reply of the model to one window, as the loop reads it:
    [bool(obj.get("skip", False))], [str(obj.get("question", ""))] and
    [str(obj.get("answer", ""))]. *)
Record reply := { skip : bool; question : string; answer : string }.

Record tags := { tag_scenario_type : string; tag_response_type : string; tag_skill : string }.

Section Generate.
(** The window at [t] is sampled and the model is asked, given the set of
    normalised questions kept so far (the prompt quotes some of them). *)
Context (ask : Q → gset string → result reply).
Context (dur stride_s : Q) (tg : tags).

Definition qa_segment (t : Q) (q a : string) : segment :=
  {| start := Some (round3 t);
     end_ := Some (round3 (fmin dur (Qred (t + stride_s))));
     label := Absent; user_prompt := Str q; robot_utterance := Str a;
     robot_response := Absent; skill := Str (tag_skill tg);
     scenario_type := Str (tag_scenario_type tg);
     response_type := Str (tag_response_type tg) |}.

(** [while t < timing.duration - 1e-6]; [None] when [fuel] turns do not
    reach the end of the loop.  A reply holds no CJK character under the
    string model, so the English-only test never skips. *)
Fixpoint qa_loop (fuel : nat) (t : Q) (used_q : gset string) (segments : list segment)
    : option (result (list segment)) :=
  match fuel with
  | O => None
  | S fuel' =>
      if flt t (Qred (dur - (1 # 1000000))) then
        match ask t used_q with
        | Raise e => Some (Raise e)
        | Ok r =>
            let next := Qred (t + stride_s) in
            if skip r then qa_loop fuel' next used_q segments
            else
              let q := strip (question r) in
              let a := strip (answer r) in
              if String.eqb q "" || String.eqb a "" then qa_loop fuel' next used_q segments
              else
                let nq := _norm_q q in
                if decide (nq ∈ used_q) then qa_loop fuel' next used_q segments
                else qa_loop fuel' next ({[ nq ]} ∪ used_q)
                       (segments ++ [qa_segment t q a])
        end
      else Some (Ok segments)
  end.
End Generate.

(** [AutoVQAGenerator.generate], after the timing and the video path were
    obtained: the stride is at least 1e-3 and the start lies in the
    episode. *)
Definition generate (ask : Q → gset string → result reply) (fuel : nat)
    (timing : EpisodeTiming) (stride_s : Q) (start_time_s : option Q) (tg : tags)
    : option (result (list segment)) :=
  let stride_s := fmax stride_s (1 # 1000) in
  let start := StrategySubtask.first_start (duration timing) start_time_s in
  qa_loop ask (duration timing) stride_s tg fuel start ∅ [].

End StrategyVqa.

(** ** app.py: importing subtask segments from sample directories *)

Module AppImport.
Import Py App Engine.

(** A key of a decoded JSON object. *)
Definition key (s : string) : list N := Json.code <$> String.list_ascii_of_string s.

(** [d.get(k)] on a decoded object: of several members with the same key
    the last one counts. *)
Definition dict_get (d : list (list N * Json.value)) (k : list N) : option Json.value :=
  (λ p, p.2) <$> last (filter (λ p, p.1 = k) d).

(** What is found at [root / sample_NNNNNN / segments.json]. *)
Inductive sample_file :=
  | NoFile
  | Unreadable
  | Parsed (data : Json.value).

Record import_stats := {
  episodes_updated : Z;
  segments_total : Z;
  missing_samples : Z;
}.

Section ImportSubtasks.
(** The built-ins [float] ([None] when it raises) and [str] on decoded
    values, and the files under the root. *)
Context (py_float : Json.value → option Q) (py_str : Json.value → string).
Context (read : Z → sample_file).

(** [x is None] for the result of [d.get(k)]. *)
Definition is_none (v : option Json.value) : bool :=
  match v with None | Some Json.JNull => true | _ => false end.

(** The body of [for seg in segments_in]: [None] stands for [continue]. *)
Definition convert_segment (fps : Q) (seg : Json.value) : option segment :=
  match seg with
  | Json.JObject d =>
      let start_frame := dict_get d (key "start_frame") in
      let end_frame := dict_get d (key "end_frame") in
      let label := strip (match dict_get d (key "instruction") with
                          | None => ""
                          | Some v => py_str v
                          end) in
      if is_none start_frame || is_none end_frame || String.eqb label "" then None
      else
        sf ← start_frame ≫= py_float;
        ef ← end_frame ≫= py_float;
        if Qeq_bool fps 0 then None
        else
          let start := Qred (sf / fps) in
          let end_sec := Qred (ef / fps) in
          if fle end_sec start then None
          else Some (subtask (round3 start) (round3 end_sec) label)
  | _ => None
  end.

(** [data.get("segments", []) if isinstance(data, dict) else []], as the
    loop iterates it: the items of a string or of an object are strings,
    which the loop skips; a number, a boolean or [null] is not iterable. *)
Definition segments_in (data : Json.value) : result (list Json.value) :=
  match data with
  | Json.JObject d =>
      match dict_get d (key "segments") with
      | None => Ok []
      | Some (Json.JArray items) => Ok items
      | Some (Json.JString _) | Some (Json.JObject _) => Ok []
      | Some _ => Raise TypeError
      end
  | _ => Ok []
  end.

(** [for ep_idx in episodes], on the annotations held in memory: returns
    them as the loop leaves them, with the counters or the exception. *)
Fixpoint import_loop (fps : Q) (episodes : list Z) (anns : annotations)
    (st : import_stats) : annotations * result import_stats :=
  match episodes with
  | [] => (anns, Ok st)
  | ep :: episodes' =>
      match read ep with
      | NoFile =>
          import_loop fps episodes' anns
            {| episodes_updated := episodes_updated st;
               segments_total := segments_total st;
               missing_samples := missing_samples st + 1 |}
      | Unreadable => import_loop fps episodes' anns st
      | Parsed data =>
          match segments_in data with
          | Raise e => (anns, Raise e)
          | Ok items =>
              let segments := omap (convert_segment fps) items in
              if bool_decide (segments = []) then import_loop fps episodes' anns st
              else
                let '(anns1, _) := get_episode_annotations anns ep in
                import_loop fps episodes'
                  (update_annotations anns1 ep (set_subtasks segments))
                  {| episodes_updated := episodes_updated st + 1;
                     segments_total := segments_total st + Z.of_nat (length segments);
                     missing_samples := missing_samples st |}
          end
      end
  end.

(** [import_subtasks_from_root], for a loaded dataset and an existing root:
    the episodes of the metadata table in ascending order. *)
Definition import_subtasks_from_root (episode_indices : list Z) (fps : Q)
    (anns : annotations) : annotations * result import_stats :=
  let episodes := sorted Z.ltb (unique episode_indices) in
  import_loop fps episodes anns
    {| episodes_updated := 0; segments_total := 0; missing_samples := 0 |}.
End ImportSubtasks.

(** *** Importing question labels *)

(** A stored question label, with the keys that the import writes. *)
Record qa_item := {
  item_frame_idx : Z;
  item_type : string;
  item_question : string;
  item_answer : string;
}.

(** What is found at [root / sample_NNNNNN]: no directory, or the contents
    of its [*.jsonl] files in the order of their sorted paths. *)
Inductive sample_dir :=
  | NoDir
  | Dir (jsonl_files : list string).

Section ImportQa.
(** The built-ins [int] ([None] when it raises), [str], [str.splitlines]
    and [json.loads] ([None] when it raises). *)
Context (py_int : Json.value → option Z) (py_str : Json.value → string).
Context (splitlines : string → list string).
Context (json_loads : string → option Json.value).
Context (list_dir : Z → sample_dir).

(** [_parse_jsonl], for the text of the file ([None] when the file is not
    found): the objects of its non-blank lines that parse to an object. *)
Definition _parse_jsonl (content : option string) : list (list (list N * Json.value)) :=
  match content with
  | None => []
  | Some text =>
      omap (λ raw,
              let s := strip raw in
              if String.eqb s "" then None
              else match json_loads s with
                   | Some (Json.JObject d) => Some d
                   | _ => None
                   end)
           (splitlines text)
  end.

(** [str(qa.get(k, "")).strip()] *)
Definition text_of (d : list (list N * Json.value)) (k : string) : string :=
  strip (match dict_get d (key k) with None => "" | Some v => py_str v end).

(** The body of [for qa in qas]: [None] stands for [continue]. *)
Definition convert_qa (frame_idx_int : Z) (qa : Json.value) : option qa_item :=
  match qa with
  | Json.JObject d =>
      let qa_type := text_of d "type" in
      let question := text_of d "question" in
      let answer := text_of d "answer" in
      if String.eqb question "" || String.eqb answer "" then None
      else Some {| item_frame_idx := frame_idx_int; item_type := qa_type;
                   item_question := question; item_answer := answer |}
  | _ => None
  end.

(** The body of [for obj in _parse_jsonl(path)]: the labels of one line. *)
Definition qa_of_object (obj : list (list N * Json.value)) : list qa_item :=
  let frame_idx := dict_get obj (key "frame_idx") in
  if is_none frame_idx then []
  else
    match frame_idx ≫= py_int with
    | None => []
    | Some frame_idx_int =>
        let qas := match dict_get obj (key "qas") with
                   | Some (Json.JArray l) => l
                   | _ => []
                   end in
        omap (convert_qa frame_idx_int) qas
    end.

(** The labels of a sample directory, in the order of files, lines and
    pairs. *)
Definition collect_qa_labels (jsonl_files : list string) : list qa_item :=
  text ← jsonl_files; obj ← _parse_jsonl (Some text); qa_of_object obj.

(** [qa_labels.sort(key=lambda x: int(x.get("frame_idx", 0)))] *)
Definition sort_by_frame (l : list qa_item) : list qa_item :=
  sorted (λ a b, (item_frame_idx a <? item_frame_idx b)%Z) l.

(** The label as the annotations of an episode hold it for export. *)
Definition stored_label (item : qa_item) : qa_label :=
  {| frame_idx := item_frame_idx item |}.

Definition set_qa_labels (labels : list qa_label) (ann : EpisodeAnnotations)
    : EpisodeAnnotations :=
  {| subtasks := subtasks ann; high_levels := high_levels ann; qa_labels := labels |}.

Fixpoint import_qa_loop (episodes : list Z) (anns : annotations) (st : import_stats)
    : annotations * import_stats :=
  match episodes with
  | [] => (anns, st)
  | ep :: episodes' =>
      match list_dir ep with
      | NoDir =>
          import_qa_loop episodes' anns
            {| episodes_updated := episodes_updated st;
               segments_total := segments_total st;
               missing_samples := missing_samples st + 1 |}
      | Dir jsonl_files =>
          let qa_labels := collect_qa_labels jsonl_files in
          if bool_decide (qa_labels = []) then import_qa_loop episodes' anns st
          else
            let qa_labels := sort_by_frame qa_labels in
            let '(anns1, _) := get_episode_annotations anns ep in
            import_qa_loop episodes'
              (update_annotations anns1 ep (set_qa_labels (stored_label <$> qa_labels)))
              {| episodes_updated := episodes_updated st + 1;
                 segments_total := segments_total st + Z.of_nat (length qa_labels);
                 missing_samples := missing_samples st |}
      end
  end.

(** [import_qa_from_root], for a loaded dataset and an existing root;
    [segments_total] counts the labels. *)
Definition import_qa_from_root (episode_indices : list Z) (anns : annotations)
    : annotations * import_stats :=
  import_qa_loop (sorted Z.ltb (unique episode_indices)) anns
    {| episodes_updated := 0; segments_total := 0; missing_samples := 0 |}.
End ImportQa.

End AppImport.

(** ** ai_plugin_impl/engine.py: one question window per stride step *)

Module EngineVqa.
Import Py App Engine.

(** [{}] *)
Definition empty_segment : segment :=
  {| start := None; end_ := None; label := Absent; user_prompt := Absent;
     robot_utterance := Absent; robot_response := Absent; skill := Absent;
     scenario_type := Absent; response_type := Absent |}.

(** [d.setdefault(k, v)], for the value then found under [k]. *)
Definition setdefault (f : field) (v : string) : field :=
  match f with Absent => Str v | _ => f end.

(** The optional caps of the request and the values resolved from the
    request and the configuration. *)
Record settings := {
  stride_s : Q;
  window_s : Q;
  max_steps : option Z;
  max_segments : option Z;
  scenario_type_tag : string;
  response_type_tag : string;
  skill_tag : string;
}.

Section Densify.
(** [gen.generate(..., stride_s=1e9, start_time_s=cursor, ...)]: the pairs
    found from the cursor on, or an exception. *)
Context (one_window : Q → result (list segment)).
Context (cfg : settings).

(** [seg = one[0] if one else {}], [{}] on any exception. *)
Definition first_or_empty (r : result (list segment)) : segment :=
  match r with
  | Ok (seg :: _) => seg
  | _ => empty_segment
  end.

(** The time span is overwritten and the missing keys are filled in. *)
Definition complete (cursor clip_end : Q) (seg : segment) : segment :=
  {| start := Some cursor; end_ := Some clip_end;
     label := label seg;
     user_prompt := setdefault (user_prompt seg) "";
     robot_utterance := robot_utterance seg;
     robot_response := setdefault (robot_response seg) "";
     skill := setdefault (skill seg) (skill_tag cfg);
     scenario_type := setdefault (scenario_type seg) (scenario_type_tag cfg);
     response_type := setdefault (response_type seg) (response_type_tag cfg) |}.

(** The segment appended by the turn of the loop that starts at [cursor]. *)
Definition segment_at (duration_s cursor : Q) : segment :=
  let clip_end := fmin (Qred (cursor + window_s cfg)) duration_s in
  complete cursor clip_end (first_or_empty (one_window cursor)).

(** [for _ in range(max(steps, 0))], left by [break] when the cursor gets
    within 1e-6 of the end. *)
Fixpoint densify_loop (duration_s : Q) (turns : nat) (cursor : Q)
    (segments : list segment) : list segment :=
  match turns with
  | O => segments
  | S turns' =>
      let segments := segments ++ [segment_at duration_s cursor] in
      let cursor := Qred (cursor + stride_s cfg) in
      if fle (Qred (duration_s - (1 # 1000000))) cursor then segments
      else densify_loop duration_s turns' cursor segments
  end.

(** [max(1e-3, float(timing.duration))] *)
Definition clamp_duration (duration : Q) : Q := fmax (1 # 1000) duration.

(** The cursor before the loop: the start time, within [0, duration_s]. *)
Definition first_cursor (duration_s : Q) (start_time_s : option Q) : Q :=
  let cursor := default 0 start_time_s in
  let cursor := if flt cursor 0 then 0 else cursor in
  if flt duration_s cursor then duration_s else cursor.

(** The number of steps: enough strides to reach the end, capped by
    [max_steps] and by a non-zero [max_segments]. *)
Definition step_count (duration_s cursor : Q) : Z :=
  let steps :=
    if flt cursor duration_s then
      Qceiling (fmax (Qred (duration_s - cursor)) 0 / fmax (stride_s cfg) (1 # 1000000))
    else 0%Z in
  let steps := match max_steps cfg with Some n => Z.min steps n | None => steps end in
  match max_segments cfg with
  | Some n => if (n =? 0)%Z then steps else Z.min steps n
  | None => steps
  end.

(** The densify loop of [generate_fake_vqa], for the timing of the
    episode. *)
Definition densify (duration : Q) (start_time_s : option Q) : list segment :=
  let duration_s := clamp_duration duration in
  let cursor := first_cursor duration_s start_time_s in
  let steps := step_count duration_s cursor in
  densify_loop duration_s (Z.to_nat (Z.max steps 0)) cursor [].
End Densify.

End EngineVqa.

(** * Theorems *)

Module PyFacts.
Import Py.

Lemma fle_iff a b : fle a b = true ↔ a <= b.
Proof. apply Qle_bool_iff. Qed.

Lemma flt_iff a b : flt a b = true ↔ a < b.
Proof.
  unfold flt. rewrite negb_true_iff, <- not_true_iff_false, Qle_bool_iff.
  split; [apply Qnot_le_lt | apply Qlt_not_le].
Qed.

Lemma flt_false_iff a b : flt a b = false ↔ b <= a.
Proof.
  rewrite <- not_true_iff_false, flt_iff.
  split; [apply Qnot_lt_le | apply Qle_not_lt].
Qed.

Lemma StronglySorted_weaken {A} (R S : A → A → Prop) (l : list A) :
  (∀ x y, R x y → S x y) → StronglySorted R l → StronglySorted S l.
Proof.
  intros HRS. induction 1 as [|x l Hl IH Hx]; constructor; [done|].
  eapply Forall_impl; [exact Hx|]. intros y. apply HRS.
Qed.

Section Sorted.
Context {A : Type} (lt : A → A → bool).
Implicit Types (x y : A) (l : list A).

Lemma insert_sorted_perm x l : insert_sorted lt x l ≡ₚ x :: l.
Proof.
  induction l as [|y l IH]; simpl; [done|].
  destruct (lt y x); [|done].
  rewrite IH. apply Permutation_swap.
Qed.

Lemma sorted_perm l : sorted lt l ≡ₚ l.
Proof.
  induction l as [|x l IH]; simpl; [done|].
  rewrite insert_sorted_perm. by rewrite IH.
Qed.

Lemma sorted_length l : length (sorted lt l) = length l.
Proof. by rewrite sorted_perm. Qed.

(** [x] does not come after [y]. *)
Definition not_after x y : Prop := lt y x = false.

Hypothesis lt_asym : ∀ x y, lt x y = true → lt y x = false.
Hypothesis not_after_trans : ∀ x y z, not_after x y → not_after y z → not_after x z.

Lemma insert_sorted_sorted x l :
  StronglySorted not_after l → StronglySorted not_after (insert_sorted lt x l).
Proof.
  induction 1 as [|y l Hl IH Hy]; simpl.
  - repeat constructor.
  - destruct (lt y x) eqn:E.
    + constructor; [done|].
      rewrite insert_sorted_perm. constructor; [|done].
      by apply lt_asym.
    + constructor; [by constructor|].
      constructor; [done|].
      eapply Forall_impl; [exact Hy|]. intros z Hz. by eapply not_after_trans.
Qed.

Lemma sorted_sorted l : StronglySorted not_after (sorted lt l).
Proof.
  induction l as [|x l IH]; simpl; [constructor|].
  by apply insert_sorted_sorted.
Qed.
End Sorted.

End PyFacts.

Module AppFacts.
Import Py PyFacts App.

Lemma for_each_Forall2 {A B} (f : A → result B) (l : list A) :
  (∀ x, x ∈ l → returns (f x)) →
  ∃ ys, for_each f l = Ok ys ∧ Forall2 (λ x y, f x = Ok y) l ys.
Proof.
  induction l as [|x l IH]; intros Hl; simpl.
  - exists []. split; [done|constructor].
  - destruct (Hl x) as [y Hy]; [left|].
    destruct IH as (ys & Hys & HF).
    { intros z Hz. apply Hl. by right. }
    exists (y :: ys). rewrite Hy, Hys. split; [done|by constructor].
Qed.

Lemma seg_matches_covers n k seg ts :
  seg_matches n k seg ts = true ↔ covers n k seg ts.
Proof.
  unfold seg_matches, covers.
  rewrite orb_true_iff, !andb_true_iff, !fle_iff, flt_iff, bool_decide_eq_true.
  tauto.
Qed.

Lemma seg_matches_not_covers n k seg ts :
  seg_matches n k seg ts = false ↔ ¬ covers n k seg ts.
Proof. rewrite <- seg_matches_covers. symmetry. apply not_true_iff_false. Qed.

(** The scan returns at the first matching position, whatever follows. *)
Lemma scan_segments_first mapping key ts n idx segs k seg :
  segs !! k = Some seg →
  seg_matches n (idx + k) seg ts = true →
  (∀ j s, (j < k)%nat → segs !! j = Some s → seg_matches n (idx + j) s ts = false) →
  scan_segments mapping key ts n idx segs
  = (lbl ← seg_label key seg; Ok (mapping_get mapping lbl)).
Proof.
  revert idx k. induction segs as [|s0 segs IH]; intros idx k Hk Hm Hbefore; [done|].
  destruct k as [|k]; simpl in *.
  - injection Hk as ->. rewrite Nat.add_0_r in Hm. by rewrite Hm.
  - rewrite <- (Nat.add_0_r idx) at 1.
    rewrite (Hbefore 0%nat s0); [|lia|done].
    apply (IH (S idx) k); [done| |].
    + by replace (S idx + k)%nat with (idx + S k)%nat by lia.
    + intros j s Hj Hs. replace (S idx + j)%nat with (idx + S j)%nat by lia.
      apply Hbefore; [lia|done].
Qed.

Lemma scan_segments_none mapping key ts n idx segs :
  (∀ k s, segs !! k = Some s → seg_matches n (idx + k) s ts = false) →
  scan_segments mapping key ts n idx segs = Ok (-1)%Z.
Proof.
  revert idx. induction segs as [|s0 segs IH]; intros idx Hnone; [done|].
  simpl. rewrite <- (Nat.add_0_r idx) at 1. rewrite (Hnone 0%nat s0); [|done].
  apply IH. intros k s Hs. replace (S idx + k)%nat with (idx + S k)%nat by lia.
  by apply Hnone.
Qed.

(** Either some position is the first to satisfy an indexed test, or none
    satisfies it. *)
Lemma first_or_none {A} (P : nat → A → bool) (l : list A) :
  (∃ k x, l !! k = Some x ∧ P k x = true ∧
          ∀ j y, (j < k)%nat → l !! j = Some y → P j y = false)
  ∨ (∀ k x, l !! k = Some x → P k x = false).
Proof.
  revert P. induction l as [|a l IH]; intros P.
  - right. intros k x Hk. by destruct k.
  - destruct (P 0%nat a) eqn:E.
    + left. exists 0%nat, a. repeat split; [done|]. intros; lia.
    + destruct (IH (λ k, P (S k))) as [(k & x & Hk & HP & Hlt)|Hnone].
      * left. exists (S k), x. repeat split; [done..|].
        intros [|j] y Hj Hy; simpl in Hy; [by injection Hy as <-|].
        apply Hlt; [lia|done].
      * right. intros [|k] x Hk; simpl in Hk; [by injection Hk as <-|].
        by apply Hnone.
Qed.

Lemma first_cover_or_none segs ts :
  (∃ k seg, first_cover segs ts k seg) ∨ no_cover segs ts.
Proof.
  destruct (first_or_none (λ k s, seg_matches (length segs) k s ts) segs)
    as [(k & x & Hk & HP & Hlt)|Hnone].
  - left. exists k, x. split; [done|]. split; [by apply seg_matches_covers|].
    intros j s Hj Hs. apply seg_matches_not_covers. by apply Hlt.
  - right. intros k seg Hk. apply seg_matches_not_covers. by apply Hnone.
Qed.

Lemma scan_sorted_first mapping key ts segs k seg :
  first_cover segs ts k seg →
  scan_segments mapping key ts (length segs) 0 segs
  = (lbl ← seg_label key seg; Ok (mapping_get mapping lbl)).
Proof.
  intros (Hk & Hc & Hlt). apply scan_segments_first with (k := k); simpl.
  - done.
  - by apply seg_matches_covers.
  - intros j s Hj Hs. apply seg_matches_not_covers. by apply Hlt.
Qed.

Lemma scan_sorted_none mapping key ts segs :
  no_cover segs ts → scan_segments mapping key ts (length segs) 0 segs = Ok (-1)%Z.
Proof.
  intros Hnone. apply scan_segments_none. simpl. intros k s Hs.
  apply seg_matches_not_covers. by apply Hnone.
Qed.

Lemma first_cover_unique segs ts k seg k' seg' :
  first_cover segs ts k seg → first_cover segs ts k' seg' → k = k' ∧ seg = seg'.
Proof.
  intros (Hk & Hc & Hlt) (Hk' & Hc' & Hlt').
  assert (k = k') as <-.
  { destruct (Nat.lt_trichotomy k k') as [Hlt0|[?|Hlt0]]; [|done|].
    - by destruct (Hlt' _ _ Hlt0 Hk).
    - by destruct (Hlt _ _ Hlt0 Hk'). }
  split; [done|]. congruence.
Qed.

(** The scan over sorted segments returns, and returns the value owed. *)
Lemma scan_sorted_spec mapping key segs ts :
  Forall (λ s, returns (seg_label key s)) segs →
  ∃ v, scan_segments mapping key ts (length segs) 0 segs = Ok v ∧
       cover_value mapping key segs ts v.
Proof.
  intros Hlabels.
  destruct (first_cover_or_none segs ts) as [(k & seg & Hk)|Hnone].
  - assert (Hin : seg ∈ segs).
    { destruct Hk as [Hk _]. by eapply list_elem_of_lookup_2. }
    destruct (proj1 (Forall_forall _ _) Hlabels seg Hin) as [lbl Hlbl].
    exists (mapping_get mapping lbl). split.
    + rewrite (scan_sorted_first _ _ _ _ _ _ Hk). by rewrite Hlbl.
    + left. by exists k, seg, lbl.
  - exists (-1)%Z. split; [by apply scan_sorted_none|by right].
Qed.

Lemma lt_start_asym a b : lt_start a b = true → lt_start b a = false.
Proof. unfold lt_start. rewrite flt_iff, flt_false_iff. apply Qlt_le_weak. Qed.

Lemma sorted_by_start_sorted segs :
  StronglySorted (λ a b, seg_start a <= seg_start b) (sorted lt_start segs).
Proof.
  eapply StronglySorted_weaken; last first.
  - apply (sorted_sorted lt_start lt_start_asym).
    intros x y z. unfold not_after, lt_start. rewrite !flt_false_iff.
    intros; lra.
  - intros a b. unfold not_after, lt_start. by rewrite flt_false_iff.
Qed.

End AppFacts.

Module MapFacts.
Import Py PyFacts App AppFacts.

(** *** Strings in code point order *)

Lemma ltb_lt a b : String.ltb a b = true ↔ String_as_OT.lt a b.
Proof.
  rewrite <- String_as_OT.cmp_lt. unfold String.ltb, String_as_OT.cmp.
  destruct (String.compare a b); split; congruence.
Qed.

Lemma ltb_asym a b : String.ltb a b = true → String.ltb b a = false.
Proof.
  unfold String.ltb. rewrite (String.compare_antisym a b).
  by destruct (String.compare b a).
Qed.

Lemma ltb_trichotomy a b : String.ltb b a = false → a ≠ b → String.ltb a b = true.
Proof.
  unfold String.ltb. rewrite (String.compare_antisym a b).
  destruct (String.compare b a) eqn:E; simpl; try done.
  intros _ Hne. apply String.compare_eq_iff in E. congruence.
Qed.

Lemma ltb_not_after_trans a b c :
  String.ltb b a = false → String.ltb c b = false → String.ltb c a = false.
Proof.
  intros Hab Hbc. destruct (String.ltb c a) eqn:Hca; [|done].
  destruct (decide (a = b)) as [->|Hne]; [congruence|].
  apply ltb_trichotomy in Hab; [|done].
  assert (String.ltb c b = true); [|congruence].
  apply ltb_lt. eapply String_as_OT.lt_trans; by apply ltb_lt.
Qed.

Lemma sorted_strings_strict (l : list string) :
  NoDup l → StronglySorted (λ a b, String.ltb a b = true) (sorted String.ltb l).
Proof.
  intros Hnd.
  assert (Hs : StronglySorted (not_after String.ltb) (sorted String.ltb l)).
  { apply sorted_sorted; [apply ltb_asym|]. intros x y z. apply ltb_not_after_trans. }
  assert (Hnd' : NoDup (sorted String.ltb l)) by by rewrite sorted_perm.
  induction Hs as [|x l' Hl' IH Hx]; [constructor|].
  apply NoDup_cons in Hnd' as [Hx' Hnd']. constructor; [by apply IH|].
  apply Forall_forall. intros y Hy.
  apply ltb_trichotomy; [by apply (proj1 (Forall_forall _ _) Hx)|].
  intros ->. done.
Qed.

(** *** The dict comprehension over [enumerate] *)

Lemma index_map_from (l : list string) (m : gmap string Z) (k : nat) :
  NoDup l → (∀ x, x ∈ l → m !! x = None) →
  ∀ x z,
    foldl (λ m p, <[p.2 := Z.of_nat p.1]> m) m (zip (seq k (length l)) l) !! x = Some z
    ↔ m !! x = Some z ∨ ∃ i : nat, z = Z.of_nat (k + i) ∧ l !! i = Some x.
Proof.
  revert m k. induction l as [|a l IH]; intros m k Hnd Hfresh x z; simpl.
  - split; [by left|]. intros [?|(i & _ & Hi)]; [done|]. by destruct i.
  - apply NoDup_cons in Hnd as [Ha Hnd].
    rewrite IH; [|done|].
    2:{ intros y Hy. rewrite lookup_insert_ne; [|by intros ->].
        apply Hfresh. by right. }
    split.
    + intros [Hm|(i & -> & Hi)].
      * destruct (decide (a = x)) as [->|Hne].
        -- rewrite lookup_insert_eq in Hm. injection Hm as <-.
           right. exists 0%nat. split; [f_equal; lia|done].
        -- rewrite lookup_insert_ne in Hm; [|done]. by left.
      * right. exists (S i). split; [f_equal; lia|done].
    + intros [Hm|(i & -> & Hi)].
      * left. rewrite lookup_insert_ne; [done|].
        intros ->. rewrite Hfresh in Hm; [done|by left].
      * destruct i as [|i]; simpl in Hi.
        -- injection Hi as ->. left. rewrite lookup_insert_eq. do 2 f_equal. lia.
        -- right. exists i. split; [f_equal; lia|done].
Qed.

Lemma index_map_indexes (labels : list string) :
  NoDup labels → indexes (index_map labels) labels.
Proof.
  intros Hnd k z. unfold index_map, enumerate.
  rewrite index_map_from; [|done|by intros].
  rewrite lookup_empty. split.
  - intros [?|(i & -> & Hi)]; [done|]. by exists i.
  - intros (i & -> & Hi). right. by exists i.
Qed.

(** *** First-seen order *)

Lemma first_seen_from_ext seen seen' l :
  (∀ x, x ∈ seen ↔ x ∈ seen') → first_seen_from seen l = first_seen_from seen' l.
Proof.
  revert seen seen'. induction l as [|a l IH]; intros seen seen' Heq; simpl; [done|].
  destruct (decide (a ∈ seen)) as [Hin|Hnin], (decide (a ∈ seen')) as [Hin'|Hnin'].
  - by apply IH.
  - by apply Heq in Hin.
  - by apply Heq in Hin'.
  - f_equal. apply IH. intros x. rewrite !elem_of_cons. by rewrite Heq.
Qed.

(** The state of the double loop after the keys in [order] were met, in
    that order, for the first time. *)
Definition task_state (st : list segment * gmap string Z) (order : list string) : Prop :=
  NoDup order ∧ size st.2 = length order ∧ indexes st.2 order ∧
  Forall2 (λ seg k, make_task_key seg = Ok k) st.1 order.

Lemma task_state_elem st order k :
  task_state st order → (is_Some (st.2 !! k) ↔ k ∈ order).
Proof.
  intros (_ & _ & Hidx & _). split.
  - intros [z Hz]. apply Hidx in Hz as (i & _ & Hi). by eapply list_elem_of_lookup_2.
  - intros Hin. apply list_elem_of_lookup_1 in Hin as [i Hi].
    exists (Z.of_nat i). apply Hidx. by exists i.
Qed.

Lemma add_task_state st order seg k :
  task_state st order → make_task_key seg = Ok k →
  ∃ st', add_task st seg = Ok st' ∧
         task_state st' (if decide (k ∈ order) then order else order ++ [k]).
Proof.
  intros Hst Hk. unfold add_task. rewrite Hk. simpl.
  pose proof (task_state_elem _ _ k Hst) as Helem.
  destruct (st.2 !! k) as [z|] eqn:E.
  - exists st. split; [done|]. rewrite decide_True; [done|]. apply Helem. by eexists.
  - eexists. split; [done|].
    assert (Hnin : k ∉ order).
    { intros Hin. apply Helem in Hin as [? ?]. congruence. }
    rewrite decide_False; [|done].
    destruct Hst as (Hnd & Hsize & Hidx & Htasks). unfold indexes in Hidx.
    split; [|split; [|split]]; simpl.
    + apply NoDup_app. split; [done|]. split; [|apply NoDup_singleton].
      intros x Hx ->%list_elem_of_singleton. done.
    + rewrite map_size_insert_None; [|done]. rewrite length_app. simpl. lia.
    + intros k' z'. destruct (decide (k = k')) as [<-|Hne].
      * rewrite lookup_insert_eq. split.
        -- intros [= <-]. exists (length order). split; [by rewrite Hsize|].
           by rewrite list_lookup_middle.
        -- intros (i & -> & Hi). do 2 f_equal. rewrite Hsize.
           apply lookup_app_Some in Hi as [Hi|[Hlen Hi]].
           ++ exfalso. apply Hnin. by eapply list_elem_of_lookup_2.
           ++ apply list_lookup_singleton_Some in Hi as [Hi _]. lia.
      * rewrite lookup_insert_ne; [|done]. rewrite Hidx. split.
        -- intros (i & -> & Hi). exists i. split; [done|].
           by apply lookup_app_l_Some.
        -- intros (i & -> & Hi). exists i. split; [done|].
           apply lookup_app_Some in Hi as [Hi|[_ Hi]]; [done|].
           apply list_lookup_singleton_Some in Hi as [_ Hi]. congruence.
    + apply Forall2_app; [done|]. by repeat constructor.
Qed.

Lemma fold_add_task segs ks st order :
  Forall2 (λ seg k, make_task_key seg = Ok k) segs ks →
  task_state st order →
  ∃ st', fold_result add_task st segs = Ok st' ∧
         task_state st' (order ++ first_seen_from order ks).
Proof.
  intros HF. revert st order. induction HF as [|seg k segs ks Hk HF IH]; intros st order Hst.
  - exists st. split; [done|]. by rewrite app_nil_r.
  - destruct (add_task_state _ _ _ _ Hst Hk) as (st1 & Hadd & Hst1).
    simpl. rewrite Hadd. simpl.
    destruct (decide (k ∈ order)) as [Hin|Hnin].
    + by apply IH.
    + destruct (IH _ _ Hst1) as (st' & Hfold & Hst'). exists st'. split; [done|].
      rewrite <- app_assoc in Hst'. simpl in Hst'.
      rewrite (first_seen_from_ext (k :: order) (order ++ [k])); [done|].
      intros x. rewrite elem_of_cons, elem_of_app, list_elem_of_singleton. tauto.
Qed.

Lemma build_high_level_dataframe_first_seen anns ks :
  Forall2 (λ seg k, make_task_key seg = Ok k) (anns.*2 ≫= high_levels) ks →
  ∃ tasks task_map,
    build_high_level_dataframe anns = Ok (tasks, task_map) ∧
    indexes task_map (first_seen ks) ∧
    Forall2 (λ seg k, make_task_key seg = Ok k) tasks (first_seen ks).
Proof.
  intros HF. destruct (fold_add_task _ _ ([], ∅) [] HF) as ([tasks task_map] & Hfold & Hst).
  { split; [constructor|]. split; [done|]. split; [|constructor].
    intros k z. simpl. rewrite lookup_empty. split; [done|].
    intros (i & _ & Hi). by destruct i. }
  exists tasks, task_map. split; [done|].
  destruct Hst as (_ & _ & Hidx & Htasks). by split.
Qed.

Lemma build_subtasks_dataframe_sorted anns :
  let labels := sorted String.ltb
    (elements (list_to_set (anns.*2 ≫= subtask_labels_of) : gset string)) in
  StronglySorted (λ a b, String.ltb a b = true) labels ∧
  (∀ l, l ∈ labels ↔ l ∈ anns.*2 ≫= subtask_labels_of) ∧
  indexes (build_subtasks_dataframe anns).2 labels.
Proof.
  intros labels. split; [|split].
  - apply sorted_strings_strict, NoDup_elements.
  - intros l. unfold labels. rewrite sorted_perm, elem_of_elements.
    apply elem_of_list_to_set.
  - apply index_map_indexes. unfold labels. rewrite sorted_perm. apply NoDup_elements.
Qed.

End MapFacts.

Module ExportFacts.
Import Py PyFacts App AppFacts MapFacts.

Lemma unique_from_spec seen l :
  NoDup (unique_from seen l) ∧ ∀ x, x ∈ unique_from seen l ↔ x ∈ l ∧ x ∉ seen.
Proof.
  revert seen. induction l as [|a l IH]; intros seen; simpl.
  - split; [constructor|]. intros x. rewrite elem_of_nil. tauto.
  - destruct (decide (a ∈ seen)) as [Hin|Hnin].
    + destruct (IH seen) as [Hnd Hel]. split; [done|].
      intros x. rewrite Hel, elem_of_cons. split; [tauto|].
      intros [[->|Hx] Hs]; tauto.
    + destruct (IH (a :: seen)) as [Hnd Hel]. split.
      * constructor; [|done]. rewrite Hel, elem_of_cons. tauto.
      * intros x. rewrite !elem_of_cons, Hel, elem_of_cons.
        destruct (decide (x = a)) as [->|Hne]; tauto.
Qed.

Lemma unique_spec l : NoDup (unique l) ∧ ∀ x, x ∈ unique l ↔ x ∈ l.
Proof.
  destruct (unique_from_spec [] l) as [Hnd Hel]. split; [done|].
  intros x. rewrite Hel, elem_of_nil. tauto.
Qed.

Lemma select_fmap {A B} (f : A → B) mask (l : list A) :
  select mask (f <$> l) = f <$> select mask l.
Proof.
  revert l. induction mask as [|b mask IH]; intros [|x l]; simpl; try done.
  destruct b; simpl; by rewrite IH.
Qed.

(** Writing back under a mask the values computed from the selected rows
    changes exactly the selected positions, each to the value of its row. *)
Lemma assign_masked_spec {A} (g : A → result Z) mask (xs : list A) vals col :
  length mask = length xs → length col = length xs →
  Forall2 (λ x v, g x = Ok v) (select mask xs) vals →
  length (assign_masked mask vals col) = length col ∧
  ∀ i x, xs !! i = Some x →
    match mask !! i with
    | Some true => ∃ v, g x = Ok v ∧ assign_masked mask vals col !! i = Some v
    | _ => assign_masked mask vals col !! i = col !! i
    end.
Proof.
  revert xs vals col.
  induction mask as [|b mask IH]; intros xs vals col Hm Hc HF.
  { simpl. split; [done|]. intros i x Hx. by destruct xs. }
  destruct xs as [|x0 xs]; [done|]. destruct col as [|c col]; [done|].
  simpl in Hm, Hc, HF. destruct b.
  - inversion HF as [|? v ? vals' Hg HF' E1 E2]; subst. simpl.
    destruct (IH xs vals' col) as [Hlen Hpt]; [lia..|done|].
    split; [by rewrite Hlen|].
    intros [|i] x Hx; simpl in *; [injection Hx as <-; by exists v|].
    by apply Hpt.
  - simpl. destruct (IH xs vals col) as [Hlen Hpt]; [lia..|done|].
    split; [by rewrite Hlen|].
    intros [|i] x Hx; simpl in *; [done|]. by apply Hpt.
Qed.

Lemma ep_mask_lookup df ep i r :
  df !! i = Some r → ep_mask df ep !! i = Some (bool_decide (episode_index r = ep)).
Proof. intros Hr. unfold ep_mask. by rewrite list_lookup_fmap, Hr. Qed.

Lemma mapping_get_empty lbl : mapping_get ∅ lbl = (-1)%Z.
Proof. destruct lbl; simpl; [done..|]. by rewrite lookup_empty. Qed.

Lemma cover_value_no_mapping key segs ts :
  Forall (λ s, returns (seg_label key s)) segs → cover_value ∅ key segs ts (-1).
Proof.
  intros Hlabels. destruct (scan_sorted_spec ∅ key segs ts Hlabels) as (v & _ & Hv).
  destruct Hv as [(k & seg & lbl & Hk & Hlbl & ->)|[Hnone ->]].
  - left. exists k, seg, lbl. by rewrite mapping_get_empty.
  - by right.
Qed.

Lemma assign_indices_nonempty timestamps segments mapping key :
  segments ≠ [] →
  assign_indices_by_segments timestamps segments mapping key
  = for_each (λ ts, scan_segments mapping key ts (length (sorted lt_start segments)) 0
                      (sorted lt_start segments)) timestamps.
Proof. by destruct segments. Qed.

Section Column.
Context (anns : annotations) (df : list sample_row).
Context (mapping : gmap string Z) (key : label_key).
Context (fsegs : EpisodeAnnotations → list segment).

(** The column after the episodes in [done] were projected. *)
Definition col_ok (done : list Z) (col : list Z) : Prop :=
  length col = length df ∧
  ∀ i r, df !! i = Some r →
    (episode_index r ∈ done →
       ∃ v, col !! i = Some v ∧
            row_value mapping key (fsegs <$> annotations_get anns (episode_index r))
                      (timestamp r) v) ∧
    (episode_index r ∉ done → col !! i = Some (-1)%Z).

Lemma col_ok_init : col_ok [] (replicate (length df) (-1)%Z).
Proof.
  split; [by rewrite length_replicate|]. intros i r Hr. split.
  - by intros ?%elem_of_nil.
  - intros _. apply lookup_replicate_2. by eapply lookup_lt_Some.
Qed.

Lemma col_ok_skip done col ep :
  annotations_get anns ep = None → col_ok done col → col_ok (ep :: done) col.
Proof.
  intros Hnone [Hlen Hrows]. split; [done|]. intros i r Hr.
  destruct (Hrows i r Hr) as [Hin Hout]. split.
  - intros [Hep|Hd]%elem_of_cons; [|by apply Hin].
    destruct (decide (episode_index r ∈ done)) as [Hd|Hd]; [by apply Hin|].
    exists (-1)%Z. split; [by apply Hout|]. by rewrite Hep, Hnone.
  - intros Hd. apply Hout. intros ?. apply Hd. by right.
Qed.

Lemma col_ok_project done col ep ann :
  annotations_get anns ep = Some ann →
  Forall (λ s, returns (seg_label key s)) (fsegs ann) →
  ep ∉ done → col_ok done col →
  ∃ col', project_column df (ep_mask df ep) (fsegs ann) mapping key col = Ok col' ∧
          col_ok (ep :: done) col'.
Proof.
  intros Hann Hlabels Hnew [Hlen Hrows].
  set (segs := sorted lt_start (fsegs ann)).
  assert (Hlabels' : Forall (λ s, returns (seg_label key s)) segs).
  { unfold segs. by rewrite sorted_perm. }
  unfold project_column.
  destruct (bool_decide (fsegs ann ≠ []) && bool_decide (mapping ≠ ∅)) eqn:Hcond.
  - apply andb_true_iff in Hcond as [Hne%bool_decide_eq_true _].
    set (g := λ r : sample_row,
           scan_segments mapping key (timestamp r) (length segs) 0 segs).
    destruct (for_each_Forall2 g (select (ep_mask df ep) df)) as (vals & Hvals & HF).
    { intros r _. destruct (scan_sorted_spec mapping key segs (timestamp r) Hlabels')
        as (v & Hv & _). by exists v. }
    assert (Hassign : assign_indices_by_segments
              (select (ep_mask df ep) (timestamp <$> df)) (fsegs ann) mapping key
            = Ok vals).
    { rewrite assign_indices_nonempty by done. fold segs. rewrite select_fmap.
      clear -HF. induction HF as [|r v rs vs Hr HF IH]; [done|].
      rewrite fmap_cons. unfold g in Hr. cbn [for_each]. rewrite Hr. simpl.
      by rewrite IH. }
    rewrite Hassign. simpl. eexists. split; [done|].
    destruct (assign_masked_spec g (ep_mask df ep) df vals col) as [Hlen' Hpt].
    { unfold ep_mask. by rewrite length_fmap. }
    { done. }
    { done. }
    split; [by rewrite Hlen'|]. intros i r Hr.
    specialize (Hpt i r Hr). rewrite (ep_mask_lookup _ _ _ _ Hr) in Hpt.
    destruct (Hrows i r Hr) as [Hin Hout]. case_bool_decide as Hep.
    + destruct Hpt as (v & Hv & Hcol). split.
      * intros _. exists v. split; [done|]. rewrite Hep, Hann. simpl.
        destruct (scan_sorted_spec mapping key segs (timestamp r) Hlabels')
          as (v' & Hv' & Hcover).
        unfold g in Hv. rewrite Hv' in Hv. by injection Hv as ->.
      * intros Hd. destruct Hd. rewrite Hep. by left.
    + rewrite Hpt. split.
      * intros [?|Hd]%elem_of_cons; [done|]. by apply Hin.
      * intros Hd. apply Hout. intros ?. apply Hd. by right.
  - eexists. split; [done|]. split; [done|]. intros i r Hr.
    destruct (Hrows i r Hr) as [Hin Hout]. split.
    + intros [Hep|Hd]%elem_of_cons; [|by apply Hin].
      exists (-1)%Z. split; [apply Hout; by rewrite Hep|].
      rewrite Hep, Hann. simpl. fold segs.
      apply andb_false_iff in Hcond as [Hc|Hc]; apply bool_decide_eq_false in Hc.
      * assert (fsegs ann = []) as E by (by destruct (fsegs ann); [|destruct Hc]).
        unfold segs. rewrite E. right. split; [|done]. intros k seg Hk. by destruct k.
      * assert (mapping = ∅) as -> by (by destruct (decide (mapping = ∅)); [|destruct Hc]).
        by apply cover_value_no_mapping.
    + intros Hd. apply Hout. intros ?. apply Hd. by right.
Qed.
End Column.

Section ExportLoop.
Context (anns : annotations) (df : list sample_row).
Context (subtask_map task_map : gmap string Z).
Hypothesis task_keys : Forall (λ s, returns (make_task_key s)) (anns.*2 ≫= high_levels).

Definition cols_ok (done : list Z) (cols : columns) : Prop :=
  col_ok anns df subtask_map key_label subtasks done (subtask_index cols) ∧
  col_ok anns df task_map key_task_key high_levels done (task_index_high_level cols).

Lemma annotations_get_elem ep ann :
  annotations_get anns ep = Some ann → ann ∈ anns.*2.
Proof.
  unfold annotations_get. intros Hget.
  apply fmap_Some in Hget as ([i [e a]] & Hfind & ->).
  apply list_find_Some in Hfind as (Hi & _ & _). simpl.
  apply list_elem_of_fmap. exists (e, a). split; [done|].
  by eapply list_elem_of_lookup_2.
Qed.

Lemma task_labels_return ep ann :
  annotations_get anns ep = Some ann →
  Forall (λ s, returns (seg_label key_task_key s)) (high_levels ann).
Proof using task_keys.
  intros Hget%annotations_get_elem. apply Forall_forall. intros s Hs.
  destruct (proj1 (Forall_forall _ _) task_keys s) as [k Hk].
  { apply list_elem_of_bind. by exists ann. }
  exists (Str k). simpl. by rewrite Hk.
Qed.

Lemma export_episode_ok done cols ep :
  ep ∉ done → cols_ok done cols →
  ∃ cols', export_episode subtask_map task_map anns df cols ep = Ok cols' ∧
           cols_ok (ep :: done) cols'.
Proof using task_keys.
  intros Hnew [Hsub Htask]. unfold export_episode.
  destruct (annotations_get anns ep) as [ann|] eqn:Hann.
  - destruct (col_ok_project anns df subtask_map key_label subtasks
                done (subtask_index cols) ep ann Hann)
      as (sub & Hs & Hsub'); [|done..|].
    { apply Forall_forall. intros s _. by eexists. }
    destruct (col_ok_project anns df task_map key_task_key high_levels
                done (task_index_high_level cols) ep ann Hann)
      as (task & Ht & Htask'); [|done..|].
    { by eapply task_labels_return. }
    rewrite Hs. simpl. rewrite Ht. simpl. eexists. split; [done|]. by split.
  - eexists. split; [done|]. split; by apply col_ok_skip.
Qed.

Lemma export_fold_ok eps done cols :
  NoDup eps → (∀ e, e ∈ eps → e ∉ done) → cols_ok done cols →
  ∃ cols', fold_result (export_episode subtask_map task_map anns df) cols eps = Ok cols' ∧
           cols_ok (reverse eps ++ done) cols'.
Proof using task_keys.
  intros Hnd. revert done cols.
  induction Hnd as [|ep eps Hep Hnd IH]; intros done cols Hfresh Hok.
  - by exists cols.
  - destruct (export_episode_ok done cols ep) as (cols1 & H1 & Hok1); [|done|].
    { apply Hfresh. by left. }
    destruct (IH (ep :: done) cols1) as (cols' & H' & Hok'); [|done|].
    { intros e He [->|Hd]%elem_of_cons; [done|]. by apply (Hfresh e); [right|]. }
    exists cols'. simpl. rewrite H1. simpl. split; [done|].
    by rewrite reverse_cons, <- app_assoc.
Qed.
End ExportLoop.

(** Every row of the exported file holds, in both label columns, the value
    owed to it under the two maps built once from all annotations. *)
Lemma export_dataset_rows anns df :
  Forall (λ s, returns (make_task_key s)) (anns.*2 ≫= high_levels) →
  ∃ tasks task_map cols,
    build_high_level_dataframe anns = Ok (tasks, task_map) ∧
    export_dataset anns df = Ok cols ∧
    ∀ i r, df !! i = Some r →
      (∃ v, subtask_index cols !! i = Some v ∧
            row_value (build_subtasks_dataframe anns).2 key_label
              (subtasks <$> annotations_get anns (episode_index r)) (timestamp r) v) ∧
      (∃ v, task_index_high_level cols !! i = Some v ∧
            row_value task_map key_task_key
              (high_levels <$> annotations_get anns (episode_index r)) (timestamp r) v).
Proof.
  intros Hkeys.
  assert (∃ ks, Forall2 (λ seg k, make_task_key seg = Ok k) (anns.*2 ≫= high_levels) ks)
    as [ks Hks].
  { induction Hkeys as [|s l [k Hk] _ [ks IH]]; [by exists []|].
    exists (k :: ks). by constructor. }
  destruct (build_high_level_dataframe_first_seen anns ks Hks)
    as (tasks & task_map & Hbuild & _ & _).
  destruct (unique_spec (episode_index <$> df)) as [Hnd Hel].
  destruct (export_fold_ok anns df (build_subtasks_dataframe anns).2 task_map Hkeys
              (unique (episode_index <$> df)) []
              {| subtask_index := replicate (length df) (-1)%Z;
                 task_index_high_level := replicate (length df) (-1)%Z |} Hnd)
    as (cols & Hfold & [Hsub Htask]).
  { intros e _. apply not_elem_of_nil. }
  { split; apply col_ok_init. }
  exists tasks, task_map, cols. split; [done|]. split.
  { unfold export_dataset. destruct (build_subtasks_dataframe anns) as [data sm].
    rewrite Hbuild. simpl. exact Hfold. }
  intros i r Hr.
  assert (Hin : episode_index r ∈ reverse (unique (episode_index <$> df)) ++ []).
  { rewrite app_nil_r, elem_of_reverse, Hel. apply list_elem_of_fmap.
    exists r. split; [done|]. by eapply list_elem_of_lookup_2. }
  destruct Hsub as [_ Hsub]. destruct Htask as [_ Htask]. split.
  - by apply (Hsub i r Hr).
  - by apply (Htask i r Hr).
Qed.

End ExportFacts.

Module EngineFacts.
Import Py PyFacts App Engine.

(** *** Rounding *)

Lemma round_half_even_close q : Qabs (q - inject_Z (round_half_even q)) <= 1 # 2.
Proof.
  destruct q as [n d]. apply Qabs_Qle_condition.
  unfold round_half_even. cbn [Qnum Qden].
  pose proof (Z.div_mod n (Z.pos d) ltac:(lia)) as Hdm.
  pose proof (Z.mod_pos_bound n (Z.pos d) ltac:(lia)) as Hm.
  set (fl := (n / Z.pos d)%Z) in *. set (m := (n mod Z.pos d)%Z) in *.
  assert (Hcases : ∀ r : Z,
    (- Z.pos d <= 2 * n - 2 * r * Z.pos d <= Z.pos d)%Z →
    - (1 # 2) <= (n # d) - inject_Z r ∧ (n # d) - inject_Z r <= 1 # 2).
  { intros r Hr. unfold Qle, Qminus, Qplus, Qopp, inject_Z. cbn [Qnum Qden].
    rewrite !Pos2Z.inj_mul. split; nia. }
  destruct (Z.ltb_spec (2 * m) (Z.pos d)); [apply Hcases; nia|].
  destruct (Z.ltb_spec (Z.pos d) (2 * m)); [apply Hcases; nia|].
  destruct (Z.even fl); apply Hcases; nia.
Qed.

(** In a tie the even neighbour is chosen. *)
Lemma round_half_even_tie q :
  (2 * (Qnum q mod Z.pos (Qden q)) = Z.pos (Qden q))%Z →
  Z.even (round_half_even q) = true.
Proof.
  intros Htie. unfold round_half_even. rewrite Htie, !Z.ltb_irrefl.
  destruct (Z.even (Qnum q / Z.pos (Qden q))) eqn:E; [done|].
  rewrite Z.even_add, E. done.
Qed.

Lemma round3_spec x :
  ∃ n : Z, round3 x == n # 1000 ∧ Qabs (x - round3 x) <= 1 # 2000.
Proof.
  exists (round_half_even (x * 1000)). unfold round3.
  split; [apply Qred_correct|]. rewrite Qred_correct.
  pose proof (round_half_even_close (x * 1000)) as Hc.
  apply Qabs_Qle_condition in Hc as [Hlo Hhi]. apply Qabs_Qle_condition.
  set (n := round_half_even (x * 1000)) in *.
  assert (Hn : n # 1000 == inject_Z n * (1 # 1000)).
  { rewrite Qmake_Qdiv. unfold Qdiv. reflexivity. }
  rewrite Hn. split; lra.
Qed.

(** *** The merge loop *)

Lemma merge_step_snoc pre prev s :
  merge_step (pre ++ [prev]) s
  = if mergeable prev s then pre ++ [extend prev s] else (pre ++ [prev]) ++ [s].
Proof.
  unfold merge_step. rewrite last_snoc. by rewrite removelast_last.
Qed.

Lemma foldl_merge_step pre prev rest :
  foldl merge_step (pre ++ [prev]) rest = pre ++ merge_chain prev rest.
Proof.
  revert pre prev. induction rest as [|s rest IH]; intros pre prev; [done|].
  cbn [foldl merge_chain]. rewrite merge_step_snoc.
  destruct (mergeable prev s).
  - apply IH.
  - rewrite IH. by rewrite <- app_assoc.
Qed.

Lemma merge_adjacent_chain s0 rest :
  _merge_adjacent_subtasks (s0 :: rest) = round_segment <$> merge_chain s0 rest.
Proof.
  unfold _merge_adjacent_subtasks. cbn [foldl].
  change (merge_step [] s0) with ([] ++ [s0]). by rewrite foldl_merge_step.
Qed.

Lemma mergeable_iff prev s :
  mergeable prev s = true
  ↔ str (get (label prev) "") = str (get (label s) "") ∧ seg_start s <= seg_end prev.
Proof.
  unfold mergeable. by rewrite andb_true_iff, String.eqb_eq, fle_iff.
Qed.

Lemma fmax_le_r a b : a <= b → fmax a b == b.
Proof.
  intros Hab. unfold fmax. destruct (flt a b) eqn:E; [reflexivity|].
  apply flt_false_iff in E. lra.
Qed.

Lemma fmax_le_l a b : b <= a → fmax a b = a.
Proof.
  intros Hba. unfold fmax. destruct (flt a b) eqn:E; [|done].
  apply flt_iff in E. lra.
Qed.

(** *** The store *)

Lemma annotations_get_cons e a (anns : annotations) ep :
  annotations_get ((e, a) :: anns) ep
  = if decide (e = ep) then Some a else annotations_get anns ep.
Proof.
  unfold annotations_get. cbn [list_find]. simpl.
  destruct (decide (e = ep)); [done|].
  rewrite <- option_fmap_compose. by destruct (list_find _ anns) as [[? [? ?]]|].
Qed.

Lemma annotations_get_update anns ep f :
  annotations_get (update_annotations anns ep f) ep = f <$> annotations_get anns ep.
Proof.
  induction anns as [|[e a] anns IH]; [done|].
  cbn [update_annotations]. rewrite annotations_get_cons.
  destruct (decide (e = ep)) as [->|Hne].
  - rewrite annotations_get_cons. by rewrite decide_True.
  - rewrite annotations_get_cons. rewrite decide_False by done. apply IH.
Qed.

Lemma get_episode_annotations_present anns ep ann :
  annotations_get anns ep = Some ann → get_episode_annotations anns ep = (anns, ann).
Proof. intros H. unfold get_episode_annotations. by rewrite H. Qed.

(** The sibling path: resuming question generation keeps what was stored. *)
Lemma generate_fake_vqa_resume_keeps gen req anns ann :
  flag (resume_from_last req) = true →
  annotations_get anns (req_episode_index req) = Some ann →
  ∃ ann', annotations_get (generate_fake_vqa gen req anns).1 (req_episode_index req)
          = Some ann' ∧
          high_levels ann `prefix_of` high_levels ann'.
Proof.
  intros Hresume Hann. unfold generate_fake_vqa, resolve_start.
  rewrite Hresume, (get_episode_annotations_present _ _ _ Hann).
  assert (Hstart : ∃ start, (match start_time_s req with
            | Some t => (anns, Some t)
            | None => (anns, last_end (high_levels ann)) end) = (anns, start)).
  { destruct (start_time_s req); by eexists. }
  destruct Hstart as [start ->].
  destruct (gen req start) as [segments|e].
  - rewrite (get_episode_annotations_present _ _ _ Hann). cbn [fst].
    rewrite annotations_get_update, Hann.
    eexists. split; [done|]. cbn. by apply prefix_app_r.
  - exists ann. by split.
Qed.

End EngineFacts.

Module AdapterFacts.
Import Py PyFacts Adapter.

(** The offsets recorded for an index are those of the last row with it. *)
Lemma offsets_fold (f : episode_row → Q * Q) (l : list episode_row)
    (acc : gmap Z (Q * Q)) (e : Z) :
  foldl (λ result row, <[ep_index row := f row]> result) acc l !! e
  = match last (filter (λ r, ep_index r = e) l) with
    | Some r => Some (f r)
    | None => acc !! e
    end.
Proof.
  revert acc. induction l as [|r l IH]; intros acc; [done|].
  cbn [foldl]. rewrite IH. rewrite filter_cons.
  destruct (decide (ep_index r = e)) as [He|He].
  - rewrite last_cons. destruct (last (filter _ l)); [done|].
    by rewrite He, lookup_insert_eq.
  - destruct (last (filter _ l)); [done|]. by rewrite lookup_insert_ne.
Qed.

Lemma unique_row_filter (l : list episode_row) row e :
  row ∈ l → ep_index row = e →
  (∀ r, r ∈ l → ep_index r = e → r = row) →
  head (filter (λ r, ep_index r = e) l) = Some row ∧
  last (filter (λ r, ep_index r = e) l) = Some row.
Proof.
  intros Hin He Huniq.
  assert (Hall : ∀ r, r ∈ filter (λ r, ep_index r = e) l → r = row).
  { intros r [Hr1 Hr2]%list_elem_of_filter. by apply Huniq. }
  assert (Hrow : row ∈ filter (λ r, ep_index r = e) l) by by apply list_elem_of_filter.
  destruct (filter (λ r, ep_index r = e) l) as [|x xs] eqn:E.
  { by apply elem_of_nil in Hrow. }
  split.
  - simpl. f_equal. apply Hall. by left.
  - destruct (last (x :: xs)) as [y|] eqn:El.
    + f_equal. apply Hall. apply last_Some in El as [l' ->].
      apply elem_of_app. right. by left.
    + by apply last_None in El.
Qed.

Lemma duration_of_spec len fps :
  ¬ fps == 0 → duration_of len fps == inject_Z len / fps.
Proof.
  intros Hne. unfold duration_of.
  destruct (Qeq_bool fps 0) eqn:E.
  - by apply Qeq_bool_iff in E.
  - apply Qred_correct.
Qed.

Lemma nonempty_iff key : nonempty key = true ↔ ∃ k, key = Some k ∧ k ≠ "".
Proof.
  destruct key as [k|]; simpl.
  - rewrite negb_true_iff, String.eqb_neq. split; [by exists k|by intros (? & [= <-] & ?)].
  - split; [done|by intros (? & ? & ?)].
Qed.

Lemma row_offsets_explicit df k fps row from_ts to_ts :
  from_ts_col k ∈ columns df → to_ts_col k ∈ columns df →
  cells row !! from_ts_col k = Some from_ts → cells row !! to_ts_col k = Some to_ts →
  row_offsets df k fps row = (from_ts, to_ts).
Proof.
  intros H1 H2 H3 H4. unfold row_offsets.
  rewrite !bool_decide_eq_true_2 by done. simpl. by rewrite H3, H4.
Qed.

Lemma row_offsets_fallback df k fps row :
  (∀ from_ts to_ts,
     ¬ (from_ts_col k ∈ columns df ∧ to_ts_col k ∈ columns df ∧
        cells row !! from_ts_col k = Some from_ts ∧
        cells row !! to_ts_col k = Some to_ts)) →
  row_offsets df k fps row = (0, duration_of (row_length row) fps).
Proof.
  intros Hno. unfold row_offsets.
  destruct (bool_decide (from_ts_col k ∈ columns df)) eqn:E1; [|done].
  destruct (bool_decide (to_ts_col k ∈ columns df)) eqn:E2; [|done].
  apply bool_decide_eq_true in E1, E2. simpl.
  destruct (cells row !! from_ts_col k) as [f|] eqn:E3; [|done].
  destruct (cells row !! to_ts_col k) as [g|] eqn:E4; [|done].
  by destruct (Hno f g).
Qed.

End AdapterFacts.

(** ** Episode timing *)

Module AdapterClaims.
Import Py PyFacts Adapter AdapterFacts.


(** A table that mixes the two behaviours: episode 0 has offsets in a shared
    file, episode 1 has null cells. *)
Definition front_from : string := "videos/front/from_timestamp".
Definition front_to : string := "videos/front/to_timestamp".

Definition row0 : episode_row :=
  {| ep_index := 0; ep_length := Some 300%Z;
     dataset_from_index := None; dataset_to_index := None;
     cells := {[ front_from := 12; front_to := 22 ]} |}.
Definition row1 : episode_row :=
  {| ep_index := 1; ep_length := Some 150%Z;
     dataset_from_index := None; dataset_to_index := None;
     cells := ∅ |}.
Definition mixed : manager :=
  {| info := Some {| info_fps := Some 30 |};
     episodes_df := Some {| columns := [front_from; front_to]; rows := [row0; row1] |};
     video_key := Some "front" |}.


End AdapterClaims.

(** ** Interval assignment *)

Module AssignClaims.
Import Py PyFacts App AppFacts.

Definition boundary_segments : list segment := [subtask 0 1 "L0"; subtask 1 2 "L1"].
Definition boundary_timestamps : list Q := [0; 999 # 1000; 1; 1999 # 1000; 2].
Definition boundary_mapping : gmap string Z := {[ "L0" := 0%Z; "L1" := 1%Z ]}.

(** C1.  For a non-empty list of segments whose labels can be formed, interval
    assignment works on the segments sorted by start ascending (a sorted
    permutation of the input) and returns one value per timestamp: the
    mapping's index ([mapping.get(label, -1)]) of the first sorted segment
    with [start <= ts < end], or, for the segment in last sorted position,
    with [ts <= end]; and -1 for a timestamp that no segment covers in this
    sense.  On segments [(0,1,L0),(1,2,L1)] and timestamps
    [0, 0.999, 1.0, 1.999, 2.0] the result is [0,0,1,1,1]. *)
Theorem assign_indices_by_segments_spec timestamps segments mapping key :
  segments ≠ [] →
  Forall (λ s, returns (seg_label key s)) segments →
  let segments_sorted := sorted lt_start segments in
  segments_sorted ≡ₚ segments ∧
  StronglySorted (λ a b, seg_start a <= seg_start b) segments_sorted ∧
  (∃ values,
     assign_indices_by_segments timestamps segments mapping key = Ok values ∧
     length values = length timestamps ∧
     ∀ i ts, timestamps !! i = Some ts →
       (∃ k seg lbl, first_cover segments_sorted ts k seg ∧
                     seg_label key seg = Ok lbl ∧
                     values !! i = Some (mapping_get mapping lbl))
       ∨ (no_cover segments_sorted ts ∧ values !! i = Some (-1)%Z)) ∧
  assign_indices_by_segments boundary_timestamps boundary_segments
    boundary_mapping key_label = Ok [0; 0; 1; 1; 1]%Z.
Proof.
  intros Hne Hlabels segments_sorted.
  assert (Hperm : segments_sorted ≡ₚ segments) by apply sorted_perm.
  split; [done|]. split; [apply sorted_by_start_sorted|]. split; [|by vm_compute].
  destruct (for_each_Forall2
    (λ ts, scan_segments mapping key ts (length segments_sorted) 0 segments_sorted)
    timestamps) as (values & Hvalues & HF).
  { intros ts _. destruct (scan_sorted_spec mapping key segments_sorted ts) as (v & Hv & _).
    - unfold segments_sorted. by rewrite sorted_perm.
    - by exists v. }
  exists values. split; [|split].
  - unfold assign_indices_by_segments. by destruct segments.
  - symmetry. by eapply Forall2_length.
  - intros i ts Hi.
    destruct (Forall2_lookup_l _ _ _ _ _ HF Hi) as (v & Hv & Hscan_v).
    destruct (scan_sorted_spec mapping key segments_sorted ts) as (v' & Hv' & Hcover).
    { unfold segments_sorted. by rewrite sorted_perm. }
    rewrite Hv' in Hscan_v. injection Hscan_v as ->.
    destruct Hcover as [(k & seg & lbl & Hk & Hlbl & ->)|[Hnone ->]].
    + left. by exists k, seg, lbl.
    + by right.
Qed.

Lemma assign_indices_by_segments_spec_witness :
  boundary_segments ≠ [] ∧
  Forall (λ s, returns (seg_label key_label s)) boundary_segments ∧
  assign_indices_by_segments boundary_timestamps boundary_segments
    boundary_mapping key_label = Ok [0; 0; 1; 1; 1]%Z.
Proof.
  assert (H1 : boundary_segments ≠ []) by discriminate.
  assert (H2 : Forall (λ s, returns (seg_label key_label s)) boundary_segments).
  { repeat constructor; by eexists. }
  split; [exact H1|]. split; [exact H2|].
  exact (proj2 (proj2 (proj2
    (assign_indices_by_segments_spec boundary_timestamps boundary_segments
       boundary_mapping key_label H1 H2)))).
Defined.

Definition overlap_segments : list segment := [subtask 0 2 ""; subtask 1 3 "a"].
Definition overlap_mapping : gmap string Z := {[ "a" := 0%Z ]}.

(** C10.  If the first sorted segment covering [ts] (by [start <= ts < end],
    or [ts <= end] in last position) carries a label that is not a key of the
    mapping, for instance an empty subtask label, then [ts] gets index -1: the
    scan ends there, whatever segments follow, so a later overlapping segment
    with a mapped label is not consulted. *)
Theorem unmapped_first_cover_gives_minus_one ts segments mapping key k seg lbl :
  first_cover (sorted lt_start segments) ts k seg →
  seg_label key seg = Ok lbl →
  unmapped mapping lbl →
  assign_indices_by_segments [ts] segments mapping key = Ok [(-1)%Z].
Proof.
  intros Hk Hlbl Hun.
  unfold assign_indices_by_segments. destruct segments as [|s0 segments].
  { destruct Hk as [Hk _]. by destruct k. }
  cbv zeta. simpl for_each.
  rewrite (scan_sorted_first _ _ _ _ _ _ Hk), Hlbl. simpl.
  replace (mapping_get mapping lbl) with (-1)%Z; [done|].
  destruct lbl as [| |s]; simpl in *; [done..|]. by rewrite Hun.
Qed.

Lemma unmapped_first_cover_gives_minus_one_witness :
  first_cover (sorted lt_start overlap_segments) (3 # 2) 0 (subtask 0 2 "") ∧
  (∃ s, sorted lt_start overlap_segments !! 1%nat = Some s ∧
        covers 2 1 s (3 # 2) ∧ overlap_mapping !! or_empty (label s) = Some 0%Z) ∧
  assign_indices_by_segments [3 # 2] overlap_segments overlap_mapping key_label
  = Ok [(-1)%Z].
Proof.
  assert (H1 : first_cover (sorted lt_start overlap_segments) (3 # 2) 0 (subtask 0 2 "")).
  { split; [done|]. split; [left; split; by vm_compute|]. intros; lia. }
  split; [exact H1|]. split.
  - exists (subtask 1 3 "a"). split; [done|]. split; [left; split; by vm_compute|done].
  - apply (unmapped_first_cover_gives_minus_one (3 # 2) overlap_segments overlap_mapping
             key_label 0 (subtask 0 2 "") (Str "") H1); [done|by vm_compute].
Defined.

End AssignClaims.

(** ** Export label maps *)

Module ExportClaims.
Import Py PyFacts App AppFacts MapFacts ExportFacts.

Lemma subtask_labels_elem (anns : annotations) l :
  l ∈ anns.*2 ≫= subtask_labels_of
  ↔ l ≠ "" ∧ ∃ ann seg, ann ∈ anns.*2 ∧ seg ∈ subtasks ann ∧ label seg = Str l.
Proof.
  rewrite list_elem_of_bind. unfold subtask_labels_of. split.
  - intros (ann & Hl & Hann). apply list_elem_of_omap in Hl as (seg & Hseg & Hl).
    destruct (label seg) as [| |s] eqn:E; simpl in Hl; try done.
    destruct (String.eqb s "") eqn:Es; simpl in Hl; [done|]. injection Hl as <-.
    split; [by apply String.eqb_neq|]. by exists ann, seg.
  - intros (Hne & ann & seg & Hann & Hseg & Hl). exists ann. split; [|done].
    apply list_elem_of_omap. exists seg. split; [done|]. rewrite Hl. simpl.
    by apply String.eqb_neq in Hne as ->.
Qed.

Lemma row_value_first_cover mapping key segs ts v k seg lbl :
  row_value mapping key (Some segs) ts v →
  first_cover (sorted lt_start segs) ts k seg → seg_label key seg = Ok lbl →
  v = mapping_get mapping lbl.
Proof.
  intros [(k' & seg' & lbl' & Hk' & Hlbl' & ->)|[Hnone _]] Hk Hlbl.
  - destruct (first_cover_unique _ _ _ _ _ _ Hk Hk') as [_ <-]. congruence.
  - destruct Hk as (Hk & Hc & _). by destruct (Hnone _ _ Hk).
Qed.

Definition two_labels : annotations :=
  [(0%Z, {| subtasks := [subtask 0 1 "b"; subtask 1 2 "a"];
            high_levels := []; qa_labels := [] |})].



Definition question (s e : Q) (q a : string) : segment :=
  {| start := Some s; end_ := Some e; label := Absent;
     user_prompt := Str q; robot_utterance := Str a; robot_response := Absent;
     skill := PyNone; scenario_type := Str "vqa"; response_type := Str "answer" |}.

Definition two_episodes : annotations :=
  [(0%Z, {| subtasks := [subtask 0 1 "b"; subtask 1 2 "a"];
            high_levels := [question 0 2 "what" "cup"]; qa_labels := [] |});
   (1%Z, {| subtasks := [subtask 0 2 "a"];
            high_levels := [question 0 1 "where" "left"; question 1 2 "what" "cup"];
            qa_labels := [] |})].

Definition two_episodes_rows : list sample_row :=
  [ {| episode_index := 0; timestamp := 3 # 2 |};
    {| episode_index := 1; timestamp := 3 # 2 |} ].


End ExportClaims.

(** ** Merging and persisting generated segments *)

Module EngineClaims.
Import Py PyFacts App Engine EngineFacts.

(** [prev] with its end replaced by the end of [s]. *)
Definition with_end_of (prev s : segment) : segment :=
  {| start := start prev; end_ := end_ s;
     label := label prev; user_prompt := user_prompt prev;
     robot_utterance := robot_utterance prev; robot_response := robot_response prev;
     skill := skill prev; scenario_type := scenario_type prev;
     response_type := response_type prev |}.

(** C7, as stated: a mergeable pair becomes one segment whose end is the
    later segment's end.  It fails when the later segment ends first:
    [(0,5,"a"),(1,2,"a")] merges to [(0,5,"a")], not [(0,2,"a")]. *)
Lemma merged_end_is_not_the_later_end :
  ¬ (∀ prev s, mergeable prev s = true →
       _merge_adjacent_subtasks [prev; s] = [round_segment (with_end_of prev s)]).
Proof.
  intros H. specialize (H (subtask 0 5 "a") (subtask 1 2 "a") eq_refl).
  vm_compute in H. discriminate H.
Qed.

(** C7, amended.  The merge walks the list once, comparing each segment
    with the segment accumulated before it (the result of the merges so far):
    when their label strings are identical and [prev.end >= next.start] the
    accumulated segment's end becomes the larger of the two ends, which is
    the later segment's end whenever that one does not end earlier;
    otherwise the segment is kept as it is.  Every resulting start and end
    is then rounded to the nearest multiple of 1/1000.  Merging
    [(0,2,"a"),(2,4,"a"),(4,5,"b")] yields [(0,4,"a"),(4,5,"b")]. *)
Theorem merge_adjacent_subtasks_spec :
  _merge_adjacent_subtasks [] = [] ∧
  (∀ s0 rest,
     _merge_adjacent_subtasks (s0 :: rest) = round_segment <$> merge_chain s0 rest) ∧
  (∀ prev s,
     mergeable prev s = true
     ↔ str (get (label prev) "") = str (get (label s) "") ∧ seg_start s <= seg_end prev) ∧
  (∀ prev s, seg_start (extend prev s) = seg_start prev ∧
             label (extend prev s) = label prev ∧
             (seg_end prev <= seg_end s → seg_end (extend prev s) == seg_end s) ∧
             (seg_end s <= seg_end prev → seg_end (extend prev s) = seg_end prev)) ∧
  (∀ s, start (round_segment s) = Some (round3 (seg_start s)) ∧
        end_ (round_segment s) = Some (round3 (seg_end s)) ∧
        label (round_segment s) = label s) ∧
  (∀ x, ∃ n : Z, round3 x == n # 1000 ∧ Qabs (x - round3 x) <= 1 # 2000) ∧
  _merge_adjacent_subtasks [subtask 0 2 "a"; subtask 2 4 "a"; subtask 4 5 "b"]
  = [subtask 0 4 "a"; subtask 4 5 "b"].
Proof.
  split; [done|]. split; [apply merge_adjacent_chain|]. split; [apply mergeable_iff|].
  split.
  { intros prev s. split; [done|]. split; [done|]. split.
    - apply fmax_le_r.
    - apply fmax_le_l. }
  split; [done|]. split; [apply round3_spec|]. by vm_compute.
Qed.

Definition stored_before : annotations :=
  [(0%Z, {| subtasks := [subtask 0 2 "a"]; high_levels := []; qa_labels := [] |})].

Definition resume_replace : request :=
  {| req_episode_index := 0; req_mode := replace; start_time_s := None;
     resume_from_last := Some true; merge_adjacent := Some true |}.

(** A generator that labels the window after the resumed start time. *)
Definition one_more_window (req : request) (start : option Q) : result (list segment) :=
  match start with
  | Some t => Ok [subtask t (t + 2) "b"]
  | None => Ok [subtask 0 2 "b"]
  end.

(** C2, on the code.  Subtask generation with [resume_from_last=true] and
    [mode="replace"] on an episode that holds [(0,2,"a")]: the generator is
    started at 2, the end of the stored segment, and its result [(2,4,"b")]
    replaces the stored list, of which the prior list is no prefix.  Question
    generation keeps the prior list ([EngineFacts.generate_fake_vqa_resume_keeps]). *)
Theorem generate_subtasks_resume_replace_overwrites :
  let '(anns, res) :=
    generate_subtasks one_more_window resume_replace stored_before in
  res = Ok [subtask 2 4 "b"] ∧
  subtasks <$> annotations_get anns 0 = Some [subtask 2 4 "b"] ∧
  ¬ [subtask 0 2 "a"] `prefix_of` [subtask 2 4 "b"].
Proof.
  vm_compute. split; [done|]. split; [done|].
  intros [k Hk]. discriminate Hk.
Qed.

End EngineClaims.

(** ** Structured output extraction *)

Module JsonFacts.
Import Py Json JsonParse.

Section Extract.
Context (json_loads : string → option value).

(** The first strategy wins when the whole text is a mapping. *)
Lemma extract_direct text d :
  strip text ≠ "" → json_loads (strip text) = Some (JObject d) →
  extract_json_object json_loads text = Ok d.
Proof.
  intros Hne Hd. unfold extract_json_object.
  apply String.eqb_neq in Hne as ->. by rewrite Hd.
Qed.

Lemma extract_empty text :
  strip text = "" →
  extract_json_object json_loads text = Raise (ValueError "empty model output").
Proof. intros H. unfold extract_json_object. by rewrite H. Qed.

(** The whole text is not a mapping. *)
Definition not_direct (text : string) : Prop :=
  ∀ d, json_loads (strip text) ≠ Some (JObject d).

(** The second strategy wins when the fenced region is a mapping. *)
Lemma extract_fenced text candidate d :
  strip text ≠ "" → not_direct text →
  search (strip text) = Some candidate → json_loads candidate = Some (JObject d) →
  extract_json_object json_loads text = Ok d.
Proof.
  intros Hne Hnd Hs Hc. unfold extract_json_object.
  apply String.eqb_neq in Hne as ->.
  destruct (json_loads (strip text)) as [[]|] eqn:E;
    try (rewrite Hs; unfold loads_dict; rewrite Hc; done).
  by destruct (Hnd members0).
Qed.

(** A fenced region that does not parse ends the call with the decode
    error: the third strategy is not tried. *)
Lemma extract_fenced_error text candidate :
  strip text ≠ "" → not_direct text →
  search (strip text) = Some candidate → json_loads candidate = None →
  extract_json_object json_loads text = Raise JSONDecodeError.
Proof.
  intros Hne Hnd Hs Hc. unfold extract_json_object.
  apply String.eqb_neq in Hne as ->.
  destruct (json_loads (strip text)) as [[]|] eqn:E;
    try (rewrite Hs; unfold loads_dict; rewrite Hc; done).
  by destruct (Hnd members0).
Qed.

(** The third strategy decides when there is no fenced region. *)
Lemma extract_braces text candidate :
  strip text ≠ "" → not_direct text →
  search (strip text) = None → braces (strip text) = Some candidate →
  extract_json_object json_loads text
  = match json_loads candidate with
    | None => Raise JSONDecodeError
    | Some (JObject d) => Ok d
    | Some _ => Raise (ValueError "could not parse JSON object from model output")
    end.
Proof.
  intros Hne Hnd Hs Hb. unfold extract_json_object.
  apply String.eqb_neq in Hne as ->.
  destruct (json_loads (strip text)) as [[]|] eqn:E;
    try (rewrite Hs, Hb; unfold loads_dict; simpl;
         by destruct (json_loads candidate) as [[]|]).
  by destruct (Hnd members0).
Qed.
End Extract.

End JsonFacts.

Module JsonClaims.
Import Py Json JsonParse JsonFacts.

Definition q : string := String dquote EmptyString.

(** The reply [{"a": "```{x}```"} trailing]: a mapping followed by prose,
    whose string value quotes a fenced block. *)
Definition quoted_fence : string :=
  "{" +:+ q +:+ "a" +:+ q +:+ ": " +:+ q +:+ "```{x}```" +:+ q +:+ "} trailing".

(** C4, on the code.  On the reply above the whole text does not parse, the
    fenced region [{x}] is found and does not parse, and the call ends with
    the decode error of the second strategy, although the third candidate,
    from the first opening to the last closing brace, is a mapping. *)
Theorem fenced_decode_error_escapes :
  loads (strip quoted_fence) = None ∧
  search (strip quoted_fence) = Some "{x}" ∧ loads "{x}" = None ∧
  (∃ candidate, braces (strip quoted_fence) = Some candidate ∧
                loads candidate = Some (JObject [([97%N], JString [96; 96; 96; 123; 120; 125; 96; 96; 96]%N)])) ∧
  extract_json_object loads quoted_fence = Raise JSONDecodeError.
Proof.
  split; [by vm_compute|]. split; [by vm_compute|]. split; [by vm_compute|].
  split.
  { exists ("{" +:+ q +:+ "a" +:+ q +:+ ": " +:+ q +:+ "```{x}```" +:+ q +:+ "}").
    split; vm_compute; reflexivity. }
  apply (extract_fenced_error loads quoted_fence "{x}"); vm_compute; done.
Qed.

End JsonClaims.

(** ** The media cache *)

Module SamplerFacts.
Import Py PyFacts Sampler.

Section Facts.
Context `{Externals} (self : FrameSampler).

(** The cache path and the transcoder command of an operation. *)
Definition out_path_of (video_path : string) (op : operation) : string :=
  match op with
  | frame ts_sec => _frame_path self video_path ts_sec
  | clip start_sec end_sec fps =>
      _clip_path self video_path start_sec (clamp_end start_sec end_sec) (clamp_fps fps)
  end.

Definition cmd_of (video_path : string) (op : operation) : list string :=
  match op with
  | frame ts_sec =>
      frame_cmd self video_path ts_sec (_frame_path self video_path ts_sec)
  | clip start_sec end_sec fps =>
      clip_cmd self video_path start_sec (clamp_end start_sec end_sec) (clamp_fps fps)
        (_clip_path self video_path start_sec (clamp_end start_sec end_sec)
           (clamp_fps fps))
  end.

Lemma cmd_of_last video_path op :
  last (cmd_of video_path op) = Some (out_path_of video_path op).
Proof. by destruct op. Qed.

Lemma cmd_of_overwrites video_path op : "-y" ∈ cmd_of video_path op.
Proof. destruct op; simpl; unfold frame_cmd, clip_cmd; set_solver. Qed.

(** A valid entry is returned as it is: nothing runs, nothing changes. *)
Lemma extract_hit w video_path op :
  valid (fs w) (out_path_of video_path op) = true →
  extract self w video_path op = (Ok (out_path_of video_path op), w).
Proof.
  intros Hv. destruct op; simpl in *; unfold extract_frame, extract_clip;
    by rewrite Hv.
Qed.

(** Without a valid entry the cache directory is made and the transcoder
    runs once, on the command of the operation. *)
Lemma extract_miss w video_path op :
  valid (fs w) (out_path_of video_path op) = false →
  let cmd := cmd_of video_path op in
  let w2 := {| fs := (ffmpeg cmd (fs w)).1;
               trace := trace w ++ [Mkdir (cache_dir self); Run cmd] |} in
  (extract self w video_path op).2 = w2 ∧
  ((extract self w video_path op).1 = Ok (out_path_of video_path op)
   ↔ (ffmpeg cmd (fs w)).2 = None ∧ valid (fs w2) (out_path_of video_path op) = true) ∧
  ∀ p, (extract self w video_path op).1 = Ok p → p = out_path_of video_path op.
Proof.
  intros Hv cmd w2.
  assert (Hw2 : ∀ err, ffmpeg cmd (fs w) = ((ffmpeg cmd (fs w)).1, err) →
            run cmd (record (Mkdir (cache_dir self)) w) = (w2, err)).
  { intros err Herr. unfold run, record. cbn [fs trace]. rewrite Herr.
    unfold w2. by rewrite <- app_assoc. }
  destruct (ffmpeg cmd (fs w)) as [f err] eqn:Ef.
  specialize (Hw2 err eq_refl). cbn [fst snd] in *.
  destruct op; simpl in Hv; cbn [extract]; unfold extract_frame, extract_clip;
    rewrite Hv; fold cmd in Hw2 |- *; cbn [cmd_of] in cmd;
    (change (frame_cmd _ _ _ _) with cmd || change (clip_cmd _ _ _ _ _ _) with cmd);
    rewrite Hw2; destruct err as [stderr|]; cbn [fst snd out_path_of];
    try destruct (valid (fs w2) _) eqn:Hv2;
    repeat split; try done; try (by intros [? ?]); try (by intros ? [= <-]).
Qed.

Lemma extract_ok w video_path op p w1 :
  extract self w video_path op = (Ok p, w1) →
  p = out_path_of video_path op ∧ valid (fs w1) p = true ∧
  ((valid (fs w) p = true ∧ w1 = w)
   ∨ (valid (fs w) p = false ∧
      fs w1 = (ffmpeg (cmd_of video_path op) (fs w)).1 ∧
      trace w1 = trace w ++ [Mkdir (cache_dir self); Run (cmd_of video_path op)])).
Proof.
  intros Hex. destruct (valid (fs w) (out_path_of video_path op)) eqn:Hv.
  - rewrite extract_hit in Hex by done. injection Hex as <- <-.
    split; [done|]. split; [done|]. by left.
  - destruct (extract_miss w video_path op Hv) as (Hw & Hiff & Hp).
    rewrite Hex in Hw, Hiff, Hp. cbn [fst snd] in *.
    assert (p = out_path_of video_path op) as -> by by apply Hp.
    destruct (proj1 Hiff eq_refl) as [_ Hv2]. rewrite <- Hw in Hv2.
    split; [done|]. split; [done|]. right. rewrite Hw. by split.
Qed.

Lemma transcoder_runs_app tr tr' :
  transcoder_runs (tr ++ tr') = (transcoder_runs tr + transcoder_runs tr')%nat.
Proof. unfold transcoder_runs. by rewrite List.filter_app, length_app. Qed.
End Facts.

Lemma clamp_end_spec start_sec end_sec :
  (end_sec <= start_sec → clamp_end start_sec end_sec == start_sec + (5 # 100)) ∧
  (start_sec < end_sec → clamp_end start_sec end_sec = end_sec) ∧
  start_sec < clamp_end start_sec end_sec.
Proof.
  unfold clamp_end. destruct (fle end_sec start_sec) eqn:E.
  - apply fle_iff in E. split; [intros _; apply Qred_correct|].
    split; [intros; lra|]. rewrite Qred_correct. lra.
  - assert (start_sec < end_sec).
    { apply Qnot_le_lt. intros Hle. apply fle_iff in Hle. congruence. }
    split; [intros; lra|]. by split.
Qed.

Lemma clamp_fps_spec fps :
  (fps <= 1 # 1000000 → clamp_fps fps = 1) ∧
  (1 # 1000000 < fps → clamp_fps fps = fps) ∧
  0 < clamp_fps fps.
Proof.
  unfold clamp_fps. destruct (fle fps (1 # 1000000)) eqn:E.
  - apply fle_iff in E. split; [done|]. split; [intros; lra|]. lra.
  - assert (1 # 1000000 < fps).
    { apply Qnot_le_lt. intros Hle. apply fle_iff in Hle. congruence. }
    split; [intros; lra|]. split; [done|]. lra.
Qed.

End SamplerFacts.

Module SamplerClaims.
Import Py PyFacts Sampler SamplerFacts.

(** A stand-in for the outside, for running the cache on an example: the
    hash is the identity, a float prints as its fraction, and the transcoder
    writes one byte to the last argument of its command. *)
Definition print_fraction (x : Q) : string :=
  pretty (Qnum x) +:+ "/" +:+ pretty (Z.pos (Qden x)).

Definition test_double : Externals :=
  {| sha1_hexdigest := λ s, s;
     format_fixed := λ _ x, print_fraction x;
     format_float := print_fraction;
     ffmpeg := λ cmd f,
       match last cmd with
       | Some out => (<[out := [Byte.x2a]]> f, None)
       | None => (f, Some "no output file")
       end |}.

Definition sampler : FrameSampler := {| cache_dir := ".cache/ai_frames"; image_max_side := 768 |}.
Definition empty_world : world := {| fs := ∅; trace := [] |}.

(** C6.  When a frame or clip operation returns a cache entry, the same
    call made again returns the same entry and leaves the machine as it is:
    the entry's bytes are the same and the transcoder is not run again, so
    that it ran at most once over the two calls. *)
Theorem extract_twice `{Externals} self w video_path op p w1 :
  extract self w video_path op = (Ok p, w1) →
  extract self w1 video_path op = (Ok p, w1) ∧
  valid (fs w1) p = true ∧
  (transcoder_runs (trace w1) <= transcoder_runs (trace w) + 1)%nat.
Proof.
  intros Hex. destruct (extract_ok self _ _ _ _ _ Hex) as (-> & Hv & Hcase).
  split; [by apply extract_hit|]. split; [done|].
  destruct Hcase as [[_ ->]|(_ & _ & ->)]; [lia|].
  rewrite transcoder_runs_app. unfold transcoder_runs at 2. simpl. lia.
Qed.

Lemma extract_twice_witness :
  ∃ p w1,
    @extract test_double sampler empty_world "ep0.mp4" (clip 0 2 3) = (Ok p, w1) ∧
    @extract test_double sampler w1 "ep0.mp4" (clip 0 2 3) = (Ok p, w1) ∧
    transcoder_runs (trace w1) = 1%nat.
Proof.
  destruct (@extract test_double sampler empty_world "ep0.mp4" (clip 0 2 3))
    as [[p|e] w1] eqn:E; [|by vm_compute in E].
  exists p, w1. split; [done|].
  destruct (@extract_twice test_double sampler empty_world "ep0.mp4" (clip 0 2 3) p w1 E)
    as (H2 & _ & _).
  split; [exact H2|]. vm_compute in E. by injection E as <- <-.
Defined.

(** C8, as stated: the effective end is at least [start + 0.05].  It fails
    for a clip from 0 to 0.01, whose end stays 0.01. *)
Lemma clip_end_below_minimum :
  ¬ (∀ start_sec end_sec : Q, start_sec + (5 # 100) <= clamp_end start_sec end_sec).
Proof. intros H. specialize (H 0 (1 # 100)). vm_compute in H. by apply H. Qed.

(** C8, amended.  The clip operation replaces the end by [start + 0.05] when
    [end <= start] and leaves it otherwise, so that the effective end lies
    after the start; it replaces a frame rate of at most 1e-6, hence every
    non-positive one, by 1.0.  The cache key and the transcoder command are
    computed from the effective values. *)
Theorem extract_clip_clamps `{Externals} self w video_path start_sec end_sec fps :
  let end' := clamp_end start_sec end_sec in
  let fps' := clamp_fps fps in
  let out_path := _clip_path self video_path start_sec end' fps' in
  (end_sec <= start_sec → end' == start_sec + (5 # 100)) ∧
  (start_sec < end_sec → end' = end_sec) ∧
  start_sec < end' ∧
  (fps <= 0 → fps' = 1) ∧
  (fps <= 1 # 1000000 → fps' = 1) ∧
  (1 # 1000000 < fps → fps' = fps) ∧
  0 < fps' ∧
  (valid (fs w) out_path = true →
     extract_clip self w video_path start_sec end_sec fps = (Ok out_path, w)) ∧
  (valid (fs w) out_path = false →
     trace (extract_clip self w video_path start_sec end_sec fps).2
     = trace w ++ [Mkdir (cache_dir self);
                   Run (clip_cmd self video_path start_sec end' fps' out_path)]).
Proof.
  intros end' fps' out_path.
  destruct (clamp_end_spec start_sec end_sec) as (He1 & He2 & He3).
  destruct (clamp_fps_spec fps) as (Hf1 & Hf2 & Hf3).
  do 3 (split; [done|]). split; [intros; apply Hf1; lra|]. do 3 (split; [done|]).
  split.
  - intros Hv. by apply (extract_hit self w video_path (clip start_sec end_sec fps)).
  - intros Hv.
    destruct (extract_miss self w video_path (clip start_sec end_sec fps) Hv) as (Hw & _).
    cbn [extract] in Hw. by rewrite Hw.
Qed.

(** C9, as stated: a cache entry is written to a temporary file that is
    then renamed to the cache path.  It fails on the first clip extracted
    into an empty cache: the transcoder is given the cache path itself and no
    rename takes place. *)
Lemma cache_write_is_not_temp_then_rename :
  ¬ (∀ (E : Externals) self w video_path op p w1,
       @extract E self w video_path op = (Ok p, w1) →
       writes_via_rename (new_events w w1) p).
Proof.
  intros Hclaim.
  destruct (@extract test_double sampler empty_world "ep0.mp4" (clip 0 2 3))
    as [[p|e] w1] eqn:E; [|by vm_compute in E].
  specialize (Hclaim test_double sampler empty_world "ep0.mp4" (clip 0 2 3) p w1 E).
  vm_compute in E. injection E as <- <-.
  unfold writes_via_rename, new_events in Hclaim. simpl in Hclaim.
  edestruct Hclaim as [Hlast _].
  { right. left. }
  by apply Hlast.
Qed.

(** C9, amended.  A cache entry is written by the transcoder itself, run
    once with the overwrite flag and the final cache path as its output,
    after the cache directory is made; no temporary file and no rename are
    involved, and the entry is returned when that run exits with status zero
    and leaves a non-empty file at the path.  An entry already valid is
    returned without any file operation. *)
Theorem cache_write_is_direct `{Externals} self w video_path op p w1 :
  extract self w video_path op = (Ok p, w1) →
  (valid (fs w) p = true ∧ w1 = w)
  ∨ (valid (fs w) p = false ∧
     ∃ cmd, new_events w w1 = [Mkdir (cache_dir self); Run cmd] ∧
            last cmd = Some p ∧ "-y" ∈ cmd ∧
            ffmpeg cmd (fs w) = (fs w1, None) ∧
            valid (fs w1) p = true).
Proof.
  intros Hex. destruct (extract_ok self _ _ _ _ _ Hex) as (-> & Hv & Hcase).
  destruct Hcase as [?|(Hmiss & Hfs & Htr)]; [by left|]. right. split; [done|].
  exists (cmd_of self video_path op).
  split; [unfold new_events; by rewrite Htr, drop_app_length|].
  split; [apply cmd_of_last|]. split; [apply cmd_of_overwrites|]. split; [|done].
  destruct (extract_miss self w video_path op Hmiss) as (_ & Hiff & _).
  rewrite Hex in Hiff. destruct (proj1 Hiff eq_refl) as [Herr _].
  rewrite Hfs. destruct (ffmpeg _ _) as [f err]. simpl in *. by rewrite Herr.
Qed.

Lemma cache_write_is_direct_witness :
  ∃ p w1,
    @extract test_double sampler empty_world "ep0.mp4" (frame (1 # 2)) = (Ok p, w1) ∧
    ∃ cmd, new_events empty_world w1 = [Mkdir ".cache/ai_frames"; Run cmd] ∧
           last cmd = Some p.
Proof.
  destruct (@extract test_double sampler empty_world "ep0.mp4" (frame (1 # 2)))
    as [[p|e] w1] eqn:E; [|by vm_compute in E].
  exists p, w1. split; [done|].
  destruct (@cache_write_is_direct test_double sampler empty_world "ep0.mp4"
              (frame (1 # 2)) p w1 E) as [[Hv _]|(_ & cmd & Hev & Hlast & _)].
  - vm_compute in E. injection E as <- <-. by vm_compute in Hv.
  - by exists cmd.
Defined.

End SamplerClaims.

(** * Further properties of the code *)

(** ** app.py: question flags, byte ranges, task keys, export *)

Module AppRestFacts.
Import Py PyFacts App AppFacts MapFacts ExportFacts EngineFacts AppRest.

(** An integer closer than one half is the rounded value. *)
Lemma round_half_even_unique q k :
  Qabs (q - inject_Z k) < 1 # 2 → round_half_even q = k.
Proof.
  intros Hk. pose proof (round_half_even_close q) as Hr.
  apply Qabs_Qle_condition in Hr as [Hr1 Hr2].
  apply Qabs_Qlt_condition in Hk as [Hk1 Hk2].
  set (r := round_half_even q) in *.
  assert (H1 : inject_Z r < inject_Z (k + 1)).
  { rewrite inject_Z_plus. change (inject_Z 1) with 1. lra. }
  assert (H2 : inject_Z k < inject_Z (r + 1)).
  { rewrite inject_Z_plus. change (inject_Z 1) with 1. lra. }
  rewrite <- Zlt_Qlt in H1, H2. lia.
Qed.

Lemma round_to_close scale x :
  Qabs (x - round_to scale x) <= 1 # (2 * scale).
Proof.
  unfold round_to. rewrite Qred_correct.
  pose proof (round_half_even_close (x * (Z.pos scale # 1))) as Hc.
  apply Qabs_Qle_condition in Hc as [Hlo Hhi]. apply Qabs_Qle_condition.
  set (n := round_half_even (x * (Z.pos scale # 1))) in *. clearbody n.
  destruct x as [a b].
  unfold Qle, Qminus, Qplus, Qopp, Qmult, inject_Z in *. cbn [Qnum Qden] in *.
  rewrite ?Pos2Z.inj_mul in *. split; nia.
Qed.

Lemma frame_timestamp_rounds_back fps k :
  0 < fps → fps < 1000000 →
  round_half_even
    (round_to 1000000 (Qred (inject_Z k / fps)) * fps) = k.
Proof.
  intros Hpos Hmax. apply round_half_even_unique.
  pose proof (round_to_close 1000000 (Qred (inject_Z k / fps))) as Hc.
  rewrite Qred_correct in Hc at 1.
  set (ts := round_to 1000000 (Qred (inject_Z k / fps))) in *. clearbody ts.
  apply Qabs_Qle_condition in Hc as [Hlo Hhi]. apply Qabs_Qlt_condition.
  assert (Hk : inject_Z k == inject_Z k / fps * fps) by (field; lra).
  set (x := inject_Z k / fps) in *. clearbody x. rewrite Hk.
  change (1 # 2 * 1000000) with (1 # 2000000) in *.
  split; nra.
Qed.

Lemma assign_vqa_flags_nonempty timestamps (labels : list qa_label) fps :
  labels ≠ [] →
  assign_vqa_flags timestamps labels fps
  = (λ ts, if decide (round_half_even (ts * fps_or_default fps)
                      ∈ (list_to_set (frame_idx <$> labels) : gset Z))
           then 1%Z else 0%Z) <$> timestamps.
Proof.
  intros Hne. unfold assign_vqa_flags. destruct labels as [|l0 ls]; [done|].
  rewrite decide_False; [done|]. set_solver.
Qed.

Lemma decimal_nonneg s : (0 <= Json.decimal s)%Z.
Proof.
  unfold Json.decimal.
  assert (H : ∀ l acc, (0 <= acc)%Z →
            (0 <= foldl (λ acc c, 10 * acc + Z.of_N (Json.code c - 48)) acc l)%Z).
  { induction l as [|c l IH]; intros acc Hacc; simpl; [done|]. apply IH. lia. }
  by apply H.
Qed.

(** *** Task keys *)

(** One of the four joined fields holds [None]. *)
Definition has_none (seg : segment) : Prop :=
  user_prompt seg = PyNone ∨ robot_utterance seg = PyNone ∨
  scenario_type seg = PyNone ∨ response_type seg = PyNone.

Lemma make_task_key_none seg : has_none seg → make_task_key seg = Raise TypeError.
Proof.
  unfold has_none, make_task_key.
  destruct (user_prompt seg), (robot_utterance seg), (scenario_type seg),
    (response_type seg); simpl; intros [?|[?|[?|?]]]; done.
Qed.

Lemma make_task_key_returns seg : ¬ has_none seg → returns (make_task_key seg).
Proof.
  unfold has_none, make_task_key, returns.
  destruct (user_prompt seg), (robot_utterance seg), (scenario_type seg),
    (response_type seg); simpl; intros Hn; try (by eexists); destruct Hn; tauto.
Qed.

Lemma make_task_key_raises seg e : make_task_key seg = Raise e → e = TypeError.
Proof.
  unfold make_task_key.
  destruct (user_prompt seg), (robot_utterance seg), (scenario_type seg),
    (response_type seg); simpl; congruence.
Qed.

Lemma fold_result_cons {S A} (f : S → A → result S) st x l :
  fold_result f st (x :: l)
  = match f st x with Ok st' => fold_result f st' l | Raise e => Raise e end.
Proof. simpl. by destruct (f st x). Qed.

Lemma add_task_cases st seg :
  (∃ k st', make_task_key seg = Ok k ∧ add_task st seg = Ok st')
  ∨ (∃ e, make_task_key seg = Raise e ∧ add_task st seg = Raise e).
Proof.
  unfold add_task. destruct (make_task_key seg) as [k|e].
  - left. exists k. simpl. destruct (st.2 !! k); by eexists.
  - right. by exists e.
Qed.

Lemma fold_add_task_ok st l st' :
  fold_result add_task st l = Ok st' → Forall (λ s, returns (make_task_key s)) l.
Proof.
  revert st. induction l as [|seg l IH]; intros st H; [constructor|].
  rewrite fold_result_cons in H.
  destruct (add_task_cases st seg) as [(k & st1 & Hk & Ha)|(e & Hk & Ha)];
    rewrite Ha in H; [|done].
  constructor; [by exists k|]. by eapply IH.
Qed.

Lemma fold_add_task_none st l seg :
  seg ∈ l → has_none seg → fold_result add_task st l = Raise TypeError.
Proof.
  intros Hin Hnone. revert st. induction l as [|s l IH]; intros st.
  { by apply elem_of_nil in Hin. }
  rewrite fold_result_cons.
  destruct (add_task_cases st s) as [(k & st1 & Hk & Ha)|(e & Hk & Ha)]; rewrite Ha.
  - apply elem_of_cons in Hin as [->|Hin].
    + by rewrite (make_task_key_none _ Hnone) in Hk.
    + by apply IH.
  - f_equal. by eapply make_task_key_raises.
Qed.

(** *** Sorted permutations *)

Lemma strictly_sorted_unique {A} (R : A → A → Prop) (l l' : list A) :
  (∀ x y, R x y → R y x → False) →
  StronglySorted R l → StronglySorted R l' → l ≡ₚ l' → l = l'.
Proof.
  intros Hasym Hl. revert l'. induction Hl as [|x t Ht IH Hx]; intros l' Hl' Hperm.
  { by apply Permutation_nil in Hperm. }
  destruct l' as [|y t']. { symmetry in Hperm. by apply Permutation_nil in Hperm. }
  apply StronglySorted_inv in Hl' as [Ht' Hy].
  assert (x = y) as <-.
  { assert (Hxin : x ∈ y :: t') by (rewrite <- Hperm; left).
    assert (Hyin : y ∈ x :: t) by (rewrite Hperm; left).
    apply elem_of_cons in Hxin as [?|Hxin]; [done|].
    apply elem_of_cons in Hyin as [?|Hyin]; [done|].
    exfalso. apply (Hasym x y).
    - by apply (proj1 (Forall_forall _ _) Hx).
    - by apply (proj1 (Forall_forall _ _) Hy). }
  f_equal. apply IH; [done|]. by apply Permutation_cons_inv in Hperm.
Qed.

Lemma sorted_strengthen {A} (R S : A → A → Prop) (l : list A) :
  NoDup l → (∀ a b, a ∈ l → b ∈ l → a ≠ b → R a b → S a b) →
  StronglySorted R l → StronglySorted S l.
Proof.
  intros Hnd HRS Hl. induction Hl as [|x t Ht IH Hx]; [constructor|].
  apply NoDup_cons in Hnd as [Hxt Hnd]. constructor.
  - apply IH; [done|]. intros a b Ha Hb. apply HRS; by right.
  - apply Forall_forall. intros y Hy. apply HRS; [by left|by right| |].
    + intros ->. done.
    + by apply (proj1 (Forall_forall _ _) Hx).
Qed.

(** Writing under a mask keeps the length of the column and every position
    that the mask does not select. *)
Lemma assign_masked_frame mask vals col :
  length (assign_masked mask vals col) = length col ∧
  ∀ i : nat, mask !! i ≠ Some true → assign_masked mask vals col !! i = col !! i.
Proof.
  revert vals col. induction mask as [|b mask IH]; intros vals col; [done|].
  destruct col as [|c col]; [done|]. cbn [assign_masked]. destruct b.
  - destruct vals as [|v vals]; [done|]. destruct (IH vals col) as [Hlen Hpt].
    split; [simpl; by rewrite Hlen|]. intros [|i] Hi; [done|]. by apply Hpt.
  - destruct (IH vals col) as [Hlen Hpt].
    split; [simpl; by rewrite Hlen|]. intros [|i] Hi; [done|]. by apply Hpt.
Qed.

Lemma project_column_frame df ep segments mapping key col col' :
  project_column df (ep_mask df ep) segments mapping key col = Ok col' →
  length col' = length col ∧
  ∀ i r, df !! i = Some r → episode_index r ≠ ep → col' !! i = col !! i.
Proof.
  unfold project_column. destruct (_ && _).
  - destruct (assign_indices_by_segments _ _ _ _) as [vals|e]; [|done].
    cbn [mbind result_bind]. intros [= <-].
    destruct (assign_masked_frame (ep_mask df ep) vals col) as [Hlen Hpt].
    split; [done|]. intros i r Hr Hne. apply Hpt.
    rewrite (ep_mask_lookup _ _ _ _ Hr). rewrite bool_decide_false by done. done.
  - by intros [= <-].
Qed.

Lemma export_fold_frame subtask_map task_map (anns : annotations) df eps cols cols' :
  fold_result (export_episode subtask_map task_map anns df) cols eps = Ok cols' →
  length (subtask_index cols') = length (subtask_index cols) ∧
  length (task_index_high_level cols') = length (task_index_high_level cols) ∧
  ∀ i r, df !! i = Some r → annotations_get anns (episode_index r) = None →
         subtask_index cols' !! i = subtask_index cols !! i ∧
         task_index_high_level cols' !! i = task_index_high_level cols !! i.
Proof.
  revert cols. induction eps as [|ep eps IH]; intros cols Hfold.
  { injection Hfold as <-. split; [done|]. by split. }
  rewrite fold_result_cons in Hfold.
  destruct (export_episode subtask_map task_map anns df cols ep) as [cols1|e] eqn:E1;
    [|done].
  cbn [mbind result_bind] in Hfold. apply IH in Hfold as (Hl1 & Hl2 & Hrows).
  unfold export_episode in E1.
  destruct (annotations_get anns ep) as [ann|] eqn:Hann.
  2:{ injection E1 as <-. split; [done|]. by split. }
  destruct (project_column df _ (subtasks ann) _ _ _) as [sub|e] eqn:Es; [|done].
  cbn [mbind result_bind] in E1.
  destruct (project_column df _ (high_levels ann) _ _ _) as [task|e] eqn:Et; [|done].
  cbn [mbind result_bind] in E1. injection E1 as <-.
  apply project_column_frame in Es as [Hs1 Hs2].
  apply project_column_frame in Et as [Ht1 Ht2]. cbn in *.
  split; [congruence|]. split; [congruence|].
  intros i r Hr Hnone. destruct (Hrows i r Hr Hnone) as [-> ->].
  assert (episode_index r ≠ ep) by (intros Hep; rewrite Hep in Hnone; congruence).
  split; [by eapply Hs2|by eapply Ht2].
Qed.

(** *** The annotation store *)

Lemma dict_set_get (anns : annotations) ep ann :
  annotations_get (dict_set anns ep ann) ep = Some ann.
Proof.
  induction anns as [|[e a] anns IH]; cbn [dict_set].
  - rewrite annotations_get_cons. by rewrite decide_True.
  - destruct (decide (e = ep)) as [->|Hne]; rewrite annotations_get_cons.
    + by rewrite decide_True.
    + by rewrite decide_False.
Qed.

Lemma dict_set_other (anns : annotations) ep ann ep' :
  ep' ≠ ep → annotations_get (dict_set anns ep ann) ep' = annotations_get anns ep'.
Proof.
  intros Hne. induction anns as [|[e a] anns IH]; cbn [dict_set].
  - rewrite annotations_get_cons. by rewrite decide_False.
  - destruct (decide (e = ep)) as [->|He]; rewrite !annotations_get_cons.
    + by rewrite !decide_False.
    + by rewrite IH.
Qed.

Lemma dict_set_keys (anns : annotations) ep ann :
  (dict_set anns ep ann).*1 = if decide (ep ∈ anns.*1) then anns.*1 else anns.*1 ++ [ep].
Proof.
  induction anns as [|[e a] anns IH]; cbn [dict_set].
  - rewrite decide_False; [done|]. apply not_elem_of_nil.
  - destruct (decide (e = ep)) as [->|He].
    + rewrite decide_True; [done|]. cbn. by left.
    + cbn [fmap list_fmap fst]. rewrite IH. destruct (decide (ep ∈ anns.*1)) as [Hin|Hnin].
      * rewrite decide_True; [done|]. cbn. by right.
      * rewrite decide_False; [done|]. cbn. intros [?|?]%elem_of_cons; [congruence|done].
Qed.

Lemma dict_set_twice (anns : annotations) ep ann ann' :
  dict_set (dict_set anns ep ann) ep ann' = dict_set anns ep ann'.
Proof.
  induction anns as [|[e a] anns IH]; cbn [dict_set].
  - by rewrite decide_True.
  - destruct (decide (e = ep)) as [->|He]; cbn [dict_set].
    + by rewrite decide_True.
    + rewrite decide_False by done. by rewrite IH.
Qed.

Lemma dict_set_elem (anns : annotations) ep ann : ann ∈ (dict_set anns ep ann).*2.
Proof.
  induction anns as [|[e a] anns IH]; cbn [dict_set].
  - cbn. by left.
  - destruct (decide (e = ep)); cbn; [by left|by right].
Qed.

End AppRestFacts.

Module AppExtras.
Import Py PyFacts App AppFacts MapFacts ExportFacts EngineFacts AppRest AppRestFacts.

(** X1.  For a frame rate between 0 and 1e6, the timestamp that the table
    of question labels gives to a label (frame / fps, rounded to six
    decimals) is flagged 1 by [assign_vqa_flags] against the labels of its
    episode, and 0 against labels none of which is on that frame. *)
Theorem qa_timestamp_is_flagged (anns : annotations) fps ep ann item :
  0 < fps → fps < 1000000 → (ep, ann) ∈ anns → item ∈ qa_labels ann →
  ∃ row, row ∈ build_qa_labels_dataframe anns fps ∧
         qa_episode_index row = ep ∧ qa_frame_idx row = frame_idx item ∧
         assign_vqa_flags [qa_timestamp row] (qa_labels ann) fps = [1%Z] ∧
         ∀ others, (∀ l, l ∈ others → frame_idx l ≠ frame_idx item) →
                   assign_vqa_flags [qa_timestamp row] others fps = [0%Z].
Proof.
  intros Hpos Hmax Hann Hitem.
  assert (Hfps : fps_or_default fps = fps).
  { unfold fps_or_default. destruct (Qeq_bool fps 0) eqn:E; [|done].
    apply Qeq_bool_iff in E. lra. }
  assert (Hlt : flt 0 fps = true) by by apply flt_iff.
  set (row := {| qa_episode_index := ep; qa_frame_idx := frame_idx item;
                 qa_timestamp := round_to 1000000 (Qred (inject_Z (frame_idx item) / fps)) |}).
  exists row. split.
  { unfold build_qa_labels_dataframe. rewrite Hfps, Hlt.
    apply list_elem_of_bind. exists (ep, ann). split; [|done].
    apply list_elem_of_fmap. by exists item. }
  split; [done|]. split; [done|].
  assert (Hround : round_half_even (qa_timestamp row * fps) = frame_idx item)
    by by apply frame_timestamp_rounds_back.
  split.
  - rewrite assign_vqa_flags_nonempty.
    2:{ intros E. rewrite E in Hitem. by apply elem_of_nil in Hitem. }
    rewrite Hfps. cbn [fmap list_fmap]. rewrite Hround. rewrite decide_True; [done|].
    apply elem_of_list_to_set, list_elem_of_fmap. by exists item.
  - intros others Hothers. destruct (decide (others = [])) as [->|Hne]; [done|].
    rewrite assign_vqa_flags_nonempty by done.
    rewrite Hfps. cbn [fmap list_fmap]. rewrite Hround. rewrite decide_False; [done|].
    intros (l & Hl & Hin)%elem_of_list_to_set%list_elem_of_fmap.
    by apply (Hothers l).
Qed.

Definition one_question : annotations :=
  [(3%Z, {| subtasks := []; high_levels := []; qa_labels := [ {| frame_idx := 45 |} ] |})].

Lemma qa_timestamp_is_flagged_witness :
  ∃ row, row ∈ build_qa_labels_dataframe one_question 30 ∧
         assign_vqa_flags [qa_timestamp row] [ {| frame_idx := 45 |} ] 30 = [1%Z].
Proof.
  destruct (qa_timestamp_is_flagged one_question 30 3
              {| subtasks := []; high_levels := []; qa_labels := [ {| frame_idx := 45 |} ] |}
              {| frame_idx := 45 |}) as (row & Hrow & _ & _ & Hflag & _).
  - reflexivity.
  - reflexivity.
  - left.
  - left.
  - by exists row.
Defined.

(** X2.  Whenever [parse_range] returns a range, both ends are byte
    positions of the file: 0 <= start < file_size and 0 <= end < file_size.
    (It does not ensure start <= end.) *)
Theorem parse_range_within_file range_header file_size first last :
  parse_range range_header file_size = Some (first, last) →
  (0 <= first < file_size)%Z ∧ (0 <= last < file_size)%Z.
Proof.
  unfold parse_range. intros H.
  destruct (Json.after_prefix "bytes=" range_header) as [rest|]; [|done].
  cbn [mbind option_bind] in H. destruct (Json.digits rest) as [d1 r1].
  destruct (String.eqb d1 ""); [done|].
  destruct (Json.after_prefix "-" r1) as [r2|]; [|done].
  cbn [mbind option_bind] in H. destruct (Json.digits r2) as [d2 r3].
  destruct (Z.leb_spec file_size (Json.decimal d1)); [done|].
  injection H as <- <-.
  pose proof (decimal_nonneg d1). pose proof (decimal_nonneg d2).
  destruct (String.eqb d2 ""); lia.
Qed.

Lemma parse_range_within_file_witness :
  parse_range "bytes=100-" 1000 = Some (100, 999)%Z ∧
  (0 <= 100 < 1000)%Z ∧ (0 <= 999 < 1000)%Z.
Proof.
  assert (H : parse_range "bytes=100-" 1000 = Some (100, 999)%Z) by reflexivity.
  split; [exact H|]. exact (parse_range_within_file _ _ _ _ H).
Defined.

(** X3.  The table of high-level tasks can be built exactly when no
    high-level segment of any episode holds [None] under [user_prompt],
    [robot_utterance], [scenario_type] or [response_type] (a missing key, or
    [None] under [skill], is accepted); with such a segment building it
    raises [TypeError], and so does export, which builds the table before it
    reads any data file. *)
Theorem task_table_fails_on_none_field (anns : annotations) (df : list sample_row) :
  (Forall (λ seg, ¬ has_none seg) (anns.*2 ≫= high_levels) →
     returns (build_high_level_dataframe anns)) ∧
  (∀ seg, seg ∈ anns.*2 ≫= high_levels → has_none seg →
     build_high_level_dataframe anns = Raise TypeError ∧
     export_dataset anns df = Raise TypeError).
Proof.
  split.
  - intros Hall.
    destruct (export_dataset_rows anns df) as (tasks & task_map & cols & Hb & _).
    + eapply Forall_impl; [exact Hall|]. intros seg. apply make_task_key_returns.
    + by exists (tasks, task_map).
  - intros seg Hin Hnone.
    assert (Hb : build_high_level_dataframe anns = Raise TypeError).
    { unfold build_high_level_dataframe. by rewrite (fold_add_task_none _ _ seg). }
    split; [done|]. unfold export_dataset.
    destruct (build_subtasks_dataframe anns) as [data subtask_map]. by rewrite Hb.
Qed.

(** X4.  The labelling loop of export over one data file, run with any
    two label maps: when it returns, both label columns have one value per
    row of the file, and a row whose episode has no annotation entry holds
    -1 in both. *)
Theorem export_keeps_unannotated_rows subtask_map task_map (anns : annotations)
    (df : list sample_row) cols :
  label_file subtask_map task_map anns df = Ok cols →
  length (subtask_index cols) = length df ∧
  length (task_index_high_level cols) = length df ∧
  ∀ i r, df !! i = Some r → annotations_get anns (episode_index r) = None →
         subtask_index cols !! i = Some (-1)%Z ∧
         task_index_high_level cols !! i = Some (-1)%Z.
Proof.
  unfold label_file. intros Hfold.
  apply export_fold_frame in Hfold as (Hl1 & Hl2 & Hrows). cbn in Hl1, Hl2.
  rewrite length_replicate in Hl1, Hl2. split; [done|]. split; [done|].
  intros i r Hr Hnone. destruct (Hrows i r Hr Hnone) as [-> ->]. cbn.
  split; apply lookup_replicate_2; by eapply lookup_lt_Some.
Qed.

Lemma export_keeps_unannotated_rows_witness :
  ∃ cols,
    label_file ∅ ∅ [] [ {| episode_index := 7; timestamp := 1 # 2 |} ] = Ok cols ∧
    subtask_index cols !! 0%nat = Some (-1)%Z.
Proof.
  assert (H : label_file ∅ ∅ [] [ {| episode_index := 7; timestamp := 1 # 2 |} ]
              = Ok {| subtask_index := [(-1)%Z]; task_index_high_level := [(-1)%Z] |})
    by reflexivity.
  eexists. split; [exact H|].
  destruct (export_keeps_unannotated_rows _ _ _ _ _ H) as (_ & _ & Hrows).
  by destruct (Hrows 0%nat {| episode_index := 7; timestamp := 1 # 2 |} eq_refl eq_refl).
Defined.

(** X5.  The table of high-level tasks is in index order: its i-th task has
    index i in the task map, the map has exactly one key per listed task,
    and distinct keys have distinct indices. *)
Theorem tasks_table_in_index_order (anns : annotations) tasks task_map :
  build_high_level_dataframe anns = Ok (tasks, task_map) →
  size task_map = length tasks ∧
  (∀ (i : nat) seg, tasks !! i = Some seg →
     ∃ k, make_task_key seg = Ok k ∧ task_map !! k = Some (Z.of_nat i)) ∧
  (∀ k z, task_map !! k = Some z →
     ∃ (i : nat) seg, z = Z.of_nat i ∧ tasks !! i = Some seg ∧ make_task_key seg = Ok k) ∧
  (∀ k1 k2 z, task_map !! k1 = Some z → task_map !! k2 = Some z → k1 = k2).
Proof.
  intros Hb.
  assert (∃ ks, Forall2 (λ seg k, make_task_key seg = Ok k) (anns.*2 ≫= high_levels) ks)
    as [ks Hks].
  { apply fold_add_task_ok in Hb.
    induction Hb as [|s l [k Hk] _ [ks IH]]; [by exists []|].
    exists (k :: ks). by constructor. }
  destruct (fold_add_task _ _ ([], ∅) [] Hks) as (st & Hfold & Hst).
  { split; [constructor|]. split; [done|]. split; [|constructor].
    intros k z. simpl. rewrite lookup_empty. split; [done|].
    intros (i & _ & Hi). by destruct i. }
  unfold build_high_level_dataframe in Hb. rewrite Hb in Hfold. injection Hfold as <-.
  destruct Hst as (Hnd & Hsize & Hidx & Htasks). simpl in *.
  set (order := first_seen_from [] ks) in *.
  split; [rewrite Hsize; symmetry; by eapply Forall2_length|].
  split; [|split].
  - intros i seg Hi. destruct (Forall2_lookup_l _ _ _ _ _ Htasks Hi) as (k & Hk & Hkey).
    exists k. split; [done|]. apply Hidx. by exists i.
  - intros k z Hz. apply Hidx in Hz as (i & -> & Hi).
    destruct (Forall2_lookup_r _ _ _ _ _ Htasks Hi) as (seg & Hseg & Hkey).
    by exists i, seg.
  - intros k1 k2 z H1 H2. apply Hidx in H1 as (i & -> & Hi). apply Hidx in H2 as (j & Hj & Hj').
    apply Nat2Z.inj in Hj as <-. congruence.
Qed.

Lemma tasks_table_in_index_order_witness :
  ∃ tasks task_map,
    build_high_level_dataframe ExportClaims.two_episodes = Ok (tasks, task_map) ∧
    size task_map = length tasks.
Proof.
  destruct (build_high_level_dataframe ExportClaims.two_episodes)
    as [[tasks task_map]|e] eqn:E; [|by vm_compute in E].
  exists tasks, task_map. split; [done|].
  exact (proj1 (tasks_table_in_index_order _ _ _ E)).
Defined.

(** X6.  When no two segments share a start, interval assignment does not
    depend on the order in which the segments are listed. *)
Theorem assign_indices_order_independent timestamps segments segments' mapping key :
  segments ≡ₚ segments' → NoDup segments →
  (∀ a b, a ∈ segments → b ∈ segments → seg_start a == seg_start b → a = b) →
  assign_indices_by_segments timestamps segments mapping key
  = assign_indices_by_segments timestamps segments' mapping key.
Proof.
  intros Hperm Hnd Hstarts.
  assert (Hstrict : ∀ l, l ≡ₚ segments →
            StronglySorted (λ a b, seg_start a < seg_start b) (sorted lt_start l)).
  { intros l Hl.
    apply (sorted_strengthen (λ a b, seg_start a <= seg_start b)).
    - by rewrite sorted_perm, Hl.
    - intros a b Ha Hb Hne Hle. rewrite sorted_perm, Hl in Ha, Hb.
      destruct (Qlt_le_dec (seg_start a) (seg_start b)) as [?|Hge]; [done|].
      destruct Hne. apply Hstarts; [done..|]. by apply Qle_antisym.
    - apply sorted_by_start_sorted. }
  assert (Hsorted : sorted lt_start segments = sorted lt_start segments').
  { apply (strictly_sorted_unique (λ a b, seg_start a < seg_start b)).
    - intros x y H1 H2. lra.
    - by apply Hstrict.
    - apply Hstrict. by symmetry.
    - by rewrite !sorted_perm. }
  unfold assign_indices_by_segments.
  destruct segments as [|s l], segments' as [|s' l'].
  - done.
  - by apply Permutation_nil_cons in Hperm.
  - symmetry in Hperm. by apply Permutation_nil_cons in Hperm.
  - cbv zeta. by rewrite Hsorted.
Qed.

Lemma assign_indices_order_independent_witness :
  assign_indices_by_segments [3 # 2] [subtask 0 1 "a"; subtask 1 2 "b"] {[ "b" := 1%Z ]} key_label
  = assign_indices_by_segments [3 # 2] [subtask 1 2 "b"; subtask 0 1 "a"] {[ "b" := 1%Z ]} key_label.
Proof.
  apply assign_indices_order_independent.
  - apply Permutation_swap.
  - apply NoDup_cons. split; [|apply NoDup_singleton].
    intros H%list_elem_of_singleton. discriminate H.
  - intros a b Ha Hb Heq.
    apply elem_of_cons in Ha as [->|Ha%list_elem_of_singleton];
    apply elem_of_cons in Hb as [->|Hb%list_elem_of_singleton]; subst; try done;
    by vm_compute in Heq.
Defined.

(** X23.  Saving the annotations of an episode and reading them back: the
    store then holds for the episode exactly the posted lists, every other
    episode is as before, an episode already in the store keeps its place in
    the order of episodes (a new one goes last), and saving twice is the same
    as saving the second payload alone. *)
Theorem set_then_get_annotations (anns : annotations) payload :
  let ep := payload_episode_index payload in
  let anns' := set_episode_annotations anns payload in
  annotations_get anns' ep
  = Some {| subtasks := subtask_dict <$> payload_subtasks payload;
            high_levels := high_level_dict <$> payload_high_levels payload;
            qa_labels := payload_qa_labels payload |} ∧
  (∀ ep', ep' ≠ ep → annotations_get anns' ep' = annotations_get anns ep') ∧
  anns'.*1 = (if decide (ep ∈ anns.*1) then anns.*1 else anns.*1 ++ [ep]) ∧
  (∀ payload', payload_episode_index payload' = ep →
     set_episode_annotations anns' payload' = set_episode_annotations anns payload').
Proof.
  intros ep anns'. unfold anns', set_episode_annotations. fold ep.
  split; [apply dict_set_get|]. split; [intros ep' Hne; by apply dict_set_other|].
  split; [apply dict_set_keys|]. intros payload' ->. apply dict_set_twice.
Qed.

(** X24.  A high-level segment may be posted without [scenario_type] or
    [response_type]; it is stored with [None] under that key, and from
    then on the table of high-level tasks cannot be built: building it, and
    with it every export, raises [TypeError].  Leaving out [skill] alone
    does no harm to the key of the segment. *)
Theorem posted_segment_without_type_breaks_export (anns : annotations) payload seg :
  seg ∈ payload_high_levels payload →
  (hl_scenario_type seg = None ∨ hl_response_type seg = None →
     build_high_level_dataframe (set_episode_annotations anns payload) = Raise TypeError ∧
     ∀ df, export_dataset (set_episode_annotations anns payload) df = Raise TypeError) ∧
  (hl_scenario_type seg ≠ None → hl_response_type seg ≠ None →
     returns (make_task_key (high_level_dict seg))).
Proof.
  intros Hin. split.
  - intros Hnone.
    assert (Hseg : high_level_dict seg
                   ∈ (set_episode_annotations anns payload).*2 ≫= high_levels).
    { apply list_elem_of_bind. eexists. split; [|apply dict_set_elem].
      cbn. apply list_elem_of_fmap. by exists seg. }
    assert (Hhas : has_none (high_level_dict seg)).
    { unfold has_none. cbn. destruct Hnone as [Hn|Hn]; rewrite Hn; cbn; tauto. }
    assert (Hb : build_high_level_dataframe (set_episode_annotations anns payload)
                 = Raise TypeError).
    { unfold build_high_level_dataframe. by rewrite (fold_add_task_none _ _ _ Hseg Hhas). }
    split; [done|]. intros df. unfold export_dataset.
    destruct (build_subtasks_dataframe _) as [data subtask_map]. by rewrite Hb.
  - intros Hs Hr. apply make_task_key_returns. unfold has_none. cbn.
    destruct (hl_scenario_type seg), (hl_response_type seg); cbn; try done.
    intros [?|[?|[?|?]]]; done.
Qed.

Definition untyped_question : EpisodeAnnotationsPayload :=
  {| payload_episode_index := 0;
     payload_subtasks := [];
     payload_high_levels :=
       [ {| hl_start := 0; hl_end := 2; hl_user_prompt := "What is on the table?";
            hl_robot_utterance := "a cup"; hl_skill := None;
            hl_scenario_type := None; hl_response_type := Some "answer" |} ];
     payload_qa_labels := [] |}.

Lemma posted_segment_without_type_breaks_export_witness :
  build_high_level_dataframe (set_episode_annotations [] untyped_question) = Raise TypeError.
Proof.
  destruct (posted_segment_without_type_breaks_export [] untyped_question
              {| hl_start := 0; hl_end := 2; hl_user_prompt := "What is on the table?";
                 hl_robot_utterance := "a cup"; hl_skill := None;
                 hl_scenario_type := None; hl_response_type := Some "answer" |})
    as [Hbreak _].
  - by left.
  - apply Hbreak. by left.
Defined.

End AppExtras.

(** ** strategy_subtask.py and strategy_vqa.py *)

Module StrategyExtras.
Import Py PyFacts App AppFacts EngineFacts StrategySubtask.

(** X7.  For [min_fps <= max_fps] the frame rate of a clip lies within
    [min_fps, max_fps], whatever the frame budget and the duration (zero
    and negative ones included). *)
Theorem clip_fps_within_bounds num_frames duration_s min_fps max_fps :
  min_fps <= max_fps →
  min_fps <= _clip_fps num_frames duration_s min_fps max_fps ∧
  _clip_fps num_frames duration_s min_fps max_fps <= max_fps.
Proof.
  intros Hmm. unfold _clip_fps.
  set (fps0 := Qred _). clearbody fps0.
  destruct (flt fps0 min_fps) eqn:E1.
  - destruct (flt max_fps min_fps) eqn:E2.
    + apply flt_iff in E2. lra.
    + split; lra.
  - apply flt_false_iff in E1. destruct (flt max_fps fps0) eqn:E2.
    + split; lra.
    + apply flt_false_iff in E2. by split.
Qed.

Lemma clip_fps_within_bounds_witness :
  1 # 2 <= _clip_fps 8 0 (1 # 2) 6 ∧ _clip_fps 8 0 (1 # 2) 6 <= 6.
Proof. apply clip_fps_within_bounds. by vm_compute. Defined.

(** X8.  For more than one point over a non-empty span, [_linspace_times]
    returns [n] points, the i-th at [start + i * (end - start) / (n - 1)]:
    the first is [start], the last is [end], and all lie in between.  With
    at most one point, or an empty span, it returns [start] alone. *)
Theorem linspace_times_spec start end_sec n :
  ((n <= 1)%Z ∨ end_sec <= start → _linspace_times start end_sec n = [start]) ∧
  ((1 < n)%Z → start < end_sec →
     length (_linspace_times start end_sec n) = Z.to_nat n ∧
     (∀ (i : nat) x, _linspace_times start end_sec n !! i = Some x →
        x == start + inject_Z (Z.of_nat i) * ((end_sec - start) / inject_Z (n - 1)) ∧
        start <= x ∧ x <= end_sec) ∧
     (∃ x, head (_linspace_times start end_sec n) = Some x ∧ x == start) ∧
     (∃ x, last (_linspace_times start end_sec n) = Some x ∧ x == end_sec)).
Proof.
  unfold _linspace_times. split.
  - intros [Hn|He].
    + by rewrite (proj2 (Z.leb_le _ _) Hn).
    + destruct (n <=? 1)%Z; [done|]. by rewrite (proj2 (fle_iff _ _) He).
  - intros Hn Hse.
    rewrite (proj2 (Z.leb_gt _ _) Hn).
    assert (fle end_sec start = false) as ->.
    { apply not_true_iff_false. rewrite fle_iff. lra. }
    set (step := Qred ((end_sec - start) / inject_Z (n - 1))).
    assert (Hb : 0 < inject_Z (n - 1)).
    { change 0 with (inject_Z 0). rewrite <- Zlt_Qlt. lia. }
    assert (Hstep : step == (end_sec - start) / inject_Z (n - 1)) by apply Qred_correct.
    assert (Hmul : inject_Z (n - 1) * step == end_sec - start).
    { rewrite Hstep. field. lra. }
    assert (Hpt : ∀ i : Z, (0 <= i < n)%Z →
              Qred (start + inject_Z i * step)
              == start + inject_Z i * ((end_sec - start) / inject_Z (n - 1)) ∧
              start <= Qred (start + inject_Z i * step) ∧
              Qred (start + inject_Z i * step) <= end_sec).
    { intros i Hi. rewrite Qred_correct, <- Hstep.
      assert (Hi0 : 0 <= inject_Z i).
      { change 0 with (inject_Z 0). rewrite <- Zle_Qle. lia. }
      assert (Hi1 : inject_Z i <= inject_Z (n - 1)) by (rewrite <- Zle_Qle; lia).
      assert (Hs0 : 0 <= step).
      { rewrite Hstep. apply Qle_shift_div_l; [done|]. lra. }
      split; [reflexivity|]. split; nra. }
    split; [by rewrite length_fmap, length_seqZ|]. split; [|split].
    + intros i x Hx. rewrite list_lookup_fmap in Hx.
      destruct (seqZ 0 n !! i) as [z|] eqn:Ez; [|done].
      apply lookup_seqZ in Ez as [-> Hlt]. injection Hx as <-.
      rewrite Z.add_0_l. apply Hpt. lia.
    + exists (Qred (start + inject_Z 0 * step)). split.
      * rewrite head_lookup, list_lookup_fmap, lookup_seqZ_lt by lia. done.
      * rewrite Qred_correct. change (inject_Z 0) with 0. lra.
    + exists (Qred (start + inject_Z (n - 1) * step)). split.
      * rewrite last_lookup, length_fmap, length_seqZ, list_lookup_fmap.
        rewrite <- Z2Nat.inj_pred.
        rewrite lookup_seqZ_lt by lia.
        replace (0 + Z.of_nat (Z.to_nat (Z.pred n)))%Z with (n - 1)%Z by lia. done.
      * rewrite Qred_correct. lra.
Qed.

(** Each segment ends where the next one starts. *)
Definition contiguous (segs : list segment) : Prop :=
  ∀ (i : nat) a b, segs !! i = Some a → segs !! S i = Some b → end_ a = start b.

Lemma contiguous_snoc segs s :
  contiguous segs → (∀ a, last segs = Some a → end_ a = start s) →
  contiguous (segs ++ [s]).
Proof.
  intros Hc Hlast i a b Ha Hb.
  apply lookup_app_Some in Hb as [Hb|[Hlen Hb]].
  - apply lookup_app_Some in Ha as [Ha|[Hlen _]]; [by eapply Hc|].
    apply lookup_lt_Some in Hb. lia.
  - apply list_lookup_singleton_Some in Hb as [Hi <-].
    apply lookup_app_Some in Ha as [Ha|[Hlen' _]]; [|lia].
    apply Hlast. rewrite last_lookup. rewrite <- Ha. f_equal. lia.
Qed.

Section Windows.
Context (reply_label : window → result string).

(** The segment carries the stripped, non-empty label that the model gave
    for its window. *)
Definition labelled (s : segment) : Prop :=
  ∃ w text, reply_label w = Ok text ∧ strip text ≠ "" ∧
            label s = Str (strip text) ∧
            start s = Some (round3 (seg_start_s w)) ∧
            end_ s = Some (round3 (seg_end_s w)).

Lemma predict_label_ok w lbl :
  _predict_label_over_segment reply_label w = Ok lbl →
  ∃ text, reply_label w = Ok text ∧ strip text ≠ "" ∧ lbl = strip text.
Proof.
  unfold _predict_label_over_segment. destruct (reply_label w) as [text|e]; [|done].
  simpl. destruct (String.eqb (strip text) "") eqn:E; [done|].
  intros [= <-]. exists text. by apply String.eqb_neq in E.
Qed.

Lemma label_windows_spec timing stride_s segment_frames n t segs out :
  label_windows reply_label timing stride_s segment_frames n t segs = Ok out →
  contiguous segs →
  (∀ a, last segs = Some a →
        end_ a = Some (round3 (fmin (Adapter.duration timing) t))) →
  Forall labelled segs →
  contiguous out ∧ Forall labelled out ∧
  (length out <= length segs + n)%nat ∧ segs `prefix_of` out ∧
  (segs = [] → ∀ s, head out = Some s → start s = Some (round3 t)).
Proof.
  revert t segs. induction n as [|n IH]; intros t segs Hout Hc Hlast Hlab.
  { injection Hout as <-. split; [done|]. split; [done|]. split; [lia|].
    split; [done|]. by intros ->. }
  cbn [label_windows] in Hout.
  destruct (flt t (Adapter.duration timing)) eqn:Ht.
  2:{ injection Hout as <-. split; [done|]. split; [done|]. split; [lia|].
      split; [done|]. by intros ->. }
  set (w := window_at timing stride_s segment_frames t) in *.
  destruct (_predict_label_over_segment reply_label w) as [lbl|e] eqn:Ep; [|done].
  cbn [mbind result_bind] in Hout.
  apply predict_label_ok in Ep as (text & Htext & Hne & ->).
  apply IH in Hout as (Hc' & Hlab' & Hlen & Hpre & _).
  - split; [done|]. split; [done|]. split; [|split].
    + rewrite length_app in Hlen. simpl in Hlen. lia.
    + etrans; [|exact Hpre]. by apply prefix_app_r.
    + intros -> s Hs. destruct Hpre as [k ->]. simpl in Hs. by injection Hs as <-.
  - apply contiguous_snoc; [done|]. intros a Ha. rewrite (Hlast a Ha).
    simpl. unfold fmin. by rewrite Ht.
  - intros a Ha. rewrite last_snoc in Ha. by injection Ha as <-.
  - apply Forall_app. split; [done|]. constructor; [|done].
    by exists w, text.
Qed.
End Windows.

Lemma generate_spec reply_label prepare m episode_index stride_s
    segment_frames max_steps start_time_s segs :
  generate reply_label prepare m episode_index stride_s segment_frames max_steps
    start_time_s = Ok segs →
  (length segs <= Z.to_nat (Z.max 1 max_steps))%nat ∧
  contiguous segs ∧
  Forall (labelled reply_label) segs ∧
  ∀ timing s, Adapter.get_episode_timing m episode_index None = Ok timing →
              head segs = Some s →
              start s = Some (round3 (first_start (Adapter.duration timing) start_time_s)).
Proof.
  unfold generate. intros Hgen.
  destruct (Adapter.get_episode_timing m episode_index None) as [timing|e] eqn:Et; [|done].
  cbn [mbind result_bind] in Hgen.
  destruct (fle (Adapter.duration timing) 0) eqn:Hd.
  { injection Hgen as <-. split; [simpl; lia|]. split; [by intros [|i] ???|].
    split; [constructor|]. by intros ?? _ ?. }
  destruct prepare as [[]|e]; [|done]. cbn [mbind result_bind] in Hgen.
  apply label_windows_spec in Hgen as (Hc & Hlab & Hlen & _ & Hfirst).
  - split; [simpl in Hlen; lia|]. split; [done|]. split; [done|].
    intros timing' s [= <-] Hs. by apply Hfirst.
  - by intros [|i] ???.
  - by intros a Ha.
  - constructor.
Qed.


(** X9.  When subtask generation returns, it returns at most
    [max(1, max_steps)] segments; each ends exactly where the next one
    starts; each carries the stripped, non-empty label that the model gave
    for its window (an empty label or a failure on any window makes the
    whole call raise); and the first one starts at the clamped start time,
    rounded. *)
Theorem subtask_windows_contiguous reply_label prepare m episode_index stride_s
    segment_frames max_steps start_time_s segs :
  generate reply_label prepare m episode_index stride_s segment_frames max_steps
    start_time_s = Ok segs →
  (length segs <= Z.to_nat (Z.max 1 max_steps))%nat ∧
  contiguous segs ∧
  Forall (labelled reply_label) segs ∧
  ∀ timing s, Adapter.get_episode_timing m episode_index None = Ok timing →
              head segs = Some s →
              start s = Some (round3 (first_start (Adapter.duration timing) start_time_s)).
Proof. apply generate_spec. Qed.

Definition ten_seconds : Adapter.manager :=
  {| Adapter.info := Some {| Adapter.info_fps := Some 30 |};
     Adapter.episodes_df :=
       Some {| Adapter.columns := [];
               Adapter.rows := [ {| Adapter.ep_index := 0; Adapter.ep_length := Some 300%Z;
                                    Adapter.dataset_from_index := None;
                                    Adapter.dataset_to_index := None;
                                    Adapter.cells := ∅ |} ] |};
     Adapter.video_key := Some "front" |}.

Lemma subtask_windows_contiguous_witness :
  generate (λ _, Ok " pick ") (Ok ()) ten_seconds 0 5 8 2 None
  = Ok [subtask 0 5 "pick"; subtask 5 10 "pick"] ∧
  contiguous [subtask 0 5 "pick"; subtask 5 10 "pick"].
Proof.
  assert (H : generate (λ _, Ok " pick ") (Ok ()) ten_seconds 0 5 8 2 None
              = Ok [subtask 0 5 "pick"; subtask 5 10 "pick"]) by by vm_compute.
  split; [exact H|].
  exact (proj1 (proj2 (subtask_windows_contiguous _ _ _ _ _ _ _ _ _ H))).
Defined.

End StrategyExtras.

Module VqaExtras.
Import Py PyFacts App AppFacts EngineFacts StrategySubtask StrategyVqa.

Lemma lower_idempotent c : lower (lower c) = lower c.
Proof. destruct c as [[] [] [] [] [] [] [] []]; reflexivity. Qed.

Lemma map_lower_idempotent s : map_string lower (map_string lower s) = map_string lower s.
Proof. induction s as [|c s IH]; simpl; [done|]. by rewrite lower_idempotent, IH. Qed.

Lemma filter_string_kept p s c :
  c ∈ String.list_ascii_of_string (filter_string p s) → p c = true.
Proof.
  induction s as [|a s IH]; simpl; [by intros ?%elem_of_nil|].
  destruct (p a) eqn:E; [|done]. simpl.
  intros [->|?]%elem_of_cons; [done|by apply IH].
Qed.

(** X10.  A normalised question consists of lower-case ASCII letters,
    digits and spaces only, and does not depend on the letter case of the
    question. *)
Theorem norm_q_alphabet s :
  (∀ c, c ∈ String.list_ascii_of_string (_norm_q s) → kept c = true) ∧
  _norm_q (map_string lower s) = _norm_q s.
Proof.
  split.
  - intros c. apply filter_string_kept.
  - unfold _norm_q. by rewrite map_lower_idempotent.
Qed.

(** The normalised questions of the segments kept so far. *)
Definition norms (segs : list segment) : list string :=
  (λ s, _norm_q (or_empty (user_prompt s))) <$> segs.

(** The segment holds a non-empty question and a non-empty answer. *)
Definition answered (s : segment) : Prop :=
  ∃ q a, user_prompt s = Str q ∧ robot_utterance s = Str a ∧ q ≠ "" ∧ a ≠ "".

Section Loop.
Context (ask : Q → gset string → result reply).
Context (dur stride_s : Q) (tg : tags).

Lemma qa_loop_spec fuel t (used_q : gset string) segs out :
  qa_loop ask dur stride_s tg fuel t used_q segs = Some (Ok out) →
  NoDup (norms segs) → (∀ x, x ∈ norms segs → x ∈ used_q) → Forall answered segs →
  NoDup (norms out) ∧ Forall answered out ∧ segs `prefix_of` out.
Proof.
  revert t used_q segs. induction fuel as [|fuel IH]; intros t used_q segs Hout Hnd Hused Hans;
    [done|].
  cbn [qa_loop] in Hout.
  destruct (flt t (Qred (dur - (1 # 1000000)))).
  2:{ injection Hout as <-. by repeat split. }
  destruct (ask t used_q) as [r|e]; [|done].
  destruct (skip r); [by eapply IH|].
  destruct (String.eqb (strip (question r)) "" || String.eqb (strip (answer r)) "") eqn:E;
    [by eapply IH|].
  apply orb_false_iff in E as [Eq Ea]. apply String.eqb_neq in Eq, Ea.
  destruct (decide (_norm_q (strip (question r)) ∈ used_q)) as [Hin|Hnin]; [by eapply IH|].
  apply IH in Hout as (Hnd' & Hans' & Hpre).
  - split; [done|]. split; [done|]. etrans; [|exact Hpre]. by apply prefix_app_r.
  - unfold norms. rewrite fmap_app. apply NoDup_app. split; [done|]. split.
    + intros x Hx [->|[]%elem_of_nil]%elem_of_cons. by apply Hnin, Hused.
    + apply NoDup_singleton.
  - intros x. unfold norms. rewrite fmap_app, elem_of_app.
    intros [Hx|[->|[]%elem_of_nil]%elem_of_cons]; [|set_solver].
    apply elem_of_union. right. by apply Hused.
  - apply Forall_app. split; [done|]. constructor; [|done].
    by exists (strip (question r)), (strip (answer r)).
Qed.

(** More fuel does not change a result. *)
Lemma qa_loop_fuel fuel k t (used_q : gset string) segs r :
  qa_loop ask dur stride_s tg fuel t used_q segs = Some r →
  qa_loop ask dur stride_s tg (fuel + k) t used_q segs = Some r.
Proof.
  revert t used_q segs. induction fuel as [|fuel IH]; intros t used_q segs H; [done|].
  cbn [qa_loop Nat.add] in *.
  destruct (flt t (Qred (dur - (1 # 1000000)))); [|done].
  destruct (ask t used_q) as [rp|e]; [|done].
  destruct (skip rp); [by apply IH|].
  destruct (String.eqb (strip (question rp)) "" || String.eqb (strip (answer rp)) "");
    [by apply IH|].
  destruct (decide _); by apply IH.
Qed.

(** The loop ends within [n + 1] turns when [n] strides reach the end. *)
Lemma qa_loop_ends (n : nat) t (used_q : gset string) segs :
  0 < stride_s →
  dur - (1 # 1000000) - t <= inject_Z (Z.of_nat n) * stride_s →
  is_Some (qa_loop ask dur stride_s tg (S n) t used_q segs).
Proof.
  intros Hpos. revert t used_q segs. induction n as [|n IH]; intros t used_q segs Hn.
  - cbn [qa_loop]. destruct (flt t (Qred (dur - (1 # 1000000)))) eqn:E; [|by eexists].
    apply flt_iff in E. rewrite Qred_correct in E.
    change (inject_Z (Z.of_nat 0)) with 0 in Hn. lra.
  - assert (Hnext : dur - (1 # 1000000) - Qred (t + stride_s)
                    <= inject_Z (Z.of_nat n) * stride_s).
    { rewrite Qred_correct. rewrite Nat2Z.inj_succ in Hn. unfold Z.succ in Hn.
      rewrite inject_Z_plus in Hn. change (inject_Z 1) with 1 in Hn. lra. }
    cbn [qa_loop]. destruct (flt t (Qred (dur - (1 # 1000000)))); [|by eexists].
    destruct (ask t used_q) as [rp|e]; [|by eexists].
    destruct (skip rp); [by apply IH|].
    destruct (String.eqb (strip (question rp)) "" || String.eqb (strip (answer rp)) "");
      [by apply IH|].
    destruct (decide _); by apply IH.
Qed.
End Loop.

Lemma fmax_ge_r a b : b <= fmax a b.
Proof.
  unfold fmax. destruct (flt a b) eqn:E; [lra|]. by apply flt_false_iff in E.
Qed.

(** X11.  In the question run no two kept pairs have the same normalised
    question (in particular no two kept questions are equal up to letter
    case), and every kept pair has a non-empty question and a non-empty
    answer. *)
Theorem qa_pairs_deduplicated ask fuel timing stride_s start_time_s tg segs :
  StrategyVqa.generate ask fuel timing stride_s start_time_s tg = Some (Ok segs) →
  NoDup (norms segs) ∧ Forall answered segs ∧
  ∀ (i j : nat) a b, segs !! i = Some a → segs !! j = Some b → i ≠ j →
    map_string lower (or_empty (user_prompt a)) ≠ map_string lower (or_empty (user_prompt b)).
Proof.
  unfold StrategyVqa.generate. intros H.
  apply qa_loop_spec in H as (Hnd & Hans & _); [|constructor| |constructor].
  2:{ by intros x ?%elem_of_nil. }
  split; [done|]. split; [done|]. intros i j a b Ha Hb Hij Heq. apply Hij.
  apply (NoDup_lookup _ i j (_norm_q (or_empty (user_prompt a))) Hnd).
  - unfold norms. by rewrite list_lookup_fmap, Ha.
  - unfold norms. rewrite list_lookup_fmap, Hb. cbn. unfold _norm_q. by rewrite Heq.
Qed.

(** The model repeats its question, in another letter case, on the second
    window. *)
Definition repeating (t : Q) (used_q : gset string) : result reply :=
  Ok {| skip := false;
        question := if Qeq_bool t 0 then "What is on the table?" else " what is on the TABLE? ";
        answer := "a cup" |}.

Definition ten_second_timing : Adapter.EpisodeTiming :=
  {| Adapter.fps := 30; Adapter.length := 300; Adapter.duration := 10;
     Adapter.video_start_time := 0; Adapter.video_end_time := 10 |}.

Definition vqa_tags : tags :=
  {| tag_scenario_type := "vqa"; tag_response_type := "answer"; tag_skill := "fake_vqa" |}.

Lemma qa_pairs_deduplicated_witness :
  ∃ seg, StrategyVqa.generate repeating 3 ten_second_timing 5 None vqa_tags = Some (Ok [seg]) ∧
         NoDup (norms [seg]).
Proof.
  destruct (StrategyVqa.generate repeating 3 ten_second_timing 5 None vqa_tags)
    as [[segs|e]|] eqn:E; try (by vm_compute in E).
  destruct (qa_pairs_deduplicated _ _ _ _ _ _ _ E) as (Hnd & _ & _).
  vm_compute in E. injection E as <-. eexists. split; [done|]. exact Hnd.
Defined.

(** X12.  The question loop always ends: with the stride clamped to at
    least 1e-3 some number of turns suffices, whatever the model replies, and
    more turns do not change the result. *)
Theorem qa_loop_terminates ask timing stride_s start_time_s tg :
  ∃ fuel r, ∀ k,
    StrategyVqa.generate ask (fuel + k) timing stride_s start_time_s tg = Some r.
Proof.
  unfold StrategyVqa.generate.
  set (stride := fmax stride_s (1 # 1000)).
  set (t0 := first_start (Adapter.duration timing) start_time_s).
  set (dur := Adapter.duration timing).
  assert (Hpos : 0 < stride).
  { pose proof (fmax_ge_r stride_s (1 # 1000)). fold stride in H. lra. }
  set (x := (dur - t0) / stride).
  set (n := Z.to_nat (Qceiling x)).
  assert (Hn : dur - (1 # 1000000) - t0 <= inject_Z (Z.of_nat n) * stride).
  { assert (Hx : x * stride == dur - t0) by (unfold x; field; lra).
    pose proof (Qle_ceiling x) as Hc.
    destruct (Z.le_gt_cases 0 (Qceiling x)) as [Hge|Hlt].
    - unfold n. rewrite Z2Nat.id by done. nra.
    - assert (Hneg : inject_Z (Qceiling x) < 0).
      { change 0 with (inject_Z 0). by rewrite <- Zlt_Qlt. }
      assert (Hz : Z.of_nat n = 0%Z) by (unfold n; lia).
      rewrite Hz. change (inject_Z 0) with 0. nra. }
  destruct (qa_loop_ends ask dur stride tg n t0 ∅ [] Hpos Hn) as [r Hr].
  exists (S n), r. intros k. by apply qa_loop_fuel.
Qed.

End VqaExtras.

(** ** ai_plugin_impl/engine.py: merging windows, storing the result *)

Module EngineExtraFacts.
Import Py PyFacts App AppFacts Engine EngineFacts AppRestFacts StrategySubtask StrategyExtras.

(** *** Rounding depends on the value only, and is monotone *)

Lemma round_half_even_proper q q' : q == q' → round_half_even q = round_half_even q'.
Proof.
  destruct q as [n d], q' as [n' d']. unfold Qeq, round_half_even. cbn [Qnum Qden].
  intros Heq.
  assert (Hfl : (n / Z.pos d = n' / Z.pos d')%Z).
  { rewrite <- (Z.div_mul_cancel_r n (Z.pos d) (Z.pos d')) by lia.
    rewrite <- (Z.div_mul_cancel_r n' (Z.pos d') (Z.pos d)) by lia.
    rewrite Heq. f_equal. lia. }
  assert (Hmm : ((n mod Z.pos d) * Z.pos d' = (n' mod Z.pos d') * Z.pos d)%Z).
  { rewrite <- !Z.mul_mod_distr_r by lia. rewrite Heq. f_equal. lia. }
  rewrite <- Hfl.
  set (fl := (n / Z.pos d)%Z) in *. set (m := (n mod Z.pos d)%Z) in *.
  set (m' := (n' mod Z.pos d')%Z) in *. clearbody fl m m'.
  destruct (Z.ltb_spec (2 * m) (Z.pos d)), (Z.ltb_spec (2 * m') (Z.pos d')); try nia;
    try done.
  destruct (Z.ltb_spec (Z.pos d) (2 * m)), (Z.ltb_spec (Z.pos d') (2 * m')); try nia;
    done.
Qed.

Lemma round_half_even_mono x y : x <= y → (round_half_even x <= round_half_even y)%Z.
Proof.
  intros Hxy. destruct (Z.le_gt_cases (round_half_even x) (round_half_even y)) as [|Hgt];
    [done|exfalso].
  pose proof (round_half_even_close x) as Hx. pose proof (round_half_even_close y) as Hy.
  apply Qabs_Qle_condition in Hx as [Hx1 Hx2]. apply Qabs_Qle_condition in Hy as [Hy1 Hy2].
  assert (Hz : inject_Z (round_half_even y) + 1 <= inject_Z (round_half_even x)).
  { change 1 with (inject_Z 1). rewrite <- inject_Z_plus. rewrite <- Zle_Qle. lia. }
  assert (Heq : x == y) by lra.
  apply round_half_even_proper in Heq. lia.
Qed.

Lemma round3_proper x y : x == y → round3 x = round3 y.
Proof.
  intros Hxy. unfold round3. f_equal. f_equal. apply round_half_even_proper.
  by rewrite Hxy.
Qed.

Lemma round3_mono x y : x <= y → round3 x <= round3 y.
Proof.
  intros Hxy. unfold round3. rewrite !Qred_correct.
  assert (H : (round_half_even (x * 1000) <= round_half_even (y * 1000))%Z).
  { apply round_half_even_mono. lra. }
  unfold Qle. cbn [Qnum Qden]. lia.
Qed.

Lemma fmin_cases a b : (fmin a b = a ∧ a <= b) ∨ (fmin a b = b ∧ b < a).
Proof.
  unfold fmin. destruct (flt b a) eqn:E.
  - right. split; [done|]. by apply flt_iff.
  - left. split; [done|]. by apply flt_false_iff.
Qed.

Lemma fmax_cases a b : (fmax a b = a ∧ b <= a) ∨ (fmax a b = b ∧ a < b).
Proof.
  unfold fmax. destruct (flt a b) eqn:E.
  - right. split; [done|]. by apply flt_iff.
  - left. split; [done|]. by apply flt_false_iff.
Qed.

Lemma round3_idempotent x : round3 (round3 x) = round3 x.
Proof.
  assert (H : round_half_even (round3 x * 1000) = round_half_even (x * 1000)).
  { apply round_half_even_unique. unfold round3. rewrite Qred_correct.
    set (n := round_half_even (x * 1000)).
    assert (Hn : (n # 1000) * 1000 - inject_Z n == 0).
    { unfold Qeq, Qminus, Qplus, Qmult, Qopp, inject_Z. cbn [Qnum Qden]. lia. }
    rewrite Hn. done. }
  unfold round3 at 1. by rewrite H.
Qed.

(** *** Merging a contiguous list *)

Definition well_formed (s : segment) : Prop := seg_start s <= seg_end s.

(** The label as the merge compares it. *)
Definition label_text (s : segment) : string := str (get (label s) "").

(** Each segment ends where the next one starts, and the two differ in
    their label. *)
Definition alternating (segs : list segment) : Prop :=
  ∀ (i : nat) a b, segs !! i = Some a → segs !! S i = Some b →
                   end_ a = start b ∧ label_text a ≠ label_text b.

Fixpoint linked (prev : segment) (rest : list segment) : Prop :=
  match rest with
  | [] => True
  | s :: r => seg_end prev == seg_start s ∧ linked s r
  end.

Fixpoint alt (prev : segment) (rest : list segment) : Prop :=
  match rest with
  | [] => True
  | s :: r => seg_end prev == seg_start s ∧ label_text prev ≠ label_text s ∧ alt s r
  end.

Lemma contiguous_linked prev rest : contiguous (prev :: rest) → linked prev rest.
Proof.
  revert prev. induction rest as [|s r IH]; intros prev Hc; [done|]. split.
  - unfold seg_end, seg_start. by rewrite (Hc 0%nat prev s eq_refl eq_refl).
  - apply IH. intros i a b Ha Hb. by apply (Hc (S i) a b).
Qed.

Lemma alt_alternating p out : alt p out → alternating (round_segment <$> (p :: out)).
Proof.
  revert p. induction out as [|s r IH]; intros p Halt; [by intros [|[|i]] ???|].
  destruct Halt as (Heq & Hlab & Halt). intros [|i] a b Ha Hb.
  - injection Ha as <-. injection Hb as <-. split; [|done].
    cbn [round_segment end_ start]. f_equal. by apply round3_proper.
  - by apply (IH s Halt i a b).
Qed.

Lemma last_default_nonempty {A} (l : list A) d d' : l ≠ [] → List.last l d = List.last l d'.
Proof.
  induction l as [|a [|b l] IH]; [done|done|]. intros _. by apply IH.
Qed.

Lemma last_cons_default {A} (a : A) l d : List.last (a :: l) d = List.last l a.
Proof.
  revert a d. induction l as [|b l IH]; intros a d; [done|].
  change (List.last (a :: b :: l) d) with (List.last (b :: l) d). by rewrite !IH.
Qed.

Lemma last_cons_Some {A} (a : A) l : last (a :: l) = Some (List.last l a).
Proof.
  revert a. induction l as [|b l IH]; intros a; [done|].
  change (last (a :: b :: l)) with (last (b :: l)). by rewrite IH, last_cons_default.
Qed.

Lemma last_fmap_default {A B} (f : A → B) l d :
  List.last (f <$> l) (f d) = f (List.last l d).
Proof.
  revert d. induction l as [|a l IH]; intros d; [done|].
  by rewrite fmap_cons, !last_cons_default.
Qed.

Lemma merge_chain_spec prev rest :
  well_formed prev → linked prev rest → Forall well_formed rest →
  ∃ p out, merge_chain prev rest = p :: out ∧
           start p = start prev ∧ label p = label prev ∧
           alt p out ∧ Forall well_formed (p :: out) ∧
           seg_end (List.last out p) == seg_end (List.last rest prev) ∧
           (length out <= length rest)%nat.
Proof.
  revert prev. induction rest as [|s r IH]; intros prev Hwf Hl Hall.
  { exists prev, []. repeat split; try done. by constructor. }
  destruct Hl as [Heq Hl]. apply Forall_cons in Hall as [Hs Hr].
  cbn [merge_chain]. destruct (mergeable prev s) eqn:Em.
  - assert (Hend : seg_end (extend prev s) == seg_end s).
    { apply fmax_le_r. unfold well_formed in Hs. lra. }
    destruct (IH (extend prev s)) as (p & out & -> & Hst & Hlb & Halt & Hwfo & Hlast & Hlen).
    + unfold well_formed in *. change (seg_start (extend prev s)) with (seg_start prev).
      rewrite Hend. lra.
    + destruct r as [|s' r']; [done|]. destruct Hl as [Hl1 Hl2]. split; [|done].
      by rewrite Hend.
    + done.
    + exists p, out. repeat split; try done.
      * rewrite Hlast, last_cons_default. destruct r as [|s' r']; [done|].
        by rewrite (last_default_nonempty (s' :: r') (extend prev s) s).
      * simpl. lia.
  - destruct (IH s Hs Hl Hr) as (p & out & -> & Hst & Hlb & Halt & Hwfo & Hlast & Hlen).
    exists prev, (p :: out).
    split; [done|]. split; [done|]. split; [done|]. split; [|split; [|split]].
    + split; [|split; [|done]].
      * unfold seg_start. rewrite Hst. exact Heq.
      * unfold label_text. rewrite Hlb. intros Hlab.
        assert (mergeable prev s = true); [|congruence].
        apply mergeable_iff. split; [done|]. lra.
    + by constructor.
    + by rewrite !last_cons_default.
    + simpl. lia.
Qed.

Lemma round_segment_well_formed s : well_formed s → well_formed (round_segment s).
Proof. unfold well_formed. cbn. apply round3_mono. Qed.

Lemma merge_contiguous segs :
  contiguous segs → Forall well_formed segs →
  alternating (_merge_adjacent_subtasks segs) ∧
  Forall well_formed (_merge_adjacent_subtasks segs) ∧
  (length (_merge_adjacent_subtasks segs) <= length segs)%nat ∧
  ∀ a b, head segs = Some a → last segs = Some b →
    ∃ a' b', head (_merge_adjacent_subtasks segs) = Some a' ∧
             last (_merge_adjacent_subtasks segs) = Some b' ∧
             start a' = Some (round3 (seg_start a)) ∧ label a' = label a ∧
             end_ b' = Some (round3 (seg_end b)).
Proof.
  intros Hc Hwf. destruct segs as [|s0 rest].
  { split; [by intros [|i] ???|]. split; [constructor|]. split; [done|]. by intros ???. }
  apply Forall_cons in Hwf as [Hwf0 Hwfr].
  destruct (merge_chain_spec s0 rest Hwf0 (contiguous_linked _ _ Hc) Hwfr)
    as (p & out & Hchain & Hst & Hlb & Halt & Hwfo & Hlast & Hlen).
  rewrite merge_adjacent_chain, Hchain.
  split; [by apply alt_alternating|]. split.
  { apply Forall_fmap. eapply Forall_impl; [exact Hwfo|]. apply round_segment_well_formed. }
  split; [rewrite length_fmap; simpl; lia|].
  intros a b [= <-] Hb.
  exists (round_segment p), (round_segment (List.last out p)).
  split; [done|]. split.
  { by rewrite fmap_cons, last_cons_Some, last_fmap_default. }
  split; [cbn; unfold seg_start; by rewrite Hst|]. split; [by cbn|].
  cbn [round_segment end_]. f_equal. apply round3_proper. rewrite Hlast.
  rewrite last_cons_Some in Hb. by injection Hb as ->.
Qed.

(** *** Windows are well formed *)

Lemma label_windows_well_formed reply_label timing stride_s segment_frames n t segs out :
  label_windows reply_label timing stride_s segment_frames n t segs = Ok out →
  0 <= stride_s → Forall well_formed segs → Forall well_formed out.
Proof.
  intros Hout Hpos. revert t segs Hout. induction n as [|n IH]; intros t segs Hout Hwf.
  { by injection Hout as <-. }
  cbn [label_windows] in Hout.
  destruct (flt t (Adapter.duration timing)) eqn:Ht; [|by injection Hout as <-].
  destruct (_predict_label_over_segment _ _) as [lbl|e]; [|done].
  cbn [mbind result_bind] in Hout. apply IH in Hout; [done|].
  apply Forall_app. split; [done|]. constructor; [|done].
  unfold well_formed. cbn. apply round3_mono.
  apply flt_iff in Ht. unfold fmin.
  destruct (flt _ _); [rewrite Qred_correct|]; lra.
Qed.

Lemma generate_well_formed reply_label prepare m episode_index stride_s segment_frames
    max_steps start_time_s segs :
  generate reply_label prepare m episode_index stride_s segment_frames max_steps
    start_time_s = Ok segs →
  Forall well_formed segs.
Proof.
  unfold generate. intros Hgen.
  destruct (Adapter.get_episode_timing m episode_index None) as [timing|e]; [|done].
  cbn [mbind result_bind] in Hgen.
  destruct (fle (Adapter.duration timing) 0); [by injection Hgen as <-|].
  destruct prepare as [[]|e]; [|done]. cbn [mbind result_bind] in Hgen.
  eapply label_windows_well_formed; [exact Hgen| |constructor].
  unfold fmax. destruct (flt _ _) eqn:E; [|lra]. apply flt_iff in E. lra.
Qed.

(** *** The schema normalisation keeps times and labels *)

Lemma normalize_keeps s :
  start (normalize s) = start s ∧ end_ (normalize s) = end_ s ∧
  label (normalize s) = label s.
Proof.
  unfold normalize.
  destruct (negb (has (robot_utterance s)) && has (robot_response s)); cbn;
    repeat case_match; done.
Qed.

Lemma alternating_fmap (f : segment → segment) segs :
  (∀ s, start (f s) = start s ∧ end_ (f s) = end_ s ∧ label (f s) = label s) →
  alternating segs → alternating (f <$> segs).
Proof.
  intros Hf Halt i a b Ha Hb.
  apply list_lookup_fmap_Some in Ha as (a0 & -> & Ha).
  apply list_lookup_fmap_Some in Hb as (b0 & -> & Hb).
  destruct (Halt i a0 b0 Ha Hb) as [H1 H2].
  destruct (Hf a0) as (_ & Hea & Hla), (Hf b0) as (Hsb & _ & Hlb).
  unfold label_text in *. by rewrite Hea, Hsb, Hla, Hlb.
Qed.

Lemma well_formed_fmap (f : segment → segment) segs :
  (∀ s, start (f s) = start s ∧ end_ (f s) = end_ s ∧ label (f s) = label s) →
  Forall well_formed segs → Forall well_formed (f <$> segs).
Proof.
  intros Hf Hwf. apply Forall_fmap. eapply Forall_impl; [exact Hwf|].
  intros s Hs. destruct (Hf s) as (Hst & Hen & _).
  unfold well_formed, seg_start, seg_end, compose in *. by rewrite Hst, Hen.
Qed.

(** *** The store *)

Lemma annotations_get_app anns anns' ep :
  annotations_get (anns ++ anns') ep
  = match annotations_get anns ep with
    | Some a => Some a
    | None => annotations_get anns' ep
    end.
Proof.
  induction anns as [|[e a] anns IH]; [done|].
  rewrite <- app_comm_cons, !annotations_get_cons. by destruct (decide (e = ep)).
Qed.

Lemma get_episode_annotations_entry anns ep :
  annotations_get (get_episode_annotations anns ep).1 ep
  = Some (get_episode_annotations anns ep).2.
Proof.
  unfold get_episode_annotations. destruct (annotations_get anns ep) as [ann|] eqn:E;
    cbn [fst snd]; [done|].
  rewrite annotations_get_app, E, annotations_get_cons. by rewrite decide_True.
Qed.

Lemma get_episode_annotations_other anns ep ep' :
  ep' ≠ ep →
  annotations_get (get_episode_annotations anns ep).1 ep' = annotations_get anns ep'.
Proof.
  intros Hne. unfold get_episode_annotations.
  destruct (annotations_get anns ep) as [ann|]; cbn [fst]; [done|].
  rewrite annotations_get_app, annotations_get_cons. rewrite decide_False by done.
  by destruct (annotations_get anns ep').
Qed.

Lemma update_annotations_other anns ep ep' f :
  ep' ≠ ep →
  annotations_get (update_annotations anns ep f) ep' = annotations_get anns ep'.
Proof.
  intros Hne. induction anns as [|[e a] anns IH]; [done|].
  cbn [update_annotations]. destruct (decide (e = ep)) as [->|He].
  - rewrite !annotations_get_cons. by rewrite !decide_False by done.
  - rewrite !annotations_get_cons. by rewrite IH.
Qed.

Lemma resolve_start_other req anns stored ep' :
  ep' ≠ req_episode_index req →
  annotations_get (resolve_start req anns stored).1 ep' = annotations_get anns ep'.
Proof.
  intros Hne. unfold resolve_start. destruct (start_time_s req); [done|].
  destruct (flag (resume_from_last req)); [|done].
  pose proof (get_episode_annotations_other anns (req_episode_index req) ep' Hne) as H.
  by destruct (get_episode_annotations anns (req_episode_index req)).
Qed.

(** The annotations of an episode, an absent entry read as an empty one. *)
Definition stored (anns : annotations) (ep : Z) : EpisodeAnnotations :=
  default empty_annotations (annotations_get anns ep).

Lemma get_episode_annotations_stored anns ep ep' :
  stored (get_episode_annotations anns ep).1 ep' = stored anns ep'.
Proof.
  unfold stored. destruct (decide (ep' = ep)) as [->|Hne].
  - rewrite get_episode_annotations_entry. unfold get_episode_annotations.
    by destruct (annotations_get anns ep).
  - by rewrite get_episode_annotations_other.
Qed.

Lemma resolve_start_stored req anns sel ep' :
  stored (resolve_start req anns sel).1 ep' = stored anns ep'.
Proof.
  unfold resolve_start. destruct (start_time_s req); [done|].
  destruct (flag (resume_from_last req)); [|done].
  pose proof (get_episode_annotations_stored anns (req_episode_index req) ep') as H.
  by destruct (get_episode_annotations anns (req_episode_index req)).
Qed.

End EngineExtraFacts.

Module EngineExtras.
Import Py PyFacts App AppFacts Engine EngineFacts StrategySubtask StrategyExtras.
Import EngineExtraFacts.

(** X13.  Merging a list of segments in which each one ends where the next
    one starts (and none ends before it starts) leaves a list with the same
    property in which, moreover, neighbours never carry the same label; it
    is not longer, starts at the rounded first start with the first label
    and ends at the rounded last end. *)
Theorem merge_contiguous_alternates segs :
  contiguous segs → Forall well_formed segs →
  alternating (_merge_adjacent_subtasks segs) ∧
  Forall well_formed (_merge_adjacent_subtasks segs) ∧
  (length (_merge_adjacent_subtasks segs) <= length segs)%nat ∧
  ∀ a b, head segs = Some a → last segs = Some b →
    ∃ a' b', head (_merge_adjacent_subtasks segs) = Some a' ∧
             last (_merge_adjacent_subtasks segs) = Some b' ∧
             start a' = Some (round3 (seg_start a)) ∧ label a' = label a ∧
             end_ b' = Some (round3 (seg_end b)).
Proof. apply merge_contiguous. Qed.

Definition three_windows : list segment :=
  [subtask 0 2 "reach"; subtask 2 4 "reach"; subtask 4 5 "grasp"].

Lemma merge_contiguous_alternates_witness :
  contiguous three_windows ∧ Forall well_formed three_windows ∧
  alternating (_merge_adjacent_subtasks three_windows) ∧
  _merge_adjacent_subtasks three_windows = [subtask 0 4 "reach"; subtask 4 5 "grasp"].
Proof.
  assert (Hc : contiguous three_windows).
  { intros [|[|[|i]]] a b Ha Hb; simplify_eq/=; done. }
  assert (Hwf : Forall well_formed three_windows).
  { repeat constructor; by vm_compute. }
  split; [exact Hc|]. split; [exact Hwf|].
  split; [exact (proj1 (merge_contiguous_alternates three_windows Hc Hwf))|].
  by vm_compute.
Defined.

(** The subtask strategy as the generator of the engine; the stride, the
    frame count and the step cap were resolved from the request and the
    configuration. *)
Definition windowed (reply_label : window → result string) (prepare : result unit)
    (m : Adapter.manager) (stride_s : Q) (segment_frames max_steps : Z)
    (req : request) (start : option Q) : result (list segment) :=
  StrategySubtask.generate reply_label prepare m (req_episode_index req) stride_s
    segment_frames max_steps start.

(** X14.  Subtask generation with [merge_adjacent] set, over the windowed
    strategy: when the call returns, consecutive returned segments share
    their boundary and differ in their label, none ends before it starts,
    and the returned list is the tail of the list stored for the episode
    (all of it in replace mode). *)
Theorem generate_subtasks_merged reply_label prepare m stride_s segment_frames max_steps
    req anns anns' segs :
  flag (merge_adjacent req) = true →
  generate_subtasks (windowed reply_label prepare m stride_s segment_frames max_steps)
    req anns = (anns', Ok segs) →
  alternating segs ∧ Forall well_formed segs ∧
  ∃ ann, annotations_get anns' (req_episode_index req) = Some ann ∧
         segs `suffix_of` subtasks ann ∧
         (req_mode req = replace → subtasks ann = segs).
Proof.
  intros Hmerge. unfold generate_subtasks. rewrite Hmerge.
  destruct (resolve_start req anns subtasks) as [anns0 st].
  unfold windowed at 1.
  destruct (generate _ _ _ _ _ _ _ st) as [raw|e] eqn:Hgen.
  2:{ intros H. by injection H. }
  pose proof (get_episode_annotations_entry anns0 (req_episode_index req)) as Hentry.
  destruct (get_episode_annotations anns0 (req_episode_index req)) as [anns1 ann].
  cbn [fst snd] in Hentry. intros H. injection H as <- <-.
  destruct (merge_contiguous raw) as (Halt & Hwf & _).
  { by apply generate_spec in Hgen as (_ & Hc & _). }
  { by apply generate_well_formed in Hgen. }
  split; [by apply alternating_fmap; [apply normalize_keeps|]|].
  split; [by apply well_formed_fmap; [apply normalize_keeps|]|].
  rewrite annotations_get_update, Hentry. eexists. split; [done|]. cbn.
  destruct (req_mode req); split; try done.
  by apply suffix_app_r.
Qed.

(** The model names the first half of the episode [reach], the rest [grasp]. *)
Definition two_labels (w : window) : result string :=
  Ok (if flt (seg_start_s w) 5 then "reach" else "grasp").

Definition merging : request :=
  {| req_episode_index := 0; req_mode := append; start_time_s := None;
     resume_from_last := Some false; merge_adjacent := Some true |}.

Lemma generate_subtasks_merged_witness :
  ∃ anns',
    generate_subtasks (windowed two_labels (Ok ()) ten_seconds (5 # 2) 8 10) merging []
    = (anns', Ok [subtask 0 5 "reach"; subtask 5 10 "grasp"]) ∧
    alternating [subtask 0 5 "reach"; subtask 5 10 "grasp"].
Proof.
  destruct (generate_subtasks (windowed two_labels (Ok ()) ten_seconds (5 # 2) 8 10)
              merging []) as [anns' res] eqn:E.
  assert (Hres : res = Ok [subtask 0 5 "reach"; subtask 5 10 "grasp"]).
  { vm_compute in E. by injection E as _ <-. }
  subst res. exists anns'. split; [done|].
  exact (proj1 (generate_subtasks_merged two_labels (Ok ()) ten_seconds (5 # 2) 8 10
                  merging [] anns' _ eq_refl E)).
Defined.

(** X15.  Generation for one episode never changes what is stored for
    another episode; and when the generator raises, nothing stored changes
    at all (at most an empty entry is created for the episode). *)
Theorem generation_frame gen req anns :
  (∀ ep', ep' ≠ req_episode_index req →
     annotations_get (generate_subtasks gen req anns).1 ep' = annotations_get anns ep' ∧
     annotations_get (generate_fake_vqa gen req anns).1 ep' = annotations_get anns ep') ∧
  (∀ e ep', (generate_subtasks gen req anns).2 = Raise e →
     stored (generate_subtasks gen req anns).1 ep' = stored anns ep') ∧
  (∀ e ep', (generate_fake_vqa gen req anns).2 = Raise e →
     stored (generate_fake_vqa gen req anns).1 ep' = stored anns ep').
Proof.
  split; [|split].
  - intros ep' Hne. unfold generate_subtasks, generate_fake_vqa. split.
    + pose proof (resolve_start_other req anns subtasks ep' Hne) as H0.
      destruct (resolve_start req anns subtasks) as [anns0 st]. cbn [fst] in H0.
      destruct (gen req st) as [segs|e]; [|done].
      pose proof (get_episode_annotations_other anns0 _ ep' Hne) as H1.
      destruct (get_episode_annotations anns0 (req_episode_index req)) as [anns1 ann].
      cbn [fst] in *. by rewrite update_annotations_other, H1.
    + pose proof (resolve_start_other req anns high_levels ep' Hne) as H0.
      destruct (resolve_start req anns high_levels) as [anns0 st]. cbn [fst] in H0.
      destruct (gen req st) as [segs|e]; [|done].
      pose proof (get_episode_annotations_other anns0 _ ep' Hne) as H1.
      destruct (get_episode_annotations anns0 (req_episode_index req)) as [anns1 ann].
      cbn [fst] in *. by rewrite update_annotations_other, H1.
  - intros e ep'. unfold generate_subtasks.
    pose proof (resolve_start_stored req anns subtasks ep') as H0.
    destruct (resolve_start req anns subtasks) as [anns0 st]. cbn [fst] in H0.
    destruct (gen req st) as [segs|e']; [|done].
    by destruct (get_episode_annotations anns0 (req_episode_index req)).
  - intros e ep'. unfold generate_fake_vqa.
    pose proof (resolve_start_stored req anns high_levels ep') as H0.
    destruct (resolve_start req anns high_levels) as [anns0 st]. cbn [fst] in H0.
    destruct (gen req st) as [segs|e']; [|done].
    by destruct (get_episode_annotations anns0 (req_episode_index req)).
Qed.

(** X26.  Resumed subtask generation continues where the stored subtasks
    end: with [resume_from_last] and no explicit start time, on an episode
    whose last stored subtask ends at [e], at least a millisecond before the
    end of the episode, the first returned segment starts at [e] rounded to
    milliseconds, merged or not; so it starts exactly at the stored end
    when that end is itself a rounded value. *)
Theorem resumed_subtasks_continue reply_label prepare m stride_s segment_frames max_steps
    req anns ann lastseg e timing anns' s segs :
  start_time_s req = None → flag (resume_from_last req) = true →
  annotations_get anns (req_episode_index req) = Some ann →
  last (subtasks ann) = Some lastseg → end_ lastseg = Some e →
  Adapter.get_episode_timing m (req_episode_index req) None = Ok timing →
  0 <= e → e <= Adapter.duration timing - (1 # 1000) →
  generate_subtasks (windowed reply_label prepare m stride_s segment_frames max_steps)
    req anns = (anns', Ok (s :: segs)) →
  start s = Some (round3 e) ∧ (∀ x, e = round3 x → start s = end_ lastseg).
Proof.
  intros Hstart Hresume Hann Hlast Hend Htiming He0 He1.
  unfold generate_subtasks, resolve_start. rewrite Hstart, Hresume.
  rewrite (get_episode_annotations_present _ _ _ Hann).
  assert (last_end (subtasks ann) = Some e) as ->.
  { unfold last_end. by rewrite Hlast. }
  unfold windowed at 1.
  destruct (generate _ _ _ _ _ _ _ (Some e)) as [raw|err] eqn:Hgen.
  2:{ intros H. by injection H. }
  rewrite (get_episode_annotations_present _ _ _ Hann). intros H. injection H as _ Hsegs.
  assert (Hfirst : first_start (Adapter.duration timing) (Some e) == e).
  { unfold first_start. change (default 0 (Some e)) with e.
    destruct (fmax_cases 0 (Qred (Adapter.duration timing - (1 # 1000))))
      as [[HX Ha]|[HX Ha]]; rewrite Qred_correct in Ha; rewrite HX;
    (match goal with
     | |- context [fmin ?a ?b] => destruct (fmin_cases a b) as [[Hm Hb]|[Hm Hb]]; rewrite Hm
     end);
    rewrite ?Qred_correct in Hb;
    (match goal with
     | |- context [fmax ?a ?b] => destruct (fmax_cases a b) as [[Hn Hc]|[Hn Hc]]; rewrite Hn
     end);
    rewrite ?Qred_correct in *; lra. }
  assert (Hhead : ∀ s0, head raw = Some s0 → start s0 = Some (round3 e)).
  { intros s0 Hs0. apply generate_spec in Hgen as (_ & _ & _ & Hst).
    rewrite (Hst timing s0 Htiming Hs0). f_equal. by apply round3_proper. }
  assert (Hs : start s = Some (round3 e)).
  { destruct (flag (merge_adjacent req)).
    - destruct raw as [|s0 rest]; [done|].
      destruct (merge_contiguous (s0 :: rest)) as (_ & _ & _ & Hends).
      { by apply generate_spec in Hgen as (_ & Hc & _). }
      { by apply generate_well_formed in Hgen. }
      destruct (last (s0 :: rest)) as [b|] eqn:Hb.
      2:{ by rewrite last_cons_Some in Hb. }
      destruct (Hends s0 b eq_refl eq_refl) as (a' & b' & Ha' & _ & Hsa & _).
      destruct (_merge_adjacent_subtasks (s0 :: rest)) as [|m0 ms]; [done|].
      injection Ha' as ->. cbn [fmap list_fmap] in Hsegs. injection Hsegs as <- _.
      destruct (normalize_keeps a') as (-> & _).
      rewrite Hsa. unfold seg_start. rewrite (Hhead s0 eq_refl).
      change (default 0 (Some (round3 e))) with (round3 e).
      by rewrite round3_idempotent.
    - destruct raw as [|s0 rest]; [done|].
      cbn [fmap list_fmap] in Hsegs. injection Hsegs as <- _.
      destruct (normalize_keeps s0) as (-> & _). by apply Hhead. }
  split; [done|]. intros x Hx. rewrite Hs, Hend, Hx. by rewrite round3_idempotent.
Qed.

Definition resuming : request :=
  {| req_episode_index := 0; req_mode := append; start_time_s := None;
     resume_from_last := Some true; merge_adjacent := Some true |}.

Definition stored_half : annotations :=
  [(0%Z, {| subtasks := [subtask 0 5 "reach"]; high_levels := []; qa_labels := [] |})].

Lemma resumed_subtasks_continue_witness :
  ∃ anns',
    generate_subtasks (windowed two_labels (Ok ()) ten_seconds (5 # 2) 8 10) resuming
      stored_half = (anns', Ok [subtask 5 10 "grasp"]) ∧
    annotations_get anns' 0
    = Some {| subtasks := [subtask 0 5 "reach"; subtask 5 10 "grasp"];
              high_levels := []; qa_labels := [] |}.
Proof.
  destruct (generate_subtasks (windowed two_labels (Ok ()) ten_seconds (5 # 2) 8 10)
              resuming stored_half) as [anns' res] eqn:E.
  assert (Hres : res = Ok [subtask 5 10 "grasp"]).
  { vm_compute in E. by injection E as _ <-. }
  subst res.
  pose proof (resumed_subtasks_continue two_labels (Ok ()) ten_seconds (5 # 2) 8 10
                resuming stored_half
                {| subtasks := [subtask 0 5 "reach"]; high_levels := []; qa_labels := [] |}
                (subtask 0 5 "reach") 5 VqaExtras.ten_second_timing anns'
                (subtask 5 10 "grasp") [] eq_refl eq_refl eq_refl eq_refl eq_refl) as Hthm.
  destruct Hthm as [Hstart _]; [by vm_compute| by vm_compute | by vm_compute | exact E |].
  exists anns'. split; [done|]. vm_compute in E. by injection E as <-.
Defined.

End EngineExtras.

(** ** ai_plugin_impl/strategy_subtask.py: the clips that are requested *)

Module WindowExtras.
Import Py PyFacts App AppFacts EngineFacts EngineExtraFacts StrategySubtask.

(** The clip of the window lies within the span of the episode in its video
    file, is not empty, and has a frame rate between 0.5 and 6. *)
Definition in_span (timing : Adapter.EpisodeTiming) (w : window) : bool :=
  fle (Adapter.video_start_time timing) (abs_start w)
  && flt (abs_start w) (abs_end w)
  && fle (abs_end w) (Adapter.video_end_time timing)
  && fle (1 # 2) (clip_fps w) && fle (clip_fps w) 6.

(** A model that sees only the windows that satisfy [P]. *)
Definition only_if (P : window → bool) (reply_label : window → result string)
    (w : window) : result string :=
  if P w then reply_label w else Raise (RuntimeError "window refused").

Lemma clip_fps_bounds num_frames duration_s :
  1 # 2 <= _clip_fps num_frames duration_s (1 # 2) 6 ∧
  _clip_fps num_frames duration_s (1 # 2) 6 <= 6.
Proof.
  unfold _clip_fps. set (fps0 := Qred _). clearbody fps0.
  destruct (flt fps0 (1 # 2)) eqn:E1.
  - assert (flt 6 (1 # 2) = false) as -> by done. split; lra.
  - apply flt_false_iff in E1. destruct (flt 6 fps0) eqn:E2.
    + split; lra.
    + apply flt_false_iff in E2. by split.
Qed.

Lemma window_in_span timing stride_s segment_frames t :
  0 <= t →
  Adapter.video_start_time timing + (1 # 1000) <= Adapter.video_end_time timing →
  in_span timing (window_at timing stride_s segment_frames t) = true.
Proof.
  intros Ht Hspan. unfold in_span, window_at.
  cbn [abs_start abs_end clip_fps].
  set (vst := Adapter.video_start_time timing) in *.
  set (vet := Adapter.video_end_time timing) in *.
  set (seg_end := fmin (Adapter.duration timing) (Qred (t + stride_s))).
  destruct (clip_fps_bounds segment_frames (fmax (1 # 1000) (Qred (seg_end - t))))
    as [Hf1 Hf2].
  rewrite !andb_true_iff, !fle_iff, flt_iff. repeat split; try done.
  - destruct (fmin_cases (fmax (Qred (vst + t)) vst) (Qred (vet - (1 # 1000))))
      as [[-> _]|[-> _]].
    + destruct (fmax_cases (Qred (vst + t)) vst) as [[-> ?]|[-> ?]]; lra.
    + rewrite Qred_correct. lra.
  - destruct (fmin_cases (fmax (Qred (vst + t)) vst) (Qred (vet - (1 # 1000))))
      as [[-> Ha]|[-> Ha]];
    destruct (fmin_cases (fmax (Qred (vst + seg_end)) (Qred (vst + t + (1 # 1000)))) vet)
      as [[-> Hb]|[-> Hb]];
    destruct (fmax_cases (Qred (vst + seg_end)) (Qred (vst + t + (1 # 1000))))
      as [[Hm Hc]|[Hm Hc]];
    destruct (fmax_cases (Qred (vst + t)) vst) as [[Hn Hd]|[Hn Hd]];
    rewrite ?Hm, ?Hn in *; rewrite ?Qred_correct in *; lra.
  - destruct (fmin_cases (fmax (Qred (vst + seg_end)) (Qred (vst + t + (1 # 1000)))) vet)
      as [[-> Hb]|[-> Hb]]; lra.
Qed.

Lemma label_windows_only_if reply_label timing stride_s segment_frames n t segs :
  0 <= t → 0 <= stride_s →
  Adapter.video_start_time timing + (1 # 1000) <= Adapter.video_end_time timing →
  label_windows (only_if (in_span timing) reply_label) timing stride_s segment_frames n t segs
  = label_windows reply_label timing stride_s segment_frames n t segs.
Proof.
  intros Ht Hs Hspan. revert t segs Ht. induction n as [|n IH]; intros t segs Ht; [done|].
  cbn [label_windows]. destruct (flt t (Adapter.duration timing)); [|done].
  assert (Hp : _predict_label_over_segment (only_if (in_span timing) reply_label)
                 (window_at timing stride_s segment_frames t)
               = _predict_label_over_segment reply_label
                   (window_at timing stride_s segment_frames t)).
  { unfold _predict_label_over_segment, only_if. by rewrite window_in_span. }
  rewrite Hp. destruct (_predict_label_over_segment reply_label _) as [lbl|e]; [|done].
  cbn [mbind result_bind]. apply IH. rewrite Qred_correct. lra.
Qed.



End WindowExtras.

(** ** app.py: importing subtask segments *)

Module ImportExtras.
Import Py PyFacts App AppFacts ExportFacts Engine EngineFacts EngineExtraFacts AppImport.

Section ImportLoop.
Context (py_float : Json.value → option Q) (py_str : Json.value → string).
Context (read : Z → sample_file).

(** What the import stores for a segment: a stripped, non-empty
    instruction and the two frame numbers divided by the frame rate, the end
    after the start, each rounded to milliseconds. *)
Definition imported (fps : Q) (s : segment) : Prop :=
  ∃ item start_s end_s raw,
    s = subtask (round3 start_s) (round3 end_s) (strip raw) ∧
    strip raw ≠ "" ∧ ¬ fps == 0 ∧ start_s < end_s ∧
    (∃ sf, py_float item.1 = Some sf ∧ start_s == sf / fps) ∧
    (∃ ef, py_float item.2 = Some ef ∧ end_s == ef / fps).

Lemma convert_segment_imported fps seg s :
  convert_segment py_float py_str fps seg = Some s → imported fps s.
Proof.
  unfold convert_segment. destruct seg as [| | | | | |items|d]; try done.
  set (raw := match dict_get d (key "instruction") with
              | Some v => py_str v | None => "" end).
  destruct (is_none (dict_get d (key "start_frame")) || is_none (dict_get d (key "end_frame"))
            || String.eqb (strip raw) "") eqn:E; [done|].
  apply orb_false_iff in E as [_ Hl]. apply String.eqb_neq in Hl.
  destruct (dict_get d (key "start_frame")) as [vs|]; [|done].
  destruct (dict_get d (key "end_frame")) as [ve|]; cbn [mbind option_bind].
  2:{ by destruct (py_float vs). }
  destruct (py_float vs) as [sf|] eqn:Es; [|done].
  destruct (py_float ve) as [ef|] eqn:Ee; [|done]. cbn [mbind option_bind].
  destruct (Qeq_bool fps 0) eqn:Ef; [done|].
  destruct (fle (Qred (ef / fps)) (Qred (sf / fps))) eqn:Ele; [done|].
  intros [= <-]. exists (vs, ve), (Qred (sf / fps)), (Qred (ef / fps)), raw.
  split; [done|]. split; [done|]. split.
  { intros H0. apply Qeq_bool_iff in H0. congruence. }
  split.
  { apply Qnot_le_lt. intros Hle. apply fle_iff in Hle. congruence. }
  split; [exists sf|exists ef]; (split; [done|apply Qred_correct]).
Qed.

Lemma imported_well_formed fps s : imported fps s → well_formed s.
Proof.
  intros (item & a & b & raw & -> & _ & _ & Hab & _). unfold well_formed. cbn.
  apply round3_mono. lra.
Qed.

(** The subtask list of [ep] is the one converted from its file. *)
Definition replaced (fps : Q) (anns' : annotations) (ep : Z) : Prop :=
  ∃ data items,
    read ep = Parsed data ∧ segments_in data = Ok items ∧
    subtasks (stored anns' ep) = omap (convert_segment py_float py_str fps) items ∧
    subtasks (stored anns' ep) ≠ [].

Lemma stored_update anns ep f ep' :
  annotations_get anns ep = Some (stored anns ep) →
  stored (update_annotations anns ep f) ep'
  = if decide (ep' = ep) then f (stored anns ep) else stored anns ep'.
Proof.
  intros Hentry. unfold stored at 1. destruct (decide (ep' = ep)) as [->|Hne].
  - by rewrite annotations_get_update, Hentry.
  - by rewrite update_annotations_other.
Qed.

Lemma import_loop_spec fps episodes anns st anns' res :
  import_loop py_float py_str read fps episodes anns st = (anns', res) →
  ∀ ep,
    high_levels (stored anns' ep) = high_levels (stored anns ep) ∧
    qa_labels (stored anns' ep) = qa_labels (stored anns ep) ∧
    (subtasks (stored anns' ep) = subtasks (stored anns ep)
     ∨ (ep ∈ episodes ∧ replaced fps anns' ep)).
Proof.
  revert anns st. induction episodes as [|e eps IH]; intros anns st Hloop ep.
  { injection Hloop as <- _. split; [done|]. split; [done|]. by left. }
  assert (Hkeep : ∀ st0, import_loop py_float py_str read fps eps anns st0 = (anns', res) →
            high_levels (stored anns' ep) = high_levels (stored anns ep) ∧
            qa_labels (stored anns' ep) = qa_labels (stored anns ep) ∧
            (subtasks (stored anns' ep) = subtasks (stored anns ep)
             ∨ (ep ∈ e :: eps ∧ replaced fps anns' ep))).
  { intros st0 H0. destruct (IH _ _ H0 ep) as (H1 & H2 & [H3|[H3 H4]]).
    - split; [done|]. split; [done|]. by left.
    - split; [done|]. split; [done|]. right. split; [by right|done]. }
  cbn [import_loop] in Hloop. destruct (read e) as [| |data] eqn:Hread.
  - by eapply Hkeep.
  - by eapply Hkeep.
  - destruct (segments_in data) as [items|err] eqn:Hitems.
    2:{ injection Hloop as <- _. split; [done|]. split; [done|]. by left. }
    cbv zeta in Hloop. set (segs := omap _ items) in *.
    destruct (bool_decide (segs = [])) eqn:Hempty; [by eapply Hkeep|].
    apply bool_decide_eq_false in Hempty.
    pose proof (get_episode_annotations_entry anns e) as Hentry.
    pose proof (get_episode_annotations_stored anns e) as Hst.
    destruct (get_episode_annotations anns e) as [anns1 ann1]. cbn [fst snd] in *.
    assert (Hent1 : annotations_get anns1 e = Some (stored anns1 e)).
    { unfold stored. by rewrite Hentry. }
    destruct (IH _ _ Hloop ep) as (H1 & H2 & H3).
    rewrite (stored_update _ _ _ _ Hent1) in H1, H2, H3.
    destruct (decide (ep = e)) as [->|Hne].
    + cbn in H1, H2. rewrite Hst in H1, H2.
      split; [done|]. split; [done|]. right. split; [by left|].
      destruct H3 as [H3|[_ H3]]; [|done].
      exists data, items. cbn in H3. rewrite H3. by repeat split.
    + rewrite Hst in H1, H2, H3.
      split; [done|]. split; [done|]. destruct H3 as [H3|[H3 H4]]; [by left|].
      right. split; [by right|done].
Qed.
End ImportLoop.

(** *** Question labels *)

Section Stable.
Context {A : Type} (keyf : A → Z).

Lemma insert_sorted_filter x l f :
  filter (λ a, keyf a = f) (insert_sorted (λ a b, (keyf a <? keyf b)%Z) x l)
  = filter (λ a, keyf a = f) (x :: l).
Proof.
  induction l as [|y l IH]; [done|]. cbn [insert_sorted].
  destruct (Z.ltb_spec (keyf y) (keyf x)) as [Hlt|Hge]; [|done].
  rewrite filter_cons, IH, !filter_cons.
  destruct (decide (keyf y = f)), (decide (keyf x = f)); try done. lia.
Qed.

(** Sorting by a key keeps the order of the elements with the same key. *)
Lemma sorted_stable l f :
  filter (λ a, keyf a = f) (sorted (λ a b, (keyf a <? keyf b)%Z) l)
  = filter (λ a, keyf a = f) l.
Proof.
  induction l as [|x l IH]; [done|]. cbn [sorted foldr].
  change (foldr _ [] l) with (sorted (λ a b, (keyf a <? keyf b)%Z) l).
  rewrite insert_sorted_filter, !filter_cons, IH. done.
Qed.

Lemma sorted_by_key l :
  StronglySorted (λ a b, (keyf a <= keyf b)%Z) (sorted (λ a b, (keyf a <? keyf b)%Z) l).
Proof.
  eapply StronglySorted_weaken; [|apply sorted_sorted].
  - intros x y. unfold not_after. intros H%Z.ltb_ge. done.
  - intros x y H%Z.ltb_lt. apply Z.ltb_ge. lia.
  - unfold not_after. intros x y z H1%Z.ltb_ge H2%Z.ltb_ge. apply Z.ltb_ge. lia.
Qed.
End Stable.

Section ImportQaLoop.
Context (py_int : Json.value → option Z) (py_str : Json.value → string).
Context (splitlines : string → list string).
Context (json_loads : string → option Json.value).
Context (list_dir : Z → sample_dir).

Abbreviation collect := (collect_qa_labels py_int py_str splitlines json_loads).

Lemma convert_qa_answered frame qa item :
  convert_qa py_str frame qa = Some item →
  item_frame_idx item = frame ∧ item_question item ≠ "" ∧ item_answer item ≠ "".
Proof.
  unfold convert_qa. destruct qa as [| | | | | |items|d]; try done.
  destruct (String.eqb (text_of py_str d "question") ""
            || String.eqb (text_of py_str d "answer") "") eqn:E; [done|].
  apply orb_false_iff in E as [Hq Ha]. apply String.eqb_neq in Hq, Ha.
  by intros [= <-].
Qed.

Lemma collect_answered files item :
  item ∈ collect files → item_question item ≠ "" ∧ item_answer item ≠ "".
Proof.
  unfold collect_qa_labels.
  intros (text & (obj & Hitem & _)%list_elem_of_bind & _)%list_elem_of_bind.
  unfold qa_of_object in Hitem. destruct (is_none _); [by apply elem_of_nil in Hitem|].
  destruct (_ ≫= py_int) as [frame|]; [|by apply elem_of_nil in Hitem].
  apply list_elem_of_omap in Hitem as (qa & _ & Hqa).
  by apply convert_qa_answered in Hqa as (_ & ? & ?).
Qed.

(** The question labels of [ep] are those collected from its directory,
    sorted by frame. *)
Definition relabelled (anns' : annotations) (ep : Z) : Prop :=
  ∃ files, list_dir ep = Dir files ∧ collect files ≠ [] ∧
           qa_labels (stored anns' ep) = stored_label <$> sort_by_frame (collect files).

Lemma import_qa_loop_spec episodes anns st anns' st' :
  import_qa_loop py_int py_str splitlines json_loads list_dir episodes anns st = (anns', st') →
  ∀ ep,
    subtasks (stored anns' ep) = subtasks (stored anns ep) ∧
    high_levels (stored anns' ep) = high_levels (stored anns ep) ∧
    (qa_labels (stored anns' ep) = qa_labels (stored anns ep)
     ∨ (ep ∈ episodes ∧ relabelled anns' ep)).
Proof.
  revert anns st. induction episodes as [|e eps IH]; intros anns st Hloop ep.
  { injection Hloop as <- _. split; [done|]. split; [done|]. by left. }
  assert (Hkeep : ∀ st0,
            import_qa_loop py_int py_str splitlines json_loads list_dir eps anns st0
            = (anns', st') →
            subtasks (stored anns' ep) = subtasks (stored anns ep) ∧
            high_levels (stored anns' ep) = high_levels (stored anns ep) ∧
            (qa_labels (stored anns' ep) = qa_labels (stored anns ep)
             ∨ (ep ∈ e :: eps ∧ relabelled anns' ep))).
  { intros st0 H0. destruct (IH _ _ H0 ep) as (H1 & H2 & [H3|[H3 H4]]).
    - split; [done|]. split; [done|]. by left.
    - split; [done|]. split; [done|]. right. split; [by right|done]. }
  cbn [import_qa_loop] in Hloop. destruct (list_dir e) as [|files] eqn:Hdir.
  - by eapply Hkeep.
  - cbv zeta in Hloop.
    destruct (bool_decide (collect files = [])) eqn:Hempty; [by eapply Hkeep|].
    apply bool_decide_eq_false in Hempty.
    pose proof (get_episode_annotations_entry anns e) as Hentry.
    pose proof (get_episode_annotations_stored anns e) as Hst.
    destruct (get_episode_annotations anns e) as [anns1 ann1]. cbn [fst snd] in *.
    assert (Hent1 : annotations_get anns1 e = Some (stored anns1 e)).
    { unfold stored. by rewrite Hentry. }
    destruct (IH _ _ Hloop ep) as (H1 & H2 & H3).
    rewrite (stored_update _ _ _ _ Hent1) in H1, H2, H3.
    destruct (decide (ep = e)) as [->|Hne].
    + cbn in H1, H2. rewrite Hst in H1, H2.
      split; [done|]. split; [done|]. right. split; [by left|].
      destruct H3 as [H3|[_ H3]]; [|done].
      exists files. cbn in H3. by rewrite H3.
    + rewrite Hst in H1, H2, H3.
      split; [done|]. split; [done|]. destruct H3 as [H3|[H3 H4]]; [by left|].
      right. split; [by right|done].
Qed.
End ImportQaLoop.


(** Stand-ins for the two built-ins on the values of the example. *)
Definition float_of_int (v : Json.value) : option Q :=
  match v with Json.JInt z => Some (inject_Z z) | _ => None end.
Definition str_of_string (v : Json.value) : string :=
  match v with
  | Json.JString s => String.string_of_list_ascii (Ascii.ascii_of_N <$> s)
  | _ => ""
  end.

(** Episode 0 has a file with one segment, frames 0 to 60; episode 1 has
    none. *)
Definition one_sample (ep : Z) : sample_file :=
  if decide (ep = 0%Z) then
    Parsed (Json.JObject
      [(key "segments",
        Json.JArray [Json.JObject [(key "start_frame", Json.JInt 0);
                                   (key "end_frame", Json.JInt 60);
                                   (key "instruction", Json.JString (key " pick "))]])])
  else NoFile.


(** X25.  Importing question labels changes nothing but the question
    labels of episodes of the metadata table: after it every episode holds
    its former labels or the labels collected from the files of its sample
    directory, which replace the former ones.  The collected labels all
    have a non-empty question and a non-empty answer, and they are stored
    sorted by frame index, labels of the same frame in the order in which
    the files list them. *)
Theorem import_qa_sorted_by_frame py_int py_str splitlines json_loads list_dir
    episode_indices anns anns' st :
  import_qa_from_root py_int py_str splitlines json_loads list_dir episode_indices anns
  = (anns', st) →
  (∀ ep,
     subtasks (stored anns' ep) = subtasks (stored anns ep) ∧
     high_levels (stored anns' ep) = high_levels (stored anns ep) ∧
     (qa_labels (stored anns' ep) = qa_labels (stored anns ep)
      ∨ (ep ∈ episode_indices
         ∧ relabelled py_int py_str splitlines json_loads list_dir anns' ep))) ∧
  (∀ files,
     let found := collect_qa_labels py_int py_str splitlines json_loads files in
     Forall (λ item, item_question item ≠ "" ∧ item_answer item ≠ "") found ∧
     sort_by_frame found ≡ₚ found ∧
     StronglySorted (λ a b, (item_frame_idx a <= item_frame_idx b)%Z) (sort_by_frame found) ∧
     ∀ f, filter (λ a, item_frame_idx a = f) (sort_by_frame found)
          = filter (λ a, item_frame_idx a = f) found).
Proof.
  unfold import_qa_from_root. intros Hloop. split.
  - intros ep.
    destruct (import_qa_loop_spec _ _ _ _ _ _ _ _ _ _ Hloop ep) as (H1 & H2 & H3).
    split; [done|]. split; [done|]. destruct H3 as [H3|[Hin Hrep]]; [by left|].
    right. split; [|done].
    rewrite sorted_perm in Hin. by apply (proj2 (unique_spec episode_indices)) in Hin.
  - intros files. cbv zeta. split.
    { apply Forall_forall. intros item Hitem. by eapply collect_answered. }
    split; [apply sorted_perm|]. split; [apply sorted_by_key|].
    intros f. apply sorted_stable.
Qed.

(** One line of a file holds the questions of a frame. *)
Definition line_of (frame : Z) (question : string) : Json.value :=
  Json.JObject
    [(key "frame_idx", Json.JInt frame);
     (key "qas", Json.JArray
        [Json.JObject [(key "type", Json.JString (key "spatial"));
                       (key "question", Json.JString (key question));
                       (key "answer", Json.JString (key "yes"))]])].

(** Stand-ins for the built-ins on the example: a file is a list of lines
    [b], [a], [c], which parse to the frames 7, 3 and 7. *)
Definition int_of_int (v : Json.value) : option Z :=
  match v with Json.JInt z => Some z | _ => None end.
Definition three_lines (text : string) : list string := ["b"; "a"; "c"].
Definition parse_line (s : string) : option Json.value :=
  if String.eqb s "a" then Some (line_of 3 "left?")
  else if String.eqb s "b" then Some (line_of 7 "right?")
  else Some (line_of 7 "up?").
Definition one_dir (ep : Z) : sample_dir := if decide (ep = 0%Z) then Dir ["f"] else NoDir.

Lemma import_qa_sorted_by_frame_witness :
  ∃ anns' st,
    import_qa_from_root int_of_int str_of_string three_lines parse_line one_dir [0]%Z []
    = (anns', st) ∧
    qa_labels (stored anns' 0)
    = [ {| frame_idx := 3 |}; {| frame_idx := 7 |}; {| frame_idx := 7 |} ] ∧
    item_question <$> sort_by_frame
      (collect_qa_labels int_of_int str_of_string three_lines parse_line ["f"])
    = ["left?"; "right?"; "up?"] ∧
    StronglySorted (λ a b, (item_frame_idx a <= item_frame_idx b)%Z)
      (sort_by_frame (collect_qa_labels int_of_int str_of_string three_lines parse_line ["f"])).
Proof.
  destruct (import_qa_from_root int_of_int str_of_string three_lines parse_line one_dir
              [0]%Z []) as [anns' st] eqn:E.
  pose proof (import_qa_sorted_by_frame _ _ _ _ _ _ _ _ _ E) as [_ Hsort].
  exists anns', st. split; [done|]. vm_compute in E. injection E as <- <-.
  split; [by vm_compute|]. split; [by vm_compute|].
  exact (proj1 (proj2 (proj2 (Hsort ["f"])))).
Defined.

End ImportExtras.

(** ** ai_plugin_impl/engine.py: the question windows of an episode *)

Module DensifyFacts.
Import Py PyFacts App Engine EngineFacts EngineVqa.

Section Loop.
Context (one_window : Q → result (list segment)) (cfg : settings).

(** The cursor after [k] turns. *)
Fixpoint cursor_at (k : nat) (cursor : Q) : Q :=
  match k with
  | O => cursor
  | S k' => cursor_at k' (Qred (cursor + stride_s cfg))
  end.

Lemma cursor_at_value k cursor :
  cursor_at k cursor == cursor + inject_Z (Z.of_nat k) * stride_s cfg.
Proof.
  revert cursor. induction k as [|k IH]; intros cursor.
  - cbn [cursor_at]. change (inject_Z (Z.of_nat 0)) with 0. lra.
  - cbn [cursor_at]. rewrite IH, Qred_correct, Nat2Z.inj_succ. unfold Z.succ.
    rewrite inject_Z_plus. change (inject_Z 1) with 1. lra.
Qed.

Lemma densify_loop_spec duration_s n cursor segs :
  ∃ m : nat,
    (m <= n)%nat ∧ (0 < n → 0 < m)%nat ∧
    densify_loop one_window cfg duration_s n cursor segs
    = segs ++ ((λ k, segment_at one_window cfg duration_s (cursor_at k cursor)) <$> seq 0 m) ∧
    (∀ k, (0 < k < m)%nat → cursor_at k cursor < duration_s - (1 # 1000000)) ∧
    (m = n ∨ duration_s - (1 # 1000000) <= cursor_at m cursor).
Proof.
  revert cursor segs. induction n as [|n IH]; intros cursor segs.
  { exists 0%nat. split; [done|]. split; [lia|]. split; [by rewrite app_nil_r|].
    split; [lia|]. by left. }
  cbn [densify_loop].
  destruct (fle (Qred (duration_s - (1 # 1000000))) (Qred (cursor + stride_s cfg))) eqn:Hb.
  - exists 1%nat. split; [lia|]. split; [lia|]. split; [done|]. split; [lia|]. right.
    apply fle_iff in Hb. by rewrite Qred_correct in Hb.
  - assert (Hlt : Qred (cursor + stride_s cfg) < duration_s - (1 # 1000000)).
    { apply Qnot_le_lt. intros Hle. apply not_true_iff_false in Hb. apply Hb.
      apply fle_iff. by rewrite Qred_correct. }
    destruct (IH (Qred (cursor + stride_s cfg))
                (segs ++ [segment_at one_window cfg duration_s cursor]))
      as (m & Hm & _ & -> & Hin & Hend).
    exists (S m). split; [lia|]. split; [lia|]. split.
    { rewrite <- app_assoc. f_equal. cbn [seq fmap list_fmap app]. f_equal.
      by rewrite <- fmap_S_seq, <- list_fmap_compose. }
    split.
    + intros [|[|k]] Hk; [lia|done|]. apply (Hin (S k)). lia.
    + destruct Hend as [->|Hend]; [by left|by right].
Qed.
End Loop.

Lemma first_cursor_bounds duration_s start_time_s :
  0 <= duration_s →
  0 <= first_cursor duration_s start_time_s ∧
  first_cursor duration_s start_time_s <= duration_s.
Proof.
  intros Hd. unfold first_cursor.
  destruct (flt (default 0 start_time_s) 0) eqn:E1.
  - destruct (flt duration_s 0) eqn:E2; [apply flt_iff in E2|]; lra.
  - apply flt_false_iff in E1. destruct (flt duration_s _) eqn:E2.
    + lra.
    + apply flt_false_iff in E2. lra.
Qed.

Lemma clamp_duration_pos duration : 0 < clamp_duration duration.
Proof.
  unfold clamp_duration, fmax. destruct (flt _ _) eqn:E; [|lra].
  apply flt_iff in E. lra.
Qed.

(** *** One call of the question generator with a stride that leaves the
        episode *)

(** What the generator returns when it asks once, at [t]. *)
Definition asked_once (ask : Q → gset string → result StrategyVqa.reply)
    (dur stride : Q) (tg : StrategyVqa.tags) (t : Q) : result (list segment) :=
  match ask t ∅ with
  | Raise e => Raise e
  | Ok r =>
      let q := strip (StrategyVqa.question r) in
      let a := strip (StrategyVqa.answer r) in
      if StrategyVqa.skip r || String.eqb q "" || String.eqb a "" then Ok []
      else Ok [StrategyVqa.qa_segment dur stride tg t q a]
  end.

Lemma single_window ask timing stride_s start_time_s tg k :
  let dur := Adapter.duration timing in
  let stride := fmax stride_s (1 # 1000) in
  let t := StrategySubtask.first_start dur start_time_s in
  dur - (1 # 1000000) <= t + stride →
  StrategyVqa.generate ask (2 + k) timing stride_s start_time_s tg
  = Some (if flt t (Qred (dur - (1 # 1000000))) then asked_once ask dur stride tg t
          else Ok []).
Proof.
  intros dur stride t Hnext. unfold StrategyVqa.generate. fold dur stride t.
  cbn [Nat.add StrategyVqa.qa_loop].
  destruct (flt t (Qred (dur - (1 # 1000000)))); [|done].
  assert (Hend : flt (Qred (t + stride)) (Qred (dur - (1 # 1000000))) = false).
  { apply flt_false_iff. rewrite !Qred_correct. lra. }
  unfold asked_once. destruct (ask t ∅) as [r|e]; [|done].
  destruct (StrategyVqa.skip r); cbn [orb].
  { destruct k; cbn [StrategyVqa.qa_loop]; by rewrite Hend. }
  destruct (String.eqb (strip (StrategyVqa.question r)) ""
            || String.eqb (strip (StrategyVqa.answer r)) "").
  { destruct k; cbn [StrategyVqa.qa_loop]; by rewrite Hend. }
  rewrite decide_False by set_solver.
  destruct k; cbn [StrategyVqa.qa_loop]; by rewrite Hend.
Qed.

End DensifyFacts.

Module DensifyExtras.
Import Py PyFacts App Engine EngineFacts EngineVqa DensifyFacts.

(** The keys that the densify loop fills in are present. *)
Definition filled (s : segment) : Prop :=
  user_prompt s ≠ Absent ∧ robot_response s ≠ Absent ∧ skill s ≠ Absent ∧
  scenario_type s ≠ Absent ∧ response_type s ≠ Absent.

(** X17.  The densify loop of question generation returns one segment per
    stride step, whatever the generator does on a window (a failure, or no
    pair, gives a segment without a question): the k-th segment starts at
    the clamped start time plus k strides and ends one window later or at
    the end of the episode, whichever comes first, and holds every key that
    the loop fills in; there are at most [steps] segments, every segment
    after the first starts more than 1e-6 before the end, and without caps
    and with a stride of at least 1e-6 the steps reach the end of the
    episode. *)
Theorem densify_one_segment_per_step one_window cfg duration start_time_s :
  let duration_s := clamp_duration duration in
  let c0 := first_cursor duration_s start_time_s in
  let segs := densify one_window cfg duration start_time_s in
  0 <= c0 ∧ c0 <= duration_s ∧
  (length segs <= Z.to_nat (Z.max (step_count cfg duration_s c0) 0))%nat ∧
  (∀ (k : nat) s, segs !! k = Some s →
     ∃ c e, start s = Some c ∧ end_ s = Some e ∧
            c == c0 + inject_Z (Z.of_nat k) * stride_s cfg ∧
            (c + window_s cfg <= duration_s ∧ e == c + window_s cfg
             ∨ duration_s < c + window_s cfg ∧ e = duration_s) ∧
            filled s ∧
            ((0 < k)%nat → c < duration_s - (1 # 1000000))) ∧
  (max_steps cfg = None → max_segments cfg = None → 1 # 1000000 <= stride_s cfg →
   c0 < duration_s →
   segs ≠ [] ∧
   duration_s - (1 # 1000000) <= c0 + inject_Z (Z.of_nat (length segs)) * stride_s cfg).
Proof.
  intros duration_s c0 segs.
  pose proof (clamp_duration_pos duration) as Hdur. fold duration_s in Hdur.
  destruct (first_cursor_bounds duration_s start_time_s) as [Hc0 Hc1]; [lra|].
  fold c0 in Hc0, Hc1. split; [done|]. split; [done|].
  set (n := Z.to_nat (Z.max (step_count cfg duration_s c0) 0)).
  destruct (densify_loop_spec one_window cfg duration_s n c0 [])
    as (m & Hm & Hpos & Hout & Hin & Hend).
  assert (Hsegs : segs = (λ k, segment_at one_window cfg duration_s (cursor_at cfg k c0))
                         <$> seq 0 m).
  { unfold segs, densify. fold duration_s c0 n. by rewrite Hout. }
  assert (Hlen : length segs = m) by by rewrite Hsegs, length_fmap, length_seq.
  split; [lia|]. split.
  - intros k s Hk. rewrite Hsegs in Hk.
    apply list_lookup_fmap_Some in Hk as (k' & -> & Hk').
    apply lookup_seq in Hk' as [-> Hlt]. cbn [Nat.add].
    eexists _, _. split; [done|]. split; [done|].
    split; [apply cursor_at_value|]. split.
    { unfold fmin. destruct (flt _ _) eqn:E.
      - apply flt_iff in E. rewrite Qred_correct in E. by right.
      - apply flt_false_iff in E. rewrite Qred_correct in E. left.
        split; [done|apply Qred_correct]. }
    split.
    { unfold filled, segment_at, complete, setdefault. cbn.
      repeat split; by case_match. }
    intros Hk. apply Hin. lia.
  - intros Hms Hmg Hstride Hlt.
    assert (Hsteps : step_count cfg duration_s c0
                     = Qceiling ((duration_s - c0) / stride_s cfg)).
    { unfold step_count. rewrite Hms, Hmg. rewrite (proj2 (flt_iff _ _) Hlt).
      apply Qceiling_comp.
      assert (fmax (Qred (duration_s - c0)) 0 == duration_s - c0) as ->.
      { unfold fmax. destruct (flt _ _) eqn:E; [|apply Qred_correct].
        apply flt_iff in E. rewrite Qred_correct in E. lra. }
      assert (fmax (stride_s cfg) (1 # 1000000) == stride_s cfg) as ->; [|reflexivity].
      unfold fmax. destruct (flt _ _) eqn:E; [|reflexivity].
      apply flt_iff in E. lra. }
    assert (Hx : (duration_s - c0) / stride_s cfg * stride_s cfg == duration_s - c0)
      by (field; lra).
    pose proof (Qle_ceiling ((duration_s - c0) / stride_s cfg)) as Hceil.
    assert (Hn1 : (0 < step_count cfg duration_s c0)%Z).
    { rewrite Hsteps. rewrite Zlt_Qlt.
      eapply Qlt_le_trans; [|exact Hceil]. change (inject_Z 0) with 0.
      apply Qlt_shift_div_l; lra. }
    assert (Hnpos : (0 < n)%nat) by (unfold n; lia).
    split.
    { intros Hnil. rewrite Hnil in Hlen. simpl in Hlen. lia. }
    rewrite Hlen. destruct Hend as [->|Hend].
    + unfold n. rewrite Z2Nat.id by lia. rewrite Z.max_l by lia. rewrite Hsteps.
      nra.
    + by rewrite cursor_at_value in Hend.
Qed.

(** X18.  A call of the question generator whose stride carries the first
    window to the end of the episode (as the calls of the densify loop do,
    with a stride of 1e9 seconds) asks the model exactly once, at the
    clamped start time and with an empty set of used questions, and returns
    at most one pair: none when the start is within 1e-6 of the end, when
    the model asks to skip, or when the question or the answer is empty. *)
Theorem vqa_single_window ask timing stride_s start_time_s tg k :
  let dur := Adapter.duration timing in
  let stride := fmax stride_s (1 # 1000) in
  let t := StrategySubtask.first_start dur start_time_s in
  dur - (1 # 1000000) <= t + stride →
  StrategyVqa.generate ask (2 + k) timing stride_s start_time_s tg
  = Some (if flt t (Qred (dur - (1 # 1000000))) then asked_once ask dur stride tg t
          else Ok []).
Proof. apply single_window. Qed.

Lemma vqa_single_window_witness :
  StrategyVqa.generate VqaExtras.repeating 2 VqaExtras.ten_second_timing 1000000000
    (Some 5) VqaExtras.vqa_tags
  = Some (asked_once VqaExtras.repeating 10 1000000000 VqaExtras.vqa_tags 5).
Proof.
  refine (eq_trans (vqa_single_window VqaExtras.repeating VqaExtras.ten_second_timing
                      1000000000 (Some 5) VqaExtras.vqa_tags 0 _) _).
  - by vm_compute.
  - by vm_compute.
Defined.


(** Steps of five seconds with windows of two, no caps. *)
Definition five_second_steps : settings :=
  {| stride_s := 5; window_s := 2; max_steps := None; max_segments := None;
     scenario_type_tag := "vqa"; response_type_tag := "answer"; skill_tag := "fake_vqa" |}.

(** The generator of the example, called by the densify loop. *)
Definition repeating_window (c : Q) : result (list segment) :=
  let t := StrategySubtask.first_start 10 (Some c) in
  if flt t (Qred (10 - (1 # 1000000)))
  then asked_once VqaExtras.repeating 10 (fmax 1000000000 (1 # 1000)) VqaExtras.vqa_tags t
  else Ok [].


End DensifyExtras.

(** ** ai_plugin_impl/json_parse.py: what extraction returns *)

Module JsonExtraFacts.
Import Py Json JsonParse.

Lemma append_cons x (a b : string) : String x a +:+ b = String x (a +:+ b).
Proof. reflexivity. Qed.

Lemma append_assoc_string (a b c : string) : (a +:+ b) +:+ c = a +:+ b +:+ c.
Proof. induction a as [|x a IH]; [done|]. by rewrite !append_cons, IH. Qed.

Lemma append_empty_r (a : string) : a +:+ "" = a.
Proof. induction a as [|x a IH]; [done|]. by rewrite append_cons, IH. Qed.

(** [t] is what is left of [s] after some characters. *)
Definition tail_of (t s : string) : Prop := ∃ pre, s = pre +:+ t.

(** [c] is a contiguous piece of [s]. *)
Definition piece_of (c s : string) : Prop := ∃ pre post, s = pre +:+ c +:+ post.

Lemma tail_of_refl s : tail_of s s.
Proof. by exists "". Qed.

Lemma tail_of_cons t a s : tail_of t s → tail_of t (String a s).
Proof. intros [pre ->]. by exists (String a pre). Qed.

Lemma tail_of_trans a b c : tail_of a b → tail_of b c → tail_of a c.
Proof. intros [p ->] [p' ->]. exists (p' +:+ p). by rewrite append_assoc_string. Qed.

Lemma piece_of_tail c t s : piece_of c t → tail_of t s → piece_of c s.
Proof.
  intros (pre & post & ->) [p ->]. exists (p +:+ pre), post.
  by rewrite !append_assoc_string.
Qed.

Lemma piece_of_refl s : piece_of s s.
Proof. exists "", "". cbn. by rewrite append_empty_r. Qed.

Lemma after_prefix_tail p s r : after_prefix p s = Some r → tail_of r s.
Proof.
  revert s. induction p as [|a p IH]; intros s H.
  - injection H as <-. apply tail_of_refl.
  - destruct s as [|b s]; [done|]. cbn in H. destruct (Ascii.eqb a b); [|done].
    by apply tail_of_cons, IH.
Qed.

Lemma after_prefix_nocase_tail p s r : after_prefix_nocase p s = Some r → tail_of r s.
Proof.
  revert s. induction p as [|a p IH]; intros s H.
  - destruct s; injection H as <-; apply tail_of_refl.
  - destruct s as [|b s]; [done|]. cbn in H.
    destruct (Ascii.eqb (lower a) (lower b)); [|done]. by apply tail_of_cons, IH.
Qed.

Lemma lstrip_tail s : tail_of (lstrip s) s.
Proof.
  induction s as [|a s IH]; [apply tail_of_refl|]. cbn.
  destruct (is_space a); [by apply tail_of_cons|apply tail_of_refl].
Qed.

Lemma lazy_body_prefix s b : lazy_body s = Some b → ∃ post, s = b +:+ post.
Proof.
  revert b. induction s as [|c s IH]; intros b H; [done|]. cbn [lazy_body] in H.
  destruct (Ascii.eqb c "}" && bool_decide (is_Some (after_prefix fence (lstrip s)))).
  - injection H as <-. by exists s.
  - destruct (lazy_body s) as [b'|]; [|done]. cbn in H. injection H as <-.
    destruct (IH b' eq_refl) as [post ->]. by exists post.
Qed.

Lemma match_block_piece s g : match_block s = Some g → piece_of g s.
Proof.
  unfold match_block. destruct (after_prefix fence s) as [r1|] eqn:E1; [|done].
  cbn [mbind option_bind]. set (r2 := default r1 (after_prefix_nocase "json" r1)).
  assert (Hr2 : tail_of r2 r1).
  { unfold r2. destruct (after_prefix_nocase "json" r1) eqn:E2; [|apply tail_of_refl].
    by apply after_prefix_nocase_tail in E2. }
  pose proof (lstrip_tail r2) as Hl.
  destruct (lstrip r2) as [|c r3]; [done|].
  destruct (Ascii.eqb c "{"); [|done].
  destruct (lazy_body r3) as [b|] eqn:Eb; [|done]. cbn. intros [= <-].
  apply lazy_body_prefix in Eb as [post ->].
  apply (piece_of_tail _ (String c (b +:+ post))).
  - by exists "", post.
  - eapply tail_of_trans; [exact Hl|]. eapply tail_of_trans; [exact Hr2|].
    by apply after_prefix_tail in E1.
Qed.

Lemma search_piece s g : search s = Some g → piece_of g s.
Proof.
  induction s as [|c s IH]; cbn [search].
  - destruct (match_block "") eqn:E; [|done]. intros [= <-]. by apply match_block_piece.
  - destruct (match_block (String c s)) eqn:E.
    + intros [= <-]. by apply match_block_piece.
    + intros H. eapply piece_of_tail; [by apply IH|]. apply tail_of_cons, tail_of_refl.
Qed.

Lemma substring_prefix m s : ∃ post, s = String.substring 0 m s +:+ post.
Proof.
  revert s. induction m as [|m IH]; intros s.
  - exists s. by destruct s.
  - destruct s as [|c s]; [by exists ""|]. destruct (IH s) as [post Hs].
    exists post. cbn [String.substring]. by rewrite append_cons, <- Hs.
Qed.

Lemma substring_piece n m s : piece_of (String.substring n m s) s.
Proof.
  revert s. induction n as [|n IH]; intros s.
  - destruct (substring_prefix m s) as [post Hs]. by exists "", post.
  - destruct s as [|c s].
    + destruct m; apply piece_of_refl.
    + cbn. eapply piece_of_tail; [apply IH|]. apply tail_of_cons, tail_of_refl.
Qed.

Lemma braces_piece text candidate : braces text = Some candidate → piece_of candidate text.
Proof.
  unfold braces. destruct (find "{" text) as [i|]; [|done].
  destruct (rfind "}" text) as [j|]; [|done]. destruct (i <? j)%nat; [|done].
  intros [= <-]. apply substring_piece.
Qed.

Section Extract.
Context (json_loads : string → option value).

Lemma loads_dict_ok candidate d :
  loads_dict json_loads candidate = Ok (Some d) → json_loads candidate = Some (JObject d).
Proof.
  unfold loads_dict. destruct (json_loads candidate) as [[]|]; try done.
  by intros [= <-].
Qed.

Lemma extract_sound text d :
  extract_json_object json_loads text = Ok d →
  strip text ≠ "" ∧
  ∃ candidate, json_loads candidate = Some (JObject d) ∧ piece_of candidate (strip text) ∧
    (candidate = strip text
     ∨ search (strip text) = Some candidate
     ∨ braces (strip text) = Some candidate).
Proof.
  unfold extract_json_object. destruct (String.eqb (strip text) "") eqn:Hne; [done|].
  apply String.eqb_neq in Hne. intros H. split; [done|].
  assert (Hdirect : ∀ d0, json_loads (strip text) = Some (JObject d0) →
            Ok d0 = Ok d →
            ∃ candidate, json_loads candidate = Some (JObject d) ∧
              piece_of candidate (strip text) ∧
              (candidate = strip text ∨ search (strip text) = Some candidate
               ∨ braces (strip text) = Some candidate)).
  { intros d0 Hd [= <-]. exists (strip text). split; [done|].
    split; [apply piece_of_refl|by left]. }
  assert (Hrest :
    (fenced ← match search (strip text) with
              | Some candidate => loads_dict json_loads candidate
              | None => Ok None
              end;
     match fenced with
     | Some d => Ok d
     | None =>
         braced ← match braces (strip text) with
                  | Some candidate => loads_dict json_loads candidate
                  | None => Ok None
                  end;
         match braced with
         | Some d => Ok d
         | None => Raise (ValueError "could not parse JSON object from model output")
         end
     end) = Ok d →
    ∃ candidate, json_loads candidate = Some (JObject d) ∧ piece_of candidate (strip text) ∧
      (candidate = strip text ∨ search (strip text) = Some candidate
       ∨ braces (strip text) = Some candidate)).
  { clear H Hdirect. intros H.
    assert (Hbr : (braced ← match braces (strip text) with
                            | Some candidate => loads_dict json_loads candidate
                            | None => Ok None
                            end;
                   match braced with
                   | Some d => Ok d
                   | None => Raise (ValueError "could not parse JSON object from model output")
                   end) = Ok d →
              ∃ candidate, json_loads candidate = Some (JObject d) ∧
                piece_of candidate (strip text) ∧
                (candidate = strip text ∨ search (strip text) = Some candidate
                 ∨ braces (strip text) = Some candidate)).
    { clear H. intros H. destruct (braces (strip text)) as [c2|] eqn:Eb; [|done].
      destruct (loads_dict json_loads c2) as [[d2|]|e] eqn:E2; [|done|done].
      cbn [mbind result_bind] in H. injection H as <-.
      exists c2. split; [by apply loads_dict_ok|]. split; [by apply braces_piece|].
      right. by right. }
    destruct (search (strip text)) as [c1|] eqn:Es; [|by apply Hbr].
    destruct (loads_dict json_loads c1) as [[d1|]|e] eqn:E1; [| |done];
      cbn [mbind result_bind] in H.
    - injection H as <-. exists c1. split; [by apply loads_dict_ok|].
      split; [by apply search_piece|]. right. by left.
    - destruct (Hbr H) as (c & Hc & Hp & Hcase). by exists c. }
  destruct (json_loads (strip text)) as [[]|]; try (by apply Hrest).
  by eapply Hdirect.
Qed.
End Extract.

End JsonExtraFacts.

Module JsonExtras.
Import Py Json JsonParse JsonFacts JsonExtraFacts.

(** X20.  Whatever extraction returns was parsed from the model output:
    the returned mapping is the result of [json.loads] on a contiguous piece
    of the stripped text, namely the whole text, the region captured in a
    fenced block, or the span from the first opening to the last closing
    brace; and the stripped text is not empty. *)
Theorem extract_returns_parsed_piece json_loads text d :
  extract_json_object json_loads text = Ok d →
  strip text ≠ "" ∧
  ∃ candidate, json_loads candidate = Some (JObject d) ∧ piece_of candidate (strip text) ∧
    (candidate = strip text
     ∨ search (strip text) = Some candidate
     ∨ braces (strip text) = Some candidate).
Proof. apply extract_sound. Qed.

Lemma extract_returns_parsed_piece_witness :
  ∃ d candidate,
    extract_json_object loads ("Sure: {" +:+ JsonClaims.q +:+ "label" +:+ JsonClaims.q
                               +:+ ": 1} ok") = Ok d ∧
    loads candidate = Some (JObject d) ∧
    piece_of candidate ("Sure: {" +:+ JsonClaims.q +:+ "label" +:+ JsonClaims.q +:+ ": 1} ok").
Proof.
  destruct (extract_json_object loads ("Sure: {" +:+ JsonClaims.q +:+ "label" +:+ JsonClaims.q
                                       +:+ ": 1} ok")) as [d|e] eqn:E;
    [|by vm_compute in E].
  destruct (extract_returns_parsed_piece loads _ d E) as (_ & c & Hc & Hp & _).
  exists d, c. split; [done|]. split; [done|]. exact Hp.
Defined.

End JsonExtras.

(** ** ai_plugin_impl/sampler.py: failed extractions *)

Module SamplerExtraFacts.
Import Py PyFacts Sampler SamplerFacts.

(** The texts of the two errors of an operation. *)
Definition failure_prefix (op : operation) : string :=
  match op with
  | frame _ => "ffmpeg failed: "
  | clip _ _ _ => "ffmpeg clip failed: "
  end.
Definition empty_message (op : operation) : string :=
  match op with
  | frame _ => "ffmpeg produced empty frame"
  | clip _ _ _ => "ffmpeg produced empty clip"
  end.

Section Facts.
Context `{Externals} (self : FrameSampler).

Lemma extract_miss_result w video_path op :
  valid (fs w) (out_path_of self video_path op) = false →
  let cmd := cmd_of self video_path op in
  let p := out_path_of self video_path op in
  let w2 := {| fs := (ffmpeg cmd (fs w)).1;
               trace := trace w ++ [Mkdir (cache_dir self); Run cmd] |} in
  extract self w video_path op
  = (match (ffmpeg cmd (fs w)).2 with
     | Some stderr => Raise (RuntimeError (failure_prefix op +:+ stderr))
     | None => if valid (fs w2) p then Ok p else Raise (RuntimeError (empty_message op))
     end, w2).
Proof.
  intros Hv cmd p w2.
  assert (Hw2 : ∀ err, ffmpeg cmd (fs w) = ((ffmpeg cmd (fs w)).1, err) →
            run cmd (record (Mkdir (cache_dir self)) w) = (w2, err)).
  { intros err Herr. unfold run, record. cbn [fs trace]. rewrite Herr.
    unfold w2. by rewrite <- app_assoc. }
  destruct (ffmpeg cmd (fs w)) as [f err] eqn:Ef.
  specialize (Hw2 err eq_refl). cbn [fst snd] in *.
  destruct op; simpl in Hv; cbn [extract]; unfold extract_frame, extract_clip;
    rewrite Hv; fold cmd in Hw2 |- *; cbn [cmd_of] in cmd;
    (change (frame_cmd _ _ _ _) with cmd || change (clip_cmd _ _ _ _ _ _) with cmd);
    rewrite Hw2; destruct err as [stderr|]; cbn [fst snd out_path_of failure_prefix
                                                  empty_message];
    try done; unfold p; cbn [out_path_of]; by destruct (valid (fs w2) _).
Qed.

Lemma extract_failure w video_path op e w1 :
  extract self w video_path op = (Raise e, w1) →
  let cmd := cmd_of self video_path op in
  let p := out_path_of self video_path op in
  valid (fs w) p = false ∧
  w1 = {| fs := (ffmpeg cmd (fs w)).1;
          trace := trace w ++ [Mkdir (cache_dir self); Run cmd] |} ∧
  ((∃ stderr, (ffmpeg cmd (fs w)).2 = Some stderr ∧
              e = RuntimeError (failure_prefix op +:+ stderr))
   ∨ ((ffmpeg cmd (fs w)).2 = None ∧ valid (fs w1) p = false ∧
      e = RuntimeError (empty_message op))) ∧
  (valid (fs w1) p = true → extract self w1 video_path op = (Ok p, w1)).
Proof.
  intros Hex cmd p.
  destruct (valid (fs w) p) eqn:Hv.
  { unfold p in Hv. rewrite (extract_hit self w video_path op Hv) in Hex. done. }
  split; [done|]. rewrite (extract_miss_result w video_path op Hv) in Hex.
  fold cmd p in Hex. injection Hex as He <-. split; [done|]. split.
  - destruct ((ffmpeg cmd (fs w)).2) as [stderr|].
    + left. exists stderr. split; [done|]. by injection He as <-.
    + right. cbn [fs] in *. destruct (valid _ p) eqn:Hv2; [done|].
      split; [done|]. split; [done|]. by injection He as <-.
  - intros Hv1. by apply extract_hit.
Qed.
End Facts.

End SamplerExtraFacts.

Module SamplerExtras.
Import Py PyFacts Sampler SamplerFacts SamplerExtraFacts.

(** X21.  A frame or clip operation fails only on a cache miss, after
    making the cache directory and running the transcoder once, and only
    with [RuntimeError]: with the text of stderr when the transcoder exits
    with a non-zero status, with "ffmpeg produced empty ..." when it exits
    with zero and leaves no file or an empty one.  Nothing is removed after a
    failure: if the failed run left a non-empty file at the cache path, the
    same call made again returns that file as a cache entry. *)
Theorem extract_failure_leaves_output `{Externals} self w video_path op e w1 :
  extract self w video_path op = (Raise e, w1) →
  let cmd := cmd_of self video_path op in
  let p := out_path_of self video_path op in
  valid (fs w) p = false ∧
  w1 = {| fs := (ffmpeg cmd (fs w)).1;
          trace := trace w ++ [Mkdir (cache_dir self); Run cmd] |} ∧
  ((∃ stderr, (ffmpeg cmd (fs w)).2 = Some stderr ∧
              e = RuntimeError (failure_prefix op +:+ stderr))
   ∨ ((ffmpeg cmd (fs w)).2 = None ∧ valid (fs w1) p = false ∧
      e = RuntimeError (empty_message op))) ∧
  (valid (fs w1) p = true → extract self w1 video_path op = (Ok p, w1)).
Proof. apply extract_failure. Qed.

(** A transcoder that writes one byte to its output and exits with
    status 1. *)
Definition interrupted : Externals :=
  {| sha1_hexdigest := λ s, s;
     format_fixed := λ _ x, SamplerClaims.print_fraction x;
     format_float := SamplerClaims.print_fraction;
     ffmpeg := λ cmd f,
       match last cmd with
       | Some out => (<[out := [Byte.x2a]]> f, Some "killed")
       | None => (f, Some "no output file")
       end |}.

Lemma extract_failure_leaves_output_witness :
  ∃ w1 p,
    @extract interrupted SamplerClaims.sampler SamplerClaims.empty_world "ep0.mp4" (frame 1)
    = (Raise (RuntimeError "ffmpeg failed: killed"), w1) ∧
    @extract interrupted SamplerClaims.sampler w1 "ep0.mp4" (frame 1) = (Ok p, w1).
Proof.
  destruct (@extract interrupted SamplerClaims.sampler SamplerClaims.empty_world
              "ep0.mp4" (frame 1)) as [[p|e] w1] eqn:E; [by vm_compute in E|].
  destruct (@extract_failure_leaves_output interrupted SamplerClaims.sampler
              SamplerClaims.empty_world "ep0.mp4" (frame 1) e w1 E)
    as (_ & Hw1 & _ & Hagain).
  assert (He : e = RuntimeError "ffmpeg failed: killed").
  { vm_compute in E. by injection E as <- _. }
  subst e. exists w1, (@out_path_of interrupted SamplerClaims.sampler "ep0.mp4" (frame 1)).
  split; [done|]. apply Hagain. rewrite Hw1. by vm_compute.
Defined.

End SamplerExtras.
